(** * SDLC requirement traceability platform: a shallow embedding

    The development follows the backend sources:
    - [middleware/auth.middleware.ts]  (roles, permission table, the
      [ensureAuthenticated], [authorize] and [authMiddleware] middlewares);
    - [services/auditlog.service.ts]   (the [AuditLog] entity and
      [AuditLogService]);
    - [services/integration.service.ts] ([IntegrationService]);
    - [routes/traceability.routes.ts]  (the five routes of
      [traceabilityRouter]);
    - [models/requirement.model.ts]    (the [Requirement] entity);
    - [app.ts]                          (how the router is mounted).

    Everything outside the process (the two database tables, the winston
    stream, the three upstream HTTP services, the random source and the
    process environment) is gathered in one record, [World], that the
    asynchronous functions thread explicitly.  A JavaScript exception is a
    [Thrown] completion; [try_catch] is the [try]/[catch] statement. *)

From Stdlib Require Import ZArith String Ascii List Sorting.Sorted Sorting.Permutation.
From stdpp Require Import base option list gmap strings pretty.

Set Warnings "-register-all".

Local Open Scope string_scope.
Local Open Scope Z_scope.

(** ** JavaScript values and built-ins used by the sources *)

Module Js.

(** What [JSON.parse] can put in [req.body] and what [JSON.stringify]
    accepts, plus [undefined] for an absent property.  A number is given
    by the text that [Number.prototype.toString], and so [JSON.stringify],
    prints for it: [2], [0.5], [1e+21]; every zero is [0]. *)
Inductive Value : Type :=
| Undefined
| Null
| Bool (b : bool)
| Num (text : string)
| Str (s : string)
| Arr (items : list Value)
| Obj (props : list (string * Value)).

(** [typeof v === 'boolean'] *)
Definition is_boolean (v : Value) : option bool :=
  match v with Bool b => Some b | _ => None end.

(** [Array.from(new Set(xs))]: a [Set] keeps one copy of each value, in
    the order of first insertion.  [seen] is the set built so far. *)
Fixpoint set_add_all (seen xs : list string) : list string :=
  match xs with
  | [] => seen
  | x :: rest =>
      if bool_decide (x ∈ seen) then set_add_all seen rest
      else set_add_all (seen ++ [x])%list rest
  end.

Definition array_from_set (xs : list string) : list string :=
  set_add_all [] xs.

(** [a || b] on strings: [undefined] and the empty string are falsy. *)
Definition str_or (a : option string) (b : string) : string :=
  match a with
  | Some s => if bool_decide (s = "") then b else s
  | None => b
  end.

(** A template-literal hole [${x}] where [x] may be [undefined]. *)
Definition interpolate (x : option string) : string :=
  default "undefined" x.

(** [xs.join(sep)] *)
Fixpoint join (sep : string) (xs : list string) : string :=
  match xs with
  | [] => ""
  | [x] => x
  | x :: rest => x ++ sep ++ join sep rest
  end.

(** [s.split(sep)] for a separator of one character: the pieces between
    the separators, at least one, possibly empty. *)
Fixpoint split (sep : ascii) (s : string) : list string :=
  match s with
  | EmptyString => [EmptyString]
  | String c rest =>
      if Ascii.eqb c sep then EmptyString :: split sep rest
      else
        match split sep rest with
        | piece :: pieces => String c piece :: pieces
        | [] => [String c EmptyString]
        end
  end.

(** Whether a character occurs in a string. *)
Fixpoint occurs (c : ascii) (s : string) : bool :=
  match s with
  | EmptyString => false
  | String c' rest => Ascii.eqb c' c || occurs c rest
  end.

(** The double-quote character (code 34) and the line feed (code 10). *)
Definition dquote : ascii := "034"%char.
Definition dq : string := String dquote EmptyString.
Definition nl : string := String "010"%char EmptyString.

(** [s.replace(/Q/g, 'QQ')] where Q is the double-quote character: every
    occurrence is replaced, the other characters are kept. *)
Fixpoint double_quotes (s : string) : string :=
  match s with
  | EmptyString => EmptyString
  | String c rest =>
      if Ascii.eqb c dquote
      then String dquote (String dquote (double_quotes rest))
      else String c (double_quotes rest)
  end.

Definition hex_digit (n : N) : ascii :=
  ascii_of_N (if (n <? 10)%N then 48 + n else 87 + n)%N.

(** The escape that [JSON.stringify] writes for one character of a string. *)
Definition json_escape_char (c : ascii) : string :=
  let n := N_of_ascii c in
  if (n =? 34)%N then "\" ++ dq
  else if (n =? 92)%N then "\\"
  else if (n =? 8)%N then "\b"
  else if (n =? 12)%N then "\f"
  else if (n =? 10)%N then "\n"
  else if (n =? 13)%N then "\r"
  else if (n =? 9)%N then "\t"
  else if (n <? 32)%N then
    "\u00" ++ String (hex_digit (n / 16)) (String (hex_digit (n mod 16)) "")
  else String c "".

Fixpoint json_escape (s : string) : string :=
  match s with
  | EmptyString => EmptyString
  | String c rest => json_escape_char c ++ json_escape rest
  end.

Definition json_quote (s : string) : string :=
  dq ++ json_escape s ++ dq.

Definition defined (v : Value) : bool :=
  match v with Undefined => false | _ => true end.

(** [JSON.stringify(v, null, gap)] for a value that is not [undefined] at
    top level; [gap = ""] is the compact form of [JSON.stringify(v)].
    [indent] is the current indentation.  Properties whose value is
    [undefined] are left out of objects; an [undefined] array element is
    written [null]. *)
Fixpoint stringify_at (gap indent : string) (v : Value) : string :=
  let inner := indent ++ gap in
  let pretty_open := nl ++ inner in
  let pretty_sep := "," ++ pretty_open in
  let pretty_close := nl ++ indent in
  let compact := bool_decide (gap = "") in
  let wrap (l r : string) (parts : list string) : string :=
    match parts with
    | [] => l ++ r
    | _ =>
        if compact then l ++ join "," parts ++ r
        else l ++ pretty_open ++ join pretty_sep parts ++ pretty_close ++ r
    end in
  match v with
  | Undefined => "null"
  | Null => "null"
  | Bool true => "true"
  | Bool false => "false"
  | Num text => text
  | Str s => json_quote s
  | Arr items => wrap "[" "]" (List.map (stringify_at gap inner) items)
  | Obj props =>
      wrap "{" "}"
        ((fix members (ps : list (string * Value)) : list string :=
            match ps with
            | [] => []
            | (_, Undefined) :: rest => members rest
            | (k, x) :: rest =>
                (json_quote k ++ (if compact then ":" else ": ")
                   ++ stringify_at gap inner x) :: members rest
            end) props)
  end.

Definition stringify (v : Value) : string := stringify_at "" "" v.
Definition stringify_pretty (gap : string) (v : Value) : string :=
  stringify_at gap "" v.

(** [String(n).padStart(width, '0')] for a non-negative [n]. *)
Definition pad (width : nat) (n : Z) : string :=
  let digits := pretty n in
  String.concat "" (repeat "0" (width - String.length digits)) ++ digits.

(** The civil date of a day count since 1970-01-01 (proleptic Gregorian
    calendar), as [(year, month, day)]. *)
Definition civil_from_days (days : Z) : Z * Z * Z :=
  let z := days + 719468 in
  let era := z / 146097 in
  let doe := z - era * 146097 in
  let yoe := (doe - doe / 1460 + doe / 36524 - doe / 146096) / 365 in
  let doy := doe - (365 * yoe + yoe / 4 - yoe / 100) in
  let mp := (5 * doy + 2) / 153 in
  let d := doy - (153 * mp + 2) / 5 + 1 in
  let m := if mp <? 10 then mp + 3 else mp - 9 in
  let y := yoe + era * 400 + (if m <=? 2 then 1 else 0) in
  (y, m, d).

(** [new Date(ms).toISOString()], [None] standing for the [RangeError] of
    an invalid date (a time value outside +-8.64e15 ms). *)
Definition toISOString (ms : Z) : option string :=
  if (ms <? -8640000000000000) || (8640000000000000 <? ms) then None
  else
    let '(y, m, d) := civil_from_days (ms / 86400000) in
    let t := ms mod 86400000 in
    let year :=
      if (0 <=? y) && (y <=? 9999) then pad 4 y
      else (if y <? 0 then "-" else "+") ++ pad 6 (Z.abs y) in
    Some (year ++ "-" ++ pad 2 m ++ "-" ++ pad 2 d ++ "T"
          ++ pad 2 (t / 3600000) ++ ":" ++ pad 2 (t / 60000 mod 60) ++ ":"
          ++ pad 2 (t / 1000 mod 60) ++ "." ++ pad 3 (t mod 1000) ++ "Z").

(** The wording of the data model for the same operation: keep the first
    occurrence of each identifier, in order, and drop the later ones. *)
Fixpoint first_occurrences (xs : list string) : list string :=
  match xs with
  | [] => []
  | x :: rest => x :: filter (λ y, y ≠ x) (first_occurrences rest)
  end.

End Js.

(** ** Exceptions and completions *)

Inductive Exception : Type :=
| TypeError (msg : string)
| RangeError (msg : string)
| QueryFailed (table : string)
| RequestFailed (url : string).

(** How a JavaScript computation ends: with a value, or with a [throw]
    (for an [async] function: a fulfilled or a rejected promise). *)
Inductive Completion (A : Type) : Type :=
| Normal (a : A)
| Thrown (e : Exception).
Arguments Normal {A} a.
Arguments Thrown {A} e.

(** ** Entities *)

(** [models/requirement.model.ts].  The five [simple-array] columns are
    nullable, hence optional. *)
Record Requirement : Type := {
  id : string;
  title : string;
  description : option string;
  priority : option string;
  status : string;
  userStoryIds : option (list string);
  taskIds : option (list string);
  testCaseIds : option (list string);
  codeCommitIds : option (list string);
  deploymentIds : option (list string);
  hasFailedTests : bool;
  hasDeploymentRollback : bool;
  createdBy : string;
  updatedBy : option string;
  createdAt : Z;
  updatedAt : Z
}.

(** The [AuditLog] entity of [services/auditlog.service.ts]; [timestamp] is
    in milliseconds since the epoch. *)
Record AuditLog : Type := {
  log_id : string;
  log_action : string;
  log_username : option string;
  log_role : option string;
  log_details : option string;
  log_ip : option string;
  log_timestamp : Z
}.

(** What the service passes to [auditRepo.save]: the columns it sets; the
    database generates [id] and [timestamp]. *)
Record AuditDraft : Type := {
  draft_action : string;
  draft_username : option string;
  draft_role : option string;
  draft_details : option string;
  draft_ip : option string
}.

(** The authenticated principal that Passport attaches as [req.user].  The
    role is the string found at run time: the TypeScript annotation
    [UserRole] is erased. *)
Record User : Type := {
  username : string;
  role : string
}.

(** ** Upstream systems *)

(** The part of a Jira issue that the service reads.  [None] stands for an
    absent ([undefined]) property. *)
Record JiraFields : Type := {
  summary : option string;
  status_name : option (option string);      (* fields.status?.name *)
  assignee_displayName : option (option string)  (* fields.assignee?.displayName *)
}.

Record JiraIssue : Type := {
  issue_id : option string;
  issue_key : option string;
  issue_fields : option JiraFields
}.

Record GithubAuthor : Type := {
  author_name : option string;
  author_date : option string
}.

Record GithubCommitBody : Type := {
  commit_author : option GithubAuthor;
  commit_message : option string
}.

Record GithubCommit : Type := {
  gh_sha : option string;
  gh_commit : option GithubCommitBody;
  gh_html_url : option string
}.

Record JenkinsBuild : Type := {
  build_result : option string;
  build_timestamp : option Z
}.

(** One answer per request: [None] is a rejected request (network error,
    non-2xx status).  [process_env] is [process.env]; [math_random_gt_08 i]
    is the outcome of [Math.random() > 0.8] at the [i]-th element of one
    [ids.map] in [getTestResults]; [now_iso] is [new Date().toISOString()]. *)
Record Upstream : Type := {
  jira_get_issue : string -> option JiraIssue;
  github_get_commit : string -> option GithubCommit;
  jenkins_get_build : string -> option JenkinsBuild;
  math_random_gt_08 : nat -> bool;
  now_iso : string;
  process_env : string -> option string
}.

(** ** The world outside the process *)

Inductive Level : Type := LError | LWarn | LInfo.

Record LogLine : Type := {
  level : Level;
  message : string
}.

(** [requirements] and [audit_logs] are the two tables ([audit_logs] in
    insertion order); [diagnostics] is the winston stream, oldest first.
    [requirement_faults] and [audit_faults] script the upcoming operations
    on each repository: the head says whether the next operation throws,
    and an exhausted script means success.  [audit_generated n] is the
    [(id, timestamp)] the database generates for the row inserted when the
    table holds [n] rows.  [database_clock] gives the timestamps of the
    writes to come on the requirement table: [database_clock 0] is the
    value that the [updatedAt] column gets at the next write.  A row of
    [requirements] is the entity that a read of the table returns. *)
Record World : Type := {
  requirements : gmap string Requirement;
  audit_logs : list AuditLog;
  diagnostics : list LogLine;
  requirement_faults : list bool;
  audit_faults : list bool;
  audit_generated : nat -> string * Z;
  upstream : Upstream;
  database_clock : nat -> Z
}.

Definition set_requirements (f : gmap string Requirement -> gmap string Requirement)
    (w : World) : World :=
  {| requirements := f (requirements w); audit_logs := audit_logs w;
     diagnostics := diagnostics w; requirement_faults := requirement_faults w;
     audit_faults := audit_faults w; audit_generated := audit_generated w;
     upstream := upstream w; database_clock := database_clock w |}.

Definition set_audit_logs (f : list AuditLog -> list AuditLog) (w : World) : World :=
  {| requirements := requirements w; audit_logs := f (audit_logs w);
     diagnostics := diagnostics w; requirement_faults := requirement_faults w;
     audit_faults := audit_faults w; audit_generated := audit_generated w;
     upstream := upstream w; database_clock := database_clock w |}.

Definition set_diagnostics (f : list LogLine -> list LogLine) (w : World) : World :=
  {| requirements := requirements w; audit_logs := audit_logs w;
     diagnostics := f (diagnostics w); requirement_faults := requirement_faults w;
     audit_faults := audit_faults w; audit_generated := audit_generated w;
     upstream := upstream w; database_clock := database_clock w |}.

Definition set_requirement_faults (f : list bool -> list bool) (w : World) : World :=
  {| requirements := requirements w; audit_logs := audit_logs w;
     diagnostics := diagnostics w; requirement_faults := f (requirement_faults w);
     audit_faults := audit_faults w; audit_generated := audit_generated w;
     upstream := upstream w; database_clock := database_clock w |}.

Definition set_audit_faults (f : list bool -> list bool) (w : World) : World :=
  {| requirements := requirements w; audit_logs := audit_logs w;
     diagnostics := diagnostics w; requirement_faults := requirement_faults w;
     audit_faults := f (audit_faults w); audit_generated := audit_generated w;
     upstream := upstream w; database_clock := database_clock w |}.

Definition set_upstream (u : Upstream) (w : World) : World :=
  {| requirements := requirements w; audit_logs := audit_logs w;
     diagnostics := diagnostics w; requirement_faults := requirement_faults w;
     audit_faults := audit_faults w; audit_generated := audit_generated w;
     upstream := u; database_clock := database_clock w |}.

Definition set_database_clock (f : (nat -> Z) -> nat -> Z) (w : World) : World :=
  {| requirements := requirements w; audit_logs := audit_logs w;
     diagnostics := diagnostics w; requirement_faults := requirement_faults w;
     audit_faults := audit_faults w; audit_generated := audit_generated w;
     upstream := upstream w; database_clock := f (database_clock w) |}.

(** ** The effect monad: state passing with exceptions *)

Definition Eff (A : Type) : Type := World -> Completion A * World.

Definition ret {A} (a : A) : Eff A := fun w => (Normal a, w).

Definition throw {A} (e : Exception) : Eff A := fun w => (Thrown e, w).

Definition bind {A B} (m : Eff A) (k : A -> Eff B) : Eff B :=
  fun w =>
    match m w with
    | (Normal a, w') => k a w'
    | (Thrown e, w') => (Thrown e, w')
    end.

(** [try { body } catch (error) { handler }] *)
Definition try_catch {A} (body : Eff A) (handler : Exception -> Eff A) : Eff A :=
  fun w =>
    match body w with
    | (Normal a, w') => (Normal a, w')
    | (Thrown e, w') => handler e w'
    end.

Notation "'do' x <- m ; k" := (bind m (fun x => k))
  (at level 10, x name, m at level 100, k at level 200).
Notation "'run' m ; k" := (bind m (fun _ => k))
  (at level 10, m at level 100, k at level 200).

Definition get_world : Eff World := fun w => (Normal w, w).
Definition modify (f : World -> World) : Eff unit := fun w => (Normal tt, f w).

(** Sequential [for]/[map] with [await] inside. *)
Fixpoint map_eff {A B} (f : A -> Eff B) (xs : list A) : Eff (list B) :=
  match xs with
  | [] => ret []
  | x :: rest => do y <- f x; do ys <- map_eff f rest; ret (y :: ys)
  end.

(** ** The winston logger *)

(** Modelled from the spec: [utils/logger] ([WinstonLogger]) is not among
    the sources.  The spec describes a diagnostic stream that receives the
    lines of the program; a logging call therefore appends its line to
    [diagnostics] and does not throw.  Only the level and the message of a
    line are kept, not its metadata object. *)
Definition logger_log (l : Level) (msg : string) : Eff unit :=
  modify (set_diagnostics (fun d => (d ++ [{| level := l; message := msg |}])%list)).
Definition logger_error := logger_log LError.
Definition logger_warn := logger_log LWarn.
Definition logger_info := logger_log LInfo.

(** ** What the ORM does to a requirement on a write *)

Module Orm.

(** The [simple-array] column type: an array is written as its elements
    joined by commas ([DateUtils.simpleArrayToString]). *)
Definition simple_array_write (ids : list string) : string := Js.join "," ids.

(** The text of a [simple-array] column is read as its pieces between the
    commas, the empty text as the empty array
    ([DateUtils.stringToSimpleArray]). *)
Definition simple_array_read (text : string) : list string :=
  match text with
  | EmptyString => []
  | _ => Js.split ","%char text
  end.

(** An array once written and read back. *)
Definition round_trip (ids : list string) : list string :=
  simple_array_read (simple_array_write ids).

(** The entity that a read returns after [r] was written: the five list
    columns have gone through the codec ([NULL] stays [NULL]), the other
    columns are as written. *)
Definition stored (r : Requirement) : Requirement :=
  {| id := id r;
     title := title r;
     description := description r;
     priority := priority r;
     status := status r;
     userStoryIds := round_trip <$> userStoryIds r;
     taskIds := round_trip <$> taskIds r;
     testCaseIds := round_trip <$> testCaseIds r;
     codeCommitIds := round_trip <$> codeCommitIds r;
     deploymentIds := round_trip <$> deploymentIds r;
     hasFailedTests := hasFailedTests r;
     hasDeploymentRollback := hasDeploymentRollback r;
     createdBy := createdBy r;
     updatedBy := updatedBy r;
     createdAt := createdAt r;
     updatedAt := updatedAt r |}.

(** The entity with the [updatedAt] that the write gave it. *)
Definition refreshed (now : Z) (r : Requirement) : Requirement :=
  {| id := id r;
     title := title r;
     description := description r;
     priority := priority r;
     status := status r;
     userStoryIds := userStoryIds r;
     taskIds := taskIds r;
     testCaseIds := testCaseIds r;
     codeCommitIds := codeCommitIds r;
     deploymentIds := deploymentIds r;
     hasFailedTests := hasFailedTests r;
     hasDeploymentRollback := hasDeploymentRollback r;
     createdBy := createdBy r;
     updatedBy := updatedBy r;
     createdAt := createdAt r;
     updatedAt := now |}.

End Orm.

(** ** Repositories *)

(** Take the next scripted outcome of the audit repository. *)
Definition audit_repo_op : Eff unit :=
  fun w =>
    match audit_faults w with
    | true :: rest => (Thrown (QueryFailed "audit_logs"), set_audit_faults (fun _ => rest) w)
    | false :: rest => (Normal tt, set_audit_faults (fun _ => rest) w)
    | [] => (Normal tt, w)
    end.

Definition requirement_repo_op : Eff unit :=
  fun w =>
    match requirement_faults w with
    | true :: rest =>
        (Thrown (QueryFailed "requirements"), set_requirement_faults (fun _ => rest) w)
    | false :: rest => (Normal tt, set_requirement_faults (fun _ => rest) w)
    | [] => (Normal tt, w)
    end.

(** [getRepository(AuditLog).save(draft)] *)
Definition auditRepo_save (d : AuditDraft) : Eff unit :=
  run audit_repo_op;
  modify (fun w =>
    let g := audit_generated w (length (audit_logs w)) in
    set_audit_logs (fun rows => (rows ++
      [{| log_id := fst g; log_action := draft_action d;
          log_username := draft_username d; log_role := draft_role d;
          log_details := draft_details d; log_ip := draft_ip d;
          log_timestamp := snd g |}])%list) w).

(** Insertion of one row in a list ordered by descending timestamp, after
    the rows that are at least as recent. *)
Fixpoint insert_desc (x : AuditLog) (sorted : list AuditLog) : list AuditLog :=
  match sorted with
  | [] => [x]
  | y :: rest =>
      if log_timestamp y <? log_timestamp x then x :: y :: rest
      else y :: insert_desc x rest
  end.

Definition order_by_timestamp_desc (rows : list AuditLog) : list AuditLog :=
  foldr insert_desc [] rows.

(** [getRepository(AuditLog).find({ order: { timestamp: 'DESC' } })] *)
Definition auditRepo_find_desc : Eff (list AuditLog) :=
  run audit_repo_op;
  do w <- get_world;
  ret (order_by_timestamp_desc (audit_logs w)).

(** [getRepository(Requirement).find()] *)
Definition requirementRepo_find : Eff (list Requirement) :=
  run requirement_repo_op;
  do w <- get_world;
  ret ((map_to_list (requirements w)).*2).

(** [getRepository(Requirement).findOne({ where: { id } })] *)
Definition requirementRepo_findOne (key : string) : Eff (option Requirement) :=
  run requirement_repo_op;
  do w <- get_world;
  ret (requirements w !! key).

(** [getRepository(Requirement).save(r)] for an entity that was loaded:
    the ORM writes the row with primary key [id r].  The [updatedAt] column
    is an [@UpdateDateColumn]: the write sets it to the timestamp of the
    database, and the ORM puts that value in the entity, which [save]
    returns.  The five list columns are written through the [simple-array]
    codec, so the row that the table holds afterwards is [Orm.stored r]:
    what a later read returns.  The arrays of the entity in memory stay as
    the route left them. *)
Definition requirementRepo_save (r : Requirement) : Eff Requirement :=
  run requirement_repo_op;
  do w <- get_world;
  let entity := Orm.refreshed (database_clock w 0%nat) r in
  run modify (fun w =>
        set_database_clock (fun clock n => clock (S n))
          (set_requirements (fun m => <[id r := Orm.stored entity]> m) w));
  ret entity.

(** ** Requests and responses *)

(** The falsy JSON values, [undefined] standing for an absent property:
    what makes [if (field)] skip a field. *)
Inductive Falsy : Type := Absent | IsNull | IsFalse | IsZero | IsEmptyString.

(** A field of the body of the link route, by what the route does with it.
    [Skipped]: a falsy value, the [if] does not run.  [Ids]: an array of
    strings.  [Text]: a string that is not empty, given by its characters;
    the spread takes it apart in its characters.  [NotIterable]: any other
    value that is not falsy (a number, [true], an object): the spread
    throws.  An array with an element that is not a string is not among
    these: the entity declares [string[]] and an identifier is a string
    throughout. *)
Inductive LinkField : Type :=
| Skipped (v : Falsy)
| Ids (ids : list string)
| Text (first : string) (others : list string)
| NotIterable.

(** The JSON value of a field, as [JSON.stringify] sees it in the details
    of the audit row, which the route builds once every spread is done. *)
Definition raw_value (field : LinkField) : Js.Value :=
  match field with
  | Skipped Absent => Js.Undefined
  | Skipped IsNull => Js.Null
  | Skipped IsFalse => Js.Bool false
  | Skipped IsZero => Js.Num "0"
  | Skipped IsEmptyString => Js.Str EmptyString
  | Ids ids => Js.Arr (Js.Str <$> ids)
  | Text first others => Js.Str (String.concat EmptyString (first :: others))
  | NotIterable => Js.Undefined
  end.

(** [...field] when the [if] runs and the value is iterable. *)
Definition spread (field : LinkField) : option (list string) :=
  match field with
  | Ids ids => Some ids
  | Text first others => Some (first :: others)
  | Skipped _ | NotIterable => None
  end.

(** The JSON body of a request, destructured as the routes do: the five
    fields of the link route and the two flags of the flags route (any
    JSON value). *)
Record Body : Type := {
  body_userStoryIds : LinkField;
  body_taskIds : LinkField;
  body_testCaseIds : LinkField;
  body_codeCommitIds : LinkField;
  body_deploymentIds : LinkField;
  body_hasFailedTests : Js.Value;
  body_hasDeploymentRollback : Js.Value
}.

(** The first field, in the order of the route, that makes its spread
    throw. *)
Definition first_not_iterable (b : Body) : option string :=
  match body_userStoryIds b, body_taskIds b, body_testCaseIds b,
        body_codeCommitIds b, body_deploymentIds b with
  | NotIterable, _, _, _, _ => Some "userStoryIds"
  | _, NotIterable, _, _, _ => Some "taskIds"
  | _, _, NotIterable, _, _ => Some "testCaseIds"
  | _, _, _, NotIterable, _ => Some "codeCommitIds"
  | _, _, _, _, NotIterable => Some "deploymentIds"
  | _, _, _, _, _ => None
  end.

(** [req.user] is what Passport attached, [req.isAuthenticated()] holds
    exactly when it is present; [req_params_id] is [req.params.id]. *)
Record Request : Type := {
  req_user : option User;
  req_ip : string;
  req_originalUrl : string;
  req_params_id : string;
  req_body : Body
}.

Definition isAuthenticated (req : Request) : bool :=
  bool_decide (is_Some (req_user req)).

(** ** [AuditLogService] *)

Module AuditLogService.

(** [v ? a : b] on a JSON value *)
Definition truthy (v : Js.Value) : bool :=
  match v with
  | Js.Undefined | Js.Null | Js.Bool false => false
  | Js.Num text => negb (bool_decide (text = "0"))
  | Js.Str s => negb (bool_decide (s = ""))
  | _ => true
  end.

Definition details_column (details : Js.Value) : option string :=
  if truthy details then Some (Js.stringify details) else None.

Definition logAccess (user : option User) (action : string)
    (details : Js.Value) (req : option Request) : Eff unit :=
  try_catch
    (run auditRepo_save
       {| draft_action := action;
          draft_username := username <$> user;
          draft_role := role <$> user;
          draft_details := details_column details;
          draft_ip := req_ip <$> req |};
     logger_info ("AuditLog: Access - " ++ action))
    (fun error => logger_error "AuditLogService.logAccess error:").

Definition logModification (user : option User) (action : string)
    (details : Js.Value) (req : option Request) : Eff unit :=
  try_catch
    (run auditRepo_save
       {| draft_action := action;
          draft_username := username <$> user;
          draft_role := role <$> user;
          draft_details := details_column details;
          draft_ip := req_ip <$> req |};
     logger_info ("AuditLog: Modification - " ++ action))
    (fun error => logger_error "AuditLogService.logModification error:").

Definition logUnauthorizedAccess (ip url : string)
    (user_name user_role : option string) : Eff unit :=
  try_catch
    (run auditRepo_save
       {| draft_action := "UNAUTHORIZED_ACCESS";
          draft_username := user_name;
          draft_role := user_role;
          draft_details := Some (Js.stringify (Js.Obj [("url", Js.Str url)]));
          draft_ip := Some ip |};
     logger_warn "AuditLog: Unauthorized access attempt")
    (fun error => logger_error "AuditLogService.logUnauthorizedAccess error:").

Inductive Format : Type := json | csv.

(** A field of a CSV row: the text between two double quotes. *)
Definition quoted (text : string) : string := Js.dq ++ text ++ Js.dq.

(** The seven fields of a row before they are quoted; [None] when
    [timestamp.toISOString()] throws. *)
Definition csv_fields (log : AuditLog) : option (list string) :=
  iso ← Js.toISOString (log_timestamp log);
  Some [ log_id log;
         log_action log;
         Js.str_or (log_username log) "";
         Js.str_or (log_role log) "";
         Js.double_quotes (Js.str_or (log_details log) "");
         Js.str_or (log_ip log) "";
         iso ].

Definition csv_row (log : AuditLog) : option string :=
  fields ← csv_fields log;
  Some (Js.join "," (quoted <$> fields)).

Definition csv_header : string := "id,action,username,role,details,ip,timestamp".

Definition nullable (x : option string) : Js.Value :=
  match x with Some s => Js.Str s | None => Js.Null end.

(** The entity as [JSON.stringify] sees it; a [Date] serialises through
    [toJSON], which gives [null] for an invalid date. *)
Definition log_to_json (log : AuditLog) : Js.Value :=
  Js.Obj [ ("id", Js.Str (log_id log));
           ("action", Js.Str (log_action log));
           ("username", nullable (log_username log));
           ("role", nullable (log_role log));
           ("details", nullable (log_details log));
           ("ip", nullable (log_ip log));
           ("timestamp", nullable (Js.toISOString (log_timestamp log))) ].

Definition exportLogs (format : Format) : Eff string :=
  try_catch
    (do logs <- auditRepo_find_desc;
     match format with
     | csv =>
         match mapM csv_row logs with
         | Some rows => ret (Js.join Js.nl (csv_header :: rows))
         | None => throw (RangeError "Invalid time value")
         end
     | json => ret (Js.stringify_pretty "  " (Js.Arr (log_to_json <$> logs)))
     end)
    (fun error => run logger_error "AuditLogService.exportLogs error:"; ret "").

End AuditLogService.

(** ** [IntegrationService] *)

(** The normalized records that the service returns. *)
Record Issue : Type := {
  issue_norm_id : option string;
  issue_norm_key : option string;
  issue_norm_summary : option string;
  issue_norm_status : option string;
  issue_norm_assignee : option string;
  issue_norm_url : string
}.

Record TestCase : Type := {
  tc_id : string;
  tc_name : string;
  tc_status : string;
  tc_url : string
}.

Record Commit : Type := {
  commit_sha : option string;
  commit_author_name : option string;
  commit_msg : option string;
  commit_date : option string;
  commit_url : option string
}.

Record Deployment : Type := {
  dep_id : string;
  dep_status : option string;
  dep_timestamp : option Z;
  dep_url : string
}.

Record TestResult : Type := {
  tr_id : string;
  tr_status : string;
  tr_executedAt : string
}.

Module IntegrationService.

Definition env (name : string) : Eff (option string) :=
  do w <- get_world; ret (process_env (upstream w) name).

(** [await this.jiraClient.get(`/issue/${id}`)] and [res.data] *)
Definition jiraClient_get (key : string) : Eff JiraIssue :=
  do w <- get_world;
  match jira_get_issue (upstream w) key with
  | Some data => ret data
  | None => throw (RequestFailed ("/issue/" ++ key))
  end.

(** [await this.githubClient.get(`/repos/${owner}/${repo}/commits/${hash}`)] *)
Definition githubClient_get (owner repo : option string) (hash : string)
    : Eff GithubCommit :=
  do w <- get_world;
  match github_get_commit (upstream w) hash with
  | Some data => ret data
  | None =>
      throw (RequestFailed ("/repos/" ++ Js.interpolate owner ++ "/"
                              ++ Js.interpolate repo ++ "/commits/" ++ hash))
  end.

(** [await this.jenkinsClient.get(`/job/${jobName}/${id}/api/json`)] *)
Definition jenkinsClient_get (job : option string) (key : string) : Eff JenkinsBuild :=
  do w <- get_world;
  match jenkins_get_build (upstream w) key with
  | Some data => ret data
  | None =>
      throw (RequestFailed ("/job/" ++ Js.interpolate job ++ "/" ++ key ++ "/api/json"))
  end.

(** The body of the [ids.map] callback of [getUserStories] and [getTasks]:
    reading [res.data.fields.summary] throws when [fields] is absent. *)
Definition fetch_issue (key : string) : Eff Issue :=
  do data <- jiraClient_get key;
  match issue_fields data with
  | None => throw (TypeError "Cannot read properties of undefined (reading 'summary')")
  | Some fields =>
      do base <- env "JIRA_BASE_URL";
      ret {| issue_norm_id := issue_id data;
             issue_norm_key := issue_key data;
             issue_norm_summary := summary fields;
             issue_norm_status := mjoin (status_name fields);
             issue_norm_assignee := mjoin (assignee_displayName fields);
             issue_norm_url :=
               Js.interpolate base ++ "/browse/" ++ Js.interpolate (issue_key data) |}
  end.

(** [Promise.all(ids.map(f))]: every element or the first rejection. *)
Definition promise_all {A B} (f : A -> Eff B) (xs : list A) : Eff (list B) :=
  map_eff f xs.

Definition getUserStories (ids : list string) : Eff (list Issue) :=
  try_catch
    (match ids with
     | [] => ret []
     | _ => promise_all fetch_issue ids
     end)
    (fun error => run logger_error "IntegrationService.getUserStories error:"; ret []).

Definition getTasks (ids : list string) : Eff (list Issue) :=
  try_catch
    (match ids with
     | [] => ret []
     | _ => promise_all fetch_issue ids
     end)
    (fun error => run logger_error "IntegrationService.getTasks error:"; ret []).

Definition getTestCases (ids : list string) : Eff (list TestCase) :=
  try_catch
    (match ids with
     | [] => ret []
     | _ =>
         ret ((fun key => {| tc_id := key; tc_name := "Test Case " ++ key;
                             tc_status := "unknown"; tc_url := "" |}) <$> ids)
     end)
    (fun error => run logger_error "IntegrationService.getTestCases error:"; ret []).

Definition fetch_commit (hash : string) : Eff Commit :=
  do repo <- env "GITHUB_REPO";
  do owner <- env "GITHUB_OWNER";
  do data <- githubClient_get owner repo hash;
  match gh_commit data with
  | None => throw (TypeError "Cannot read properties of undefined (reading 'author')")
  | Some c =>
      match commit_author c with
      | None => throw (TypeError "Cannot read properties of undefined (reading 'name')")
      | Some a =>
          ret {| commit_sha := gh_sha data;
                 commit_author_name := author_name a;
                 commit_msg := commit_message c;
                 commit_date := author_date a;
                 commit_url := gh_html_url data |}
      end
  end.

Definition getCodeCommits (hashes : list string) : Eff (list Commit) :=
  try_catch
    (match hashes with
     | [] => ret []
     | _ => promise_all fetch_commit hashes
     end)
    (fun error => run logger_error "IntegrationService.getCodeCommits error:"; ret []).

Definition build_url (base job : option string) (key : string) : string :=
  Js.interpolate base ++ "/job/" ++ Js.interpolate job ++ "/" ++ key ++ "/".

Definition fetch_deployment (key : string) : Eff Deployment :=
  do job <- env "JENKINS_JOB_NAME";
  do data <- jenkinsClient_get job key;
  do base <- env "JENKINS_BASE_URL";
  ret {| dep_id := key;
         dep_status := build_result data;
         dep_timestamp := build_timestamp data;
         dep_url := build_url base job key |}.

Definition getDeployments (ids : list string) : Eff (list Deployment) :=
  try_catch
    (match ids with
     | [] => ret []
     | _ => promise_all fetch_deployment ids
     end)
    (fun error => run logger_error "IntegrationService.getDeployments error:"; ret []).

(** [ids.map((id) => ...)] with the position of each element, which
    selects its random draw. *)
Definition getTestResults (ids : list string) : Eff (list TestResult) :=
  try_catch
    (match ids with
     | [] => ret []
     | _ =>
         do w <- get_world;
         ret (imap (fun i key =>
                {| tr_id := key;
                   tr_status :=
                     if math_random_gt_08 (upstream w) i then "failed" else "passed";
                   tr_executedAt := now_iso (upstream w) |}) ids)
     end)
    (fun error => run logger_error "IntegrationService.getTestResults error:"; ret []).

(** [res.data.result === 'FAILURE' ? 'rollback' : res.data.result] *)
Definition normalize_result (result : option string) : option string :=
  if bool_decide (result = Some "FAILURE") then Some "rollback" else result.

Definition fetch_deployment_status (key : string) : Eff Deployment :=
  do job <- env "JENKINS_JOB_NAME";
  do data <- jenkinsClient_get job key;
  do base <- env "JENKINS_BASE_URL";
  ret {| dep_id := key;
         dep_status := normalize_result (build_result data);
         dep_timestamp := build_timestamp data;
         dep_url := build_url base job key |}.

Definition getDeploymentStatus (ids : list string) : Eff (list Deployment) :=
  try_catch
    (match ids with
     | [] => ret []
     | _ => promise_all fetch_deployment_status ids
     end)
    (fun error => run logger_error "IntegrationService.getDeploymentStatus error:"; ret []).

End IntegrationService.

(** ** Responses *)

(** [{ ...reqmt, userStories, tasks, testCases, codeCommits, deployments }] *)
Record EnrichedRequirement : Type := {
  base : Requirement;
  userStories : list Issue;
  tasks : list Issue;
  testCases : list TestCase;
  codeCommits : list Commit;
  deployments : list Deployment
}.

(** One element of the report. *)
Record ReportRow : Type := {
  row_id : string;
  row_title : string;
  row_status : string;
  row_hasFailedTests : bool;
  row_hasDeploymentRollback : bool;
  row_testResults : list TestResult;
  row_deploymentStatus : list Deployment
}.

Inductive ResponseBody : Type :=
| ErrorBody (error : string)
| MatrixBody (matrix : list EnrichedRequirement)
| RequirementBody (requirement : EnrichedRequirement)
| MessageBody (msg : string) (requirement : Requirement)
| ReportBody (report : list ReportRow).

Record Response : Type := {
  res_status : Z;
  res_body : ResponseBody
}.

(** What a middleware or a route handler does with a request: hand it to
    the next handler ([next()]), hand an error to the error handler
    ([next(error)]), or send a response. *)
Inductive Outcome : Type :=
| Next
| NextError (e : Exception)
| Send (r : Response).

Definition json_response (code : Z) (b : ResponseBody) : Outcome :=
  Send {| res_status := code; res_body := b |}.

(** ** [middleware/auth.middleware.ts] *)

Inductive UserRole : Type :=
| ADMIN | COMPLIANCE | STAKEHOLDER | DEVELOPER | TESTER | VIEWER.

(** The string value of each member of the enum. *)
Definition role_value (r : UserRole) : string :=
  match r with
  | ADMIN => "admin"
  | COMPLIANCE => "compliance"
  | STAKEHOLDER => "stakeholder"
  | DEVELOPER => "developer"
  | TESTER => "tester"
  | VIEWER => "viewer"
  end.

Definition all_roles : list UserRole :=
  [ADMIN; COMPLIANCE; STAKEHOLDER; DEVELOPER; TESTER; VIEWER].

(** The own properties of the object literal [rolePermissions], in source
    order. *)
Definition rolePermissions : list (string * list string) :=
  [ (role_value ADMIN, ["*"]);
    (role_value COMPLIANCE, ["view"; "export"; "audit"]);
    (role_value STAKEHOLDER, ["view"; "report"]);
    (role_value DEVELOPER, ["view"; "link"; "report"]);
    (role_value TESTER, ["view"; "report"; "flag"]);
    (role_value VIEWER, ["view"]) ].

(** [rolePermissions] is an ordinary object, so a property read that finds
    no own property goes on to [Object.prototype].  These are the names
    defined there; each holds a function, or for [__proto__] the prototype
    object itself: a truthy value that has no [includes] method. *)
Definition Object_prototype_names : list string :=
  [ "constructor"; "hasOwnProperty"; "isPrototypeOf"; "propertyIsEnumerable";
    "toLocaleString"; "toString"; "valueOf"; "__proto__";
    "__defineGetter__"; "__defineSetter__"; "__lookupGetter__";
    "__lookupSetter__" ].

(** The result of the property read [rolePermissions[key]]. *)
Inductive Property : Type :=
| OwnArray (perms : list string)
| Inherited (name : string)
| Missing.

Fixpoint own_property (key : string) (props : list (string * list string))
    : option (list string) :=
  match props with
  | [] => None
  | (k, v) :: rest => if bool_decide (k = key) then Some v else own_property key rest
  end.

Definition rolePermissions_get (key : string) : Property :=
  match own_property key rolePermissions with
  | Some perms => OwnArray perms
  | None =>
      if bool_decide (key ∈ Object_prototype_names) then Inherited key else Missing
  end.

(** [perms.includes(p)] *)
Definition includes (perms : list string) (p : string) : bool :=
  bool_decide (p ∈ perms).

(** [ensureAuthenticated(req, res, next)]; the audit call is not awaited
    and cannot reject. *)
Definition ensureAuthenticated (req : Request) : Eff Outcome :=
  if isAuthenticated req then ret Next
  else
    run logger_warn "Unauthorized access attempt";
    run AuditLogService.logUnauthorizedAccess (req_ip req) (req_originalUrl req) None None;
    ret (json_response 401 (ErrorBody "Unauthorized")).

(** [authorize(requiredPermissions)(req, res, next)] *)
Definition authorize (requiredPermissions : list string) (req : Request) : Eff Outcome :=
  try_catch
    (match req_user req with
     | None =>
         run logger_warn "Access denied: No user in request";
         run AuditLogService.logUnauthorizedAccess (req_ip req) (req_originalUrl req)
               None None;
         ret (json_response 401 (ErrorBody "Unauthorized"))
     | Some user =>
         (* const permissions = rolePermissions[user.role] || []; *)
         do permissions <-
           match rolePermissions_get (role user) with
           | OwnArray perms => ret perms
           | Missing => ret []
           | Inherited name =>
               (* permissions.includes is undefined on such a value *)
               throw (TypeError "permissions.includes is not a function")
           end;
         if includes permissions "*" then ret Next
         else if forallb (includes permissions) requiredPermissions then ret Next
         else
           run logger_warn "Access denied: Insufficient permissions";
           run AuditLogService.logUnauthorizedAccess (req_ip req) (req_originalUrl req)
                 (Some (username user)) (Some (role user));
           ret (json_response 403 (ErrorBody "Forbidden: Insufficient permissions"))
     end)
    (fun error =>
       run logger_error "RBAC middleware error:";
       ret (json_response 500 (ErrorBody "Internal server error"))).

(** [authMiddleware]: authentication only; its continuation calls [next()]
    for every authenticated user. *)
Definition authMiddleware (req : Request) : Eff Outcome :=
  ensureAuthenticated req.

(** [app.use(path, m, router)]: the router's handler runs when [m] called
    [next()]. *)
Definition use (m handler : Request -> Eff Outcome) (req : Request) : Eff Outcome :=
  do o <- m req;
  match o with
  | Next => handler req
  | other => ret other
  end.

(** ** [routes/traceability.routes.ts] *)

Module traceabilityRouter.

(** [ids?.length ? await fetch(ids) : []] *)
Definition when_nonempty {A} (ids : option (list string))
    (fetch : list string -> Eff (list A)) : Eff (list A) :=
  match ids with
  | None | Some [] => ret []
  | Some l => fetch l
  end.

(** The callback of [requirements.map] in the matrix route, also the body
    of the single-requirement route. *)
Definition enrich (reqmt : Requirement) : Eff EnrichedRequirement :=
  do stories <- when_nonempty (userStoryIds reqmt) IntegrationService.getUserStories;
  do tsks <- when_nonempty (taskIds reqmt) IntegrationService.getTasks;
  do cases <- when_nonempty (testCaseIds reqmt) IntegrationService.getTestCases;
  do commits <- when_nonempty (codeCommitIds reqmt) IntegrationService.getCodeCommits;
  do deps <- when_nonempty (deploymentIds reqmt) IntegrationService.getDeployments;
  ret {| base := reqmt; userStories := stories; tasks := tsks; testCases := cases;
         codeCommits := commits; deployments := deps |}.

(** [GET /matrix] *)
Definition get_matrix (req : Request) : Eff Outcome :=
  try_catch
    (do reqs <- requirementRepo_find;
     do enrichedRequirements <- map_eff enrich reqs;
     run AuditLogService.logAccess (req_user req) "GET_TRACEABILITY_MATRIX"
           (Js.Obj [("count", Js.Num (pretty (Z.of_nat (length reqs))))]) None;
     ret (json_response 200 (MatrixBody enrichedRequirements)))
    (fun error =>
       run logger_error "Error fetching traceability matrix:";
       ret (NextError error)).

(** [GET /requirement/:id] *)
Definition get_requirement (req : Request) : Eff Outcome :=
  try_catch
    (do found <- requirementRepo_findOne (req_params_id req);
     match found with
     | None =>
         run AuditLogService.logAccess (req_user req)
               "GET_REQUIREMENT_TRACEABILITY_NOT_FOUND"
               (Js.Obj [("id", Js.Str (req_params_id req))]) None;
         ret (json_response 404 (ErrorBody "Requirement not found"))
     | Some requirement =>
         do enriched <- enrich requirement;
         run AuditLogService.logAccess (req_user req) "GET_REQUIREMENT_TRACEABILITY"
               (Js.Obj [("id", Js.Str (req_params_id req))]) None;
         ret (json_response 200 (RequirementBody enriched))
     end)
    (fun error =>
       run logger_error "Error fetching requirement traceability:";
       ret (NextError error)).

(** [Array.from(new Set([...(existing || []), ...submitted]))] when the
    [if] runs on [submitted], the loaded value otherwise. *)
Definition merge_ids (existing submitted : option (list string)) : option (list string) :=
  match submitted with
  | Some ids => Some (Js.array_from_set (default [] existing ++ ids))
  | None => existing
  end.

(** The assignments of the link route to the loaded entity, for a body
    none of whose spreads throws. *)
Definition link_into (requirement : Requirement) (b : Body) (user : option User)
    : Requirement :=
  {| id := id requirement;
     title := title requirement;
     description := description requirement;
     priority := priority requirement;
     status := status requirement;
     userStoryIds := merge_ids (userStoryIds requirement) (spread (body_userStoryIds b));
     taskIds := merge_ids (taskIds requirement) (spread (body_taskIds b));
     testCaseIds := merge_ids (testCaseIds requirement) (spread (body_testCaseIds b));
     codeCommitIds := merge_ids (codeCommitIds requirement) (spread (body_codeCommitIds b));
     deploymentIds := merge_ids (deploymentIds requirement) (spread (body_deploymentIds b));
     hasFailedTests := hasFailedTests requirement;
     hasDeploymentRollback := hasDeploymentRollback requirement;
     createdBy := createdBy requirement;
     updatedBy := Some (Js.str_or (username <$> user) "system");
     createdAt := createdAt requirement;
     updatedAt := updatedAt requirement |}.

(** The five [if]s of the route: the first spread of a value that is not
    iterable throws, before anything is saved. *)
Definition assign_links (requirement : Requirement) (b : Body) (user : option User)
    : Eff Requirement :=
  match first_not_iterable b with
  | Some name => throw (TypeError (name ++ " is not iterable"))
  | None => ret (link_into requirement b user)
  end.

(** [POST /requirement/:id/link] *)
Definition post_requirement_link (req : Request) : Eff Outcome :=
  try_catch
    (let b := req_body req in
     do found <- requirementRepo_findOne (req_params_id req);
     match found with
     | None =>
         run AuditLogService.logModification (req_user req)
               "LINK_ARTIFACTS_REQUIREMENT_NOT_FOUND"
               (Js.Obj [("id", Js.Str (req_params_id req))]) None;
         ret (json_response 404 (ErrorBody "Requirement not found"))
     | Some loaded =>
         do requirement <- assign_links loaded b (req_user req);
         do requirement <- requirementRepo_save requirement;
         run AuditLogService.logModification (req_user req)
               "LINK_ARTIFACTS_TO_REQUIREMENT"
               (Js.Obj [ ("id", Js.Str (req_params_id req));
                         ("userStoryIds", raw_value (body_userStoryIds b));
                         ("taskIds", raw_value (body_taskIds b));
                         ("testCaseIds", raw_value (body_testCaseIds b));
                         ("codeCommitIds", raw_value (body_codeCommitIds b));
                         ("deploymentIds", raw_value (body_deploymentIds b)) ]) None;
         ret (json_response 200 (MessageBody "Artifacts linked successfully" requirement))
     end)
    (fun error =>
       run logger_error "Error linking artifacts to requirement:";
       ret (NextError error)).

(** The callback of [requirements.map] in the report route. *)
Definition report_row (reqmt : Requirement) : Eff ReportRow :=
  do testResults <- when_nonempty (testCaseIds reqmt) IntegrationService.getTestResults;
  do deploymentStatus <-
    when_nonempty (deploymentIds reqmt) IntegrationService.getDeploymentStatus;
  ret {| row_id := id reqmt;
         row_title := title reqmt;
         row_status := status reqmt;
         row_hasFailedTests :=
           hasFailedTests reqmt
           || existsb (fun tr => bool_decide (tr_status tr = "failed")) testResults;
         row_hasDeploymentRollback :=
           hasDeploymentRollback reqmt
           || existsb (fun ds => bool_decide (dep_status ds = Some "rollback"))
                deploymentStatus;
         row_testResults := testResults;
         row_deploymentStatus := deploymentStatus |}.

(** [GET /report] *)
Definition get_report (req : Request) : Eff Outcome :=
  try_catch
    (do reqs <- requirementRepo_find;
     do report <- map_eff report_row reqs;
     run AuditLogService.logAccess (req_user req) "GET_TRACEABILITY_REPORT"
           (Js.Obj [("count", Js.Num (pretty (Z.of_nat (length reqs))))]) None;
     ret (json_response 200 (ReportBody report)))
    (fun error =>
       run logger_error "Error generating traceability report:";
       ret (NextError error)).

(** The assignments of the flags route to the loaded entity: a flag is
    written only when [typeof] the submitted value is ['boolean']. *)
Definition flags_into (requirement : Requirement) (b : Body) (user : option User)
    : Requirement :=
  {| id := id requirement;
     title := title requirement;
     description := description requirement;
     priority := priority requirement;
     status := status requirement;
     userStoryIds := userStoryIds requirement;
     taskIds := taskIds requirement;
     testCaseIds := testCaseIds requirement;
     codeCommitIds := codeCommitIds requirement;
     deploymentIds := deploymentIds requirement;
     hasFailedTests :=
       default (hasFailedTests requirement) (Js.is_boolean (body_hasFailedTests b));
     hasDeploymentRollback :=
       default (hasDeploymentRollback requirement)
         (Js.is_boolean (body_hasDeploymentRollback b));
     createdBy := createdBy requirement;
     updatedBy := Some (Js.str_or (username <$> user) "system");
     createdAt := createdAt requirement;
     updatedAt := updatedAt requirement |}.

(** [PATCH /requirement/:id/flags] *)
Definition patch_requirement_flags (req : Request) : Eff Outcome :=
  try_catch
    (let b := req_body req in
     do found <- requirementRepo_findOne (req_params_id req);
     match found with
     | None =>
         run AuditLogService.logModification (req_user req)
               "UPDATE_FLAGS_REQUIREMENT_NOT_FOUND"
               (Js.Obj [("id", Js.Str (req_params_id req))]) None;
         ret (json_response 404 (ErrorBody "Requirement not found"))
     | Some loaded =>
         let requirement := flags_into loaded b (req_user req) in
         do requirement <- requirementRepo_save requirement;
         run AuditLogService.logModification (req_user req) "UPDATE_REQUIREMENT_FLAGS"
               (Js.Obj [ ("id", Js.Str (req_params_id req));
                         ("hasFailedTests", body_hasFailedTests b);
                         ("hasDeploymentRollback", body_hasDeploymentRollback b) ]) None;
         ret (json_response 200 (MessageBody "Flags updated successfully" requirement))
     end)
    (fun error =>
       run logger_error "Error updating requirement flags:";
       ret (NextError error)).

End traceabilityRouter.

(** ** [app.ts]: the router behind [authMiddleware] *)

(** [app.use('/api/traceability', authMiddleware, traceabilityRouter)].
    The global middlewares mounted before it (security headers, body
    parsing, session, request logging and [auditLogMiddleware], which is not
    among the sources) are left out. *)

Module app.

Definition link_route : Request -> Eff Outcome :=
  use authMiddleware traceabilityRouter.post_requirement_link.
Definition flags_route : Request -> Eff Outcome :=
  use authMiddleware traceabilityRouter.patch_requirement_flags.
Definition report_route : Request -> Eff Outcome :=
  use authMiddleware traceabilityRouter.get_report.
Definition matrix_route : Request -> Eff Outcome :=
  use authMiddleware traceabilityRouter.get_matrix.
Definition requirement_route : Request -> Eff Outcome :=
  use authMiddleware traceabilityRouter.get_requirement.

End app.

(** ** Reading CSV back *)

Module Csv.

(** The text of a quoted field, read from just after its opening quote:
    a doubled quote stands for one quote, a single quote ends the field.
    The result is the field and the rest of the input. *)
Fixpoint read_quoted_body (s : string) : option (string * string) :=
  match s with
  | EmptyString => None
  | String c rest =>
      if Ascii.eqb c Js.dquote then
        match rest with
        | String c' rest' =>
            if Ascii.eqb c' Js.dquote
            then prod_map (String Js.dquote) (fun x => x) <$> read_quoted_body rest'
            else Some (EmptyString, rest)
        | EmptyString => Some (EmptyString, EmptyString)
        end
      else prod_map (String c) (fun x => x) <$> read_quoted_body rest
  end.

Definition read_quoted (s : string) : option (string * string) :=
  match s with
  | String c rest => if Ascii.eqb c Js.dquote then read_quoted_body rest else None
  | EmptyString => None
  end.

(** A row of quoted fields separated by commas; [fuel] bounds the number
    of fields. *)
Fixpoint read_row (fuel : nat) (s : string) : option (list string) :=
  match fuel with
  | O => None
  | S fuel' =>
      match read_quoted s with
      | Some (field, EmptyString) => Some [field]
      | Some (field, String c rest) =>
          if Ascii.eqb c ","%char then (fun fs => field :: fs) <$> read_row fuel' rest
          else None
      | None => None
      end
  end.

Definition parse_row (s : string) : option (list string) :=
  read_row (S (String.length s)) s.

(** Whether the text has a double quote. *)
Fixpoint has_quote (s : string) : bool :=
  match s with
  | EmptyString => false
  | String c rest => Ascii.eqb c Js.dquote || has_quote rest
  end.

End Csv.

(** ** Vocabulary of the properties *)

(** [m] run in [w] completes normally, with a value and a final world that
    satisfy [Q]. *)
Definition returns {A} (m : Eff A) (w : World) (Q : A -> World -> Prop) : Prop :=
  exists a w', m w = (Normal a, w') /\ Q a w'.

(** No failure is scripted for the requirement repository. *)
Definition requirement_repo_up (w : World) : Prop :=
  Forall (fun fault => fault = false) (requirement_faults w).

(** No failure is scripted for the audit repository. *)
Definition audit_repo_up (w : World) : Prop :=
  Forall (fun fault => fault = false) (audit_faults w).

(** From [w] to [w'] only the audit table, the diagnostic stream and the
    script of audit faults may have changed, and the diagnostic stream
    only by new lines at its end. *)
Definition audit_only (w w' : World) : Prop :=
  requirements w' = requirements w /\
  requirement_faults w' = requirement_faults w /\
  upstream w' = upstream w /\
  audit_generated w' = audit_generated w /\
  database_clock w' = database_clock w /\
  diagnostics w `prefix_of` diagnostics w'.

(** From [w] to [w'] the requirement table and the upstream systems are
    the same, the requirement repository stays available if it was, and
    the diagnostic stream has only grown. *)
Definition quiet (w w' : World) : Prop :=
  requirements w' = requirements w /\
  upstream w' = upstream w /\
  (requirement_repo_up w -> requirement_repo_up w') /\
  diagnostics w `prefix_of` diagnostics w'.

(** Two worlds that differ at most in what audit recording touches. *)
Definition agree (w1 w2 : World) : Prop :=
  requirements w1 = requirements w2 /\
  requirement_faults w1 = requirement_faults w2 /\
  database_clock w1 = database_clock w2 /\
  upstream w1 = upstream w2.

(** [m] gives the same completion, and agreeing final worlds, from any two
    worlds that agree. *)
Definition unaffected {A} (m : Eff A) : Prop :=
  forall w1 w2, agree w1 w2 ->
    fst (m w1) = fst (m w2) /\ agree (snd (m w1)) (snd (m w2)).

(** The rows of the audit table with a given action. *)
Definition entries_with_action (action : string) (rows : list AuditLog) : list AuditLog :=
  filter (fun row => log_action row = action) rows.

(** Whether the next operation on the audit repository is scripted to
    throw. *)
Definition next_audit_op_fails (w : World) : bool :=
  match audit_faults w with
  | true :: _ => true
  | _ => false
  end.

(** [m] only reads the upstream systems: it leaves the world as it is and
    its completion is determined by [upstream w]. *)
Definition reads_upstream {A} (m : Eff A) : Prop :=
  (forall w, snd (m w) = w) /\
  (forall w1 w2, upstream w1 = upstream w2 -> fst (m w1) = fst (m w2)).

(** Whether one request of a fan-out can be normalized: the request is
    answered and the properties that the callback dereferences exist. *)
Definition issue_available (u : Upstream) (key : string) : bool :=
  match jira_get_issue u key with
  | Some data => bool_decide (is_Some (issue_fields data))
  | None => false
  end.

Definition commit_available (u : Upstream) (hash : string) : bool :=
  match github_get_commit u hash with
  | Some data =>
      match gh_commit data with
      | Some c => bool_decide (is_Some (commit_author c))
      | None => false
      end
  | None => false
  end.

Definition build_available (u : Upstream) (key : string) : bool :=
  bool_decide (is_Some (jenkins_get_build u key)).

(** An error line with the given message is in the diagnostic stream. *)
Definition error_logged (msg : string) (w : World) : Prop :=
  {| level := LError; message := msg |} ∈ diagnostics w.

(** The five kinds of artifact linked to a requirement. *)
Inductive ArtifactKind : Type :=
| UserStoryKind | TaskKind | TestCaseKind | CodeCommitKind | DeploymentKind.

(** A normalized artifact of any kind, to speak of the five lists of an
    enriched requirement uniformly. *)
Inductive Artifact : Type :=
| IssueArtifact (i : Issue)
| TestCaseArtifact (t : TestCase)
| CommitArtifact (c : Commit)
| DeploymentArtifact (d : Deployment).

(** The stored identifier list of one kind. *)
Definition identifiers (k : ArtifactKind) (r : Requirement) : option (list string) :=
  match k with
  | UserStoryKind => userStoryIds r
  | TaskKind => taskIds r
  | TestCaseKind => testCaseIds r
  | CodeCommitKind => codeCommitIds r
  | DeploymentKind => deploymentIds r
  end.

(** The field of the body for one kind, and the identifiers that the
    route takes from it. *)
Definition body_field (k : ArtifactKind) (b : Body) : LinkField :=
  match k with
  | UserStoryKind => body_userStoryIds b
  | TaskKind => body_taskIds b
  | TestCaseKind => body_testCaseIds b
  | CodeCommitKind => body_codeCommitIds b
  | DeploymentKind => body_deploymentIds b
  end.

Definition submitted (k : ArtifactKind) (b : Body) : option (list string) :=
  spread (body_field k b).

(** The list of one kind in an enriched requirement. *)
Definition enriched_list (k : ArtifactKind) (e : EnrichedRequirement) : list Artifact :=
  match k with
  | UserStoryKind => IssueArtifact <$> userStories e
  | TaskKind => IssueArtifact <$> tasks e
  | TestCaseKind => TestCaseArtifact <$> testCases e
  | CodeCommitKind => CommitArtifact <$> codeCommits e
  | DeploymentKind => DeploymentArtifact <$> deployments e
  end.

(** The aggregation of one kind on its own, as the routes call it. *)
Definition aggregate (k : ArtifactKind) (ids : option (list string)) : Eff (list Artifact) :=
  match k with
  | UserStoryKind =>
      do l <- traceabilityRouter.when_nonempty ids IntegrationService.getUserStories;
      ret (IssueArtifact <$> l)
  | TaskKind =>
      do l <- traceabilityRouter.when_nonempty ids IntegrationService.getTasks;
      ret (IssueArtifact <$> l)
  | TestCaseKind =>
      do l <- traceabilityRouter.when_nonempty ids IntegrationService.getTestCases;
      ret (TestCaseArtifact <$> l)
  | CodeCommitKind =>
      do l <- traceabilityRouter.when_nonempty ids IntegrationService.getCodeCommits;
      ret (CommitArtifact <$> l)
  | DeploymentKind =>
      do l <- traceabilityRouter.when_nonempty ids IntegrationService.getDeployments;
      ret (DeploymentArtifact <$> l)
  end.

(** Whether the upstream source of kind [k] answers for [key] with what the
    normalization needs.  Test cases have no upstream source. *)
Definition source_available (k : ArtifactKind) (u : Upstream) (key : string) : bool :=
  match k with
  | UserStoryKind | TaskKind => issue_available u key
  | TestCaseKind => true
  | CodeCommitKind => commit_available u key
  | DeploymentKind => build_available u key
  end.

(** The error line that the service writes when the fan-out of [k] fails. *)
Definition failure_message (k : ArtifactKind) : string :=
  match k with
  | UserStoryKind => "IntegrationService.getUserStories error:"
  | TaskKind => "IntegrationService.getTasks error:"
  | TestCaseKind => "IntegrationService.getTestCases error:"
  | CodeCommitKind => "IntegrationService.getCodeCommits error:"
  | DeploymentKind => "IntegrationService.getDeployments error:"
  end.

(** What a guarded service call of a route does: it completes normally;
    its result depends on the upstream systems only; it is empty or has
    one element per identifier; when a request of the fan-out fails it is
    empty and the failure is in the diagnostics. *)
Definition guarded_fanout_spec {A} (service : list string -> Eff (list A))
    (f : string -> Eff A) (msg : string) : Prop :=
  forall ids w, exists r w',
    traceabilityRouter.when_nonempty ids service w = (Normal r, w')
    /\ audit_only w w'
    /\ (forall w0, upstream w0 = upstream w ->
         fst (traceabilityRouter.when_nonempty ids service w0) = Normal r)
    /\ (r = [] \/ length r = length (default [] ids))
    /\ (forall key e, key ∈ default [] ids -> fst (f key w) = Thrown e ->
         r = [] /\ error_logged msg w').


(** The world once the next scripted outcome of the requirement repository
    has been consumed. *)
Definition after_requirement_op (w : World) : World :=
  set_requirement_faults (fun script => tail script) w.

(** The entity that [save] returns for [r] in [w], and the world once the
    row is written. *)
Definition saved_entity (w : World) (r : Requirement) : Requirement :=
  Orm.refreshed (database_clock w 0%nat) r.

Definition after_save (r : Requirement) (w : World) : World :=
  set_database_clock (fun clock n => clock (S n))
    (set_requirements (fun m => <[id r := Orm.stored (saved_entity w r)]> m) w).

(** An identifier that a [simple-array] column gives back as it was
    written: it is not empty and holds no comma. *)
Definition storable (x : string) : bool :=
  negb (String.eqb x EmptyString) && negb (Js.occurs ","%char x).

(** A row as a read returns it: its lists are what the codec gives back. *)
Definition readable (r : Requirement) : Prop := Orm.stored r = r.

(** A permission set grants a token when it lists the token or the
    wildcard, which stands for every permission. *)
Definition grants (perms : list string) (token : string) : Prop :=
  "*" ∈ perms \/ token ∈ perms.

(** The three answers of [authorize]. *)
Definition Unauthorized401 : Outcome := json_response 401 (ErrorBody "Unauthorized").
Definition Forbidden403 : Outcome :=
  json_response 403 (ErrorBody "Forbidden: Insufficient permissions").
Definition InternalError500 : Outcome :=
  json_response 500 (ErrorBody "Internal server error").

(** The row that [logUnauthorizedAccess] writes for a known caller, when
    the table holds [n] rows. *)
Definition unauthorized_row (w : World) (req : Request) (u : User) : AuditLog :=
  {| log_id := fst (audit_generated w (length (audit_logs w)));
     log_action := "UNAUTHORIZED_ACCESS";
     log_username := Some (username u);
     log_role := Some (role u);
     log_details := Some (Js.stringify (Js.Obj [("url", Js.Str (req_originalUrl req))]));
     log_ip := Some (req_ip req);
     log_timestamp := snd (audit_generated w (length (audit_logs w))) |}.

(** The primary-key invariant of the requirement table: a row is stored
    under its own [id]. *)
Definition store_keyed (w : World) : Prop :=
  forall key r, requirements w !! key = Some r -> id r = key.

(** Successive report calls, the upstream systems being in state [u] at the
    call that [u] stands for, and nothing else happening in between. *)
Fixpoint report_calls (req : Request) (ups : list Upstream) (w : World)
    : list (Completion Outcome) * World :=
  match ups with
  | [] => ([], w)
  | u :: rest =>
      let '(o, w1) := traceabilityRouter.get_report req (set_upstream u w) in
      let '(os, w2) := report_calls req rest w1 in
      (o :: os, w2)
  end.

(** The pairs [(hasFailedTests, hasDeploymentRollback)] that a response
    reports for the requirement [key]. *)
Definition report_flags (o : Completion Outcome) (key : string) : list (bool * bool) :=
  match o with
  | Normal (Send {| res_status := 200; res_body := ReportBody rows |}) =>
      (fun row => (row_hasFailedTests row, row_hasDeploymentRollback row))
        <$> filter (fun row => row_id row = key) rows
  | _ => []
  end.

(** The response is a report that has a row for [key], and each of its rows
    for [key] satisfies [P]. *)
Definition reports (o : Completion Outcome) (key : string) (P : ReportRow -> Prop) : Prop :=
  exists rows,
    o = Normal (json_response 200 (ReportBody rows))
    /\ (exists row, row ∈ rows /\ row_id row = key)
    /\ (forall row, row ∈ rows -> row_id row = key -> P row).

(** What [getTestResults] makes of the identifier at position [i]. *)
Definition test_result_at (u : Upstream) (i : nat) (key : string) : TestResult :=
  {| tr_id := key;
     tr_status := if math_random_gt_08 u i then "failed" else "passed";
     tr_executedAt := now_iso u |}.

(** The row of the report that belongs to [r]: its flags are at least the
    stored ones, and a failed test result or a rollback among its details
    raises the corresponding flag. *)
Definition row_of (r : Requirement) (row : ReportRow) : Prop :=
  row_id row = id r
  /\ row_title row = title r
  /\ row_status row = status r
  /\ row_hasFailedTests row
     = hasFailedTests r
       || existsb (fun tr => bool_decide (tr_status tr = "failed")) (row_testResults row)
  /\ row_hasDeploymentRollback row
     = hasDeploymentRollback r
       || existsb (fun ds => bool_decide (dep_status ds = Some "rollback"))
            (row_deploymentStatus row).

(** [e] is the enrichment of [r] when the upstream systems are in state
    [u], and [w'] is a world in which its failures have been logged: each
    list of [e] is what the aggregation of its kind returns on its own; it
    is empty or has one element per identifier; it is empty, with an error
    line in the diagnostics, when a request of its fan-out fails. *)
Definition enrichment_of (u : Upstream) (r : Requirement) (e : EnrichedRequirement)
    (w' : World) : Prop :=
  base e = r
  /\ (forall k w0, upstream w0 = u ->
        fst (aggregate k (identifiers k r) w0) = Normal (enriched_list k e))
  /\ (forall k, enriched_list k e = []
                \/ length (enriched_list k e) = length (default [] (identifiers k r)))
  /\ (forall k key, key ∈ default [] (identifiers k r) ->
        source_available k u key = false ->
        enriched_list k e = [] /\ error_logged (failure_message k) w').

(** The seven values of a row as they are stored, before any quoting or
    escaping: what a reader of the CSV should get back. *)
Definition original_fields (log : AuditLog) : option (list string) :=
  iso ← Js.toISOString (log_timestamp log);
  Some [ log_id log; log_action log;
         Js.str_or (log_username log) ""; Js.str_or (log_role log) "";
         Js.str_or (log_details log) ""; Js.str_or (log_ip log) ""; iso ].

(** ** Concrete data for the examples *)

Module Sample.

Definition login : Requirement :=
  {| id := "r1"; title := "Login"; description := None; priority := None;
     status := "Draft";
     userStoryIds := Some ["s1"; "s2"];
     taskIds := None;
     testCaseIds := Some ["t1"; "t2"];
     codeCommitIds := None;
     deploymentIds := Some ["d1"];
     hasFailedTests := false; hasDeploymentRollback := false;
     createdBy := "alice"; updatedBy := None;
     createdAt := 1700000000000; updatedAt := 1700000000000 |}.

Definition story (key : string) : JiraIssue :=
  {| issue_id := Some ("100" ++ key); issue_key := Some key;
     issue_fields :=
       Some {| summary := Some "As a user"; status_name := Some (Some "Open");
               assignee_displayName := None |} |}.

(** Jira answers for [s1] and [s2] only; Jenkins says that build [d1] was
    aborted; the second test result fails. *)
Definition systems : Upstream :=
  {| jira_get_issue := fun key =>
       if bool_decide (key ∈ ["s1"; "s2"]) then Some (story key) else None;
     github_get_commit := fun _ => None;
     jenkins_get_build := fun key =>
       if bool_decide (key = "d1")
       then Some {| build_result := Some "ABORTED"; build_timestamp := Some 1700000000000 |}
       else None;
     math_random_gt_08 := fun i => bool_decide (i = 1%nat);
     now_iso := "2023-11-14T22:13:20.000Z";
     process_env := fun _ => None |}.

(** The same systems on a day when every test passes. *)
Definition systems_all_pass : Upstream :=
  {| jira_get_issue := jira_get_issue systems;
     github_get_commit := github_get_commit systems;
     jenkins_get_build := jenkins_get_build systems;
     math_random_gt_08 := fun _ => false;
     now_iso := "2023-11-15T22:13:20.000Z";
     process_env := process_env systems |}.

Definition world : World :=
  {| requirements := {[ "r1" := login ]};
     audit_logs := [];
     diagnostics := [];
     requirement_faults := [];
     audit_faults := [];
     audit_generated := fun n => ("log-" ++ pretty n, 1700000000000 + Z.of_nat n);
     upstream := systems;
     database_clock := fun n => 1700000100000 + Z.of_nat n |}.

Definition no_body : Body :=
  {| body_userStoryIds := Skipped Absent; body_taskIds := Skipped Absent; body_testCaseIds := Skipped Absent;
     body_codeCommitIds := Skipped Absent; body_deploymentIds := Skipped Absent;
     body_hasFailedTests := Js.Undefined; body_hasDeploymentRollback := Js.Undefined |}.

Definition victor : User := {| username := "victor"; role := "viewer" |}.

(** Victor, a viewer, links story [s3] (twice) and [s1] to [r1]. *)
Definition link_request : Request :=
  {| req_user := Some victor; req_ip := "10.0.0.7";
     req_originalUrl := "/api/traceability/requirement/r1/link";
     req_params_id := "r1";
     req_body :=
       {| body_userStoryIds := Ids ["s3"; "s1"; "s3"]; body_taskIds := Skipped Absent;
          body_testCaseIds := Skipped Absent; body_codeCommitIds := Skipped Absent;
          body_deploymentIds := Skipped Absent;
          body_hasFailedTests := Js.Undefined;
          body_hasDeploymentRollback := Js.Undefined |} |}.

Definition report_request : Request :=
  {| req_user := Some victor; req_ip := "10.0.0.7";
     req_originalUrl := "/api/traceability/report";
     req_params_id := ""; req_body := no_body |}.

(** A request that sets [hasFailedTests] only. *)
Definition flags_request : Request :=
  {| req_user := Some victor; req_ip := "10.0.0.7";
     req_originalUrl := "/api/traceability/requirement/r1/flags";
     req_params_id := "r1";
     req_body :=
       {| body_userStoryIds := Skipped Absent; body_taskIds := Skipped Absent; body_testCaseIds := Skipped Absent;
          body_codeCommitIds := Skipped Absent; body_deploymentIds := Skipped Absent;
          body_hasFailedTests := Js.Bool true;
          body_hasDeploymentRollback := Js.Undefined |} |}.

End Sample.

Module SampleAuth.

(** A principal whose role string names a member of [Object.prototype]. *)
Definition mallory : User := {| username := "mallory"; role := "constructor" |}.

Definition request_of (u : option User) : Request :=
  {| req_user := u; req_ip := "10.0.0.9";
     req_originalUrl := "/api/traceability/matrix";
     req_params_id := ""; req_body := Sample.no_body |}.

End SampleAuth.

Module SamplePolicy.

Definition dana : User := {| username := "dana"; role := "developer" |}.

End SamplePolicy.

Module SampleFlagged.

(** [r1] once an administrator has set [hasFailedTests]. *)
Definition login : Requirement :=
  traceabilityRouter.flags_into Sample.login (req_body Sample.flags_request)
    (Some Sample.victor).

Definition world : World :=
  set_requirements (fun _ => {[ "r1" := login ]}) Sample.world.

End SampleFlagged.

Module SampleOutage.

(** A requirement with a story, [s9], that Jira does not answer for. *)
Definition checkout : Requirement :=
  {| id := "r7"; title := "Checkout"; description := None; priority := Some "high";
     status := "Approved";
     userStoryIds := Some ["s1"; "s9"];
     taskIds := Some ["s2"];
     testCaseIds := Some ["t1"];
     codeCommitIds := None;
     deploymentIds := Some ["d1"];
     hasFailedTests := false; hasDeploymentRollback := false;
     createdBy := "alice"; updatedBy := None;
     createdAt := 1700000000000; updatedAt := 1700000000000 |}.

Definition world : World :=
  set_requirements (fun _ => {[ "r7" := checkout ]}) Sample.world.

Definition matrix_request : Request :=
  {| req_user := Some Sample.victor; req_ip := "10.0.0.7";
     req_originalUrl := "/api/traceability/matrix";
     req_params_id := ""; req_body := Sample.no_body |}.

End SampleOutage.

Module SampleExport.

(** A name with a double quote in it: [ann], a quote, [x]. *)
Definition quoted_name : string := "ann" ++ Js.dq ++ "x".

Definition older : AuditLog :=
  {| log_id := "log-0"; log_action := "GET_TRACEABILITY_MATRIX";
     log_username := Some "bob"; log_role := Some "viewer";
     log_details := Some (Js.stringify (Js.Obj [("count", Js.Num "2")]));
     log_ip := None; log_timestamp := 1700000000000 |}.

Definition newer : AuditLog :=
  {| log_id := "log-1"; log_action := "UNAUTHORIZED_ACCESS";
     log_username := Some quoted_name; log_role := Some "viewer";
     log_details := None;
     log_ip := Some "10.0.0.7"; log_timestamp := 1700000000123 |}.

Definition world : World := set_audit_logs (fun _ => [older; newer]) Sample.world.

End SampleExport.

(** ** Vocabulary of the further properties *)

(** [m] takes every world to one that [R] relates to it. *)
Definition preserves {A} (R : World -> World -> Prop) (m : Eff A) : Prop :=
  forall w, R w (snd (m w)).

(** The audit table of [w'] starts with the audit table of [w]: rows were
    appended, none was changed or removed. *)
Definition audit_appended (w w' : World) : Prop :=
  audit_logs w `prefix_of` audit_logs w'.

(** The requirement table is the same in [w'] as in [w]. *)
Definition same_requirements (w w' : World) : Prop :=
  requirements w' = requirements w.

(** The row that a recording call of a route writes in [w] when the save
    succeeds.  The routes pass no request to the recording functions, so
    the row has no address. *)
Definition audit_row (w : World) (action : string) (user : option User)
    (details : Js.Value) : AuditLog :=
  {| log_id := fst (audit_generated w (length (audit_logs w)));
     log_action := action;
     log_username := username <$> user;
     log_role := role <$> user;
     log_details := AuditLogService.details_column details;
     log_ip := None;
     log_timestamp := snd (audit_generated w (length (audit_logs w))) |}.

(** The row that [ensureAuthenticated] has recorded for a request without
    a principal. *)
Definition anonymous_row (w : World) (req : Request) : AuditLog :=
  {| log_id := fst (audit_generated w (length (audit_logs w)));
     log_action := "UNAUTHORIZED_ACCESS";
     log_username := None;
     log_role := None;
     log_details := Some (Js.stringify (Js.Obj [("url", Js.Str (req_originalUrl req))]));
     log_ip := Some (req_ip req);
     log_timestamp := snd (audit_generated w (length (audit_logs w))) |}.

Definition NotFound404 : Outcome := json_response 404 (ErrorBody "Requirement not found").

(** The world in which a route leaves a failed operation of the requirement
    repository: the fault is consumed and the route's error line is in the
    diagnostics; the two tables are untouched. *)
Definition after_repository_failure (msg : string) (rest : list bool) (w : World) : World :=
  set_diagnostics (fun d => (d ++ [{| level := LError; message := msg |}])%list)
    (set_requirement_faults (fun _ => rest) w).

Definition RepositoryError : Outcome := NextError (QueryFailed "requirements").

Module SampleFaults.

(** The requirement repository fails at the next operation. *)
Definition load_fails : World := set_requirement_faults (fun _ => [true]) Sample.world.

(** The requirement repository answers the next operation and fails at the
    one after. *)
Definition save_fails : World :=
  set_requirement_faults (fun _ => [false; true]) Sample.world.

(** A request for a requirement that is not stored. *)
Definition missing_request : Request :=
  {| req_user := Some Sample.victor; req_ip := "10.0.0.7";
     req_originalUrl := "/api/traceability/requirement/r404";
     req_params_id := "r404"; req_body := req_body Sample.link_request |}.

End SampleFaults.

(** From [w] to [w'] nothing but the diagnostic stream has changed. *)
Definition only_logged (w w' : World) : Prop :=
  requirements w' = requirements w /\
  audit_logs w' = audit_logs w /\
  requirement_faults w' = requirement_faults w /\
  audit_faults w' = audit_faults w /\
  audit_generated w' = audit_generated w /\
  database_clock w' = database_clock w /\
  upstream w' = upstream w.

(** The details that the link route and the flags route record. *)
Definition link_details (req : Request) : Js.Value :=
  Js.Obj [ ("id", Js.Str (req_params_id req));
           ("userStoryIds", raw_value (body_userStoryIds (req_body req)));
           ("taskIds", raw_value (body_taskIds (req_body req)));
           ("testCaseIds", raw_value (body_testCaseIds (req_body req)));
           ("codeCommitIds",
            raw_value (body_codeCommitIds (req_body req)));
           ("deploymentIds",
            raw_value (body_deploymentIds (req_body req))) ].

Definition flags_details (req : Request) : Js.Value :=
  Js.Obj [ ("id", Js.Str (req_params_id req));
           ("hasFailedTests", body_hasFailedTests (req_body req));
           ("hasDeploymentRollback", body_hasDeploymentRollback (req_body req)) ].

(** The details that the two listing routes record: the number of stored
    requirements. *)
Definition count_details (w : World) : Js.Value :=
  Js.Obj [("count", Js.Num (pretty (Z.of_nat (size (requirements w)))))].

(** The record of [getDeploymentStatus] for a build that [getDeployments]
    reports as [d]. *)
Definition status_of (d : Deployment) : Deployment :=
  {| dep_id := dep_id d;
     dep_status := IntegrationService.normalize_result (dep_status d);
     dep_timestamp := dep_timestamp d;
     dep_url := dep_url d |}.

Module SampleOrder.

(** A second link request for [r1]: story [s4] and then [s2]. *)
Definition second_link : Request :=
  {| req_user := Some SamplePolicy.dana; req_ip := "10.0.0.8";
     req_originalUrl := "/api/traceability/requirement/r1/link";
     req_params_id := "r1";
     req_body :=
       {| body_userStoryIds := Ids ["s4"; "s2"]; body_taskIds := Ids ["k1"];
          body_testCaseIds := Skipped Absent; body_codeCommitIds := Skipped Absent;
          body_deploymentIds := Skipped Absent;
          body_hasFailedTests := Js.Undefined;
          body_hasDeploymentRollback := Js.Undefined |} |}.

End SampleOrder.

(** The row of the report for [r] when the upstream systems are in state
    [u], in a world [w'] in which the failures of its fan-out have been
    logged: the row of [r], with one test result per test case, and with no
    deployment status at all once Jenkins fails for one build of [r]. *)
Definition report_row_at (u : Upstream) (r : Requirement) (row : ReportRow) (w' : World)
    : Prop :=
  row_of r row
  /\ row_testResults row = imap (test_result_at u) (default [] (testCaseIds r))
  /\ (forall d, d ∈ default [] (deploymentIds r) -> build_available u d = false ->
        row_deploymentStatus row = []
        /\ error_logged "IntegrationService.getDeploymentStatus error:" w').

Module SampleRollback.

(** [r1] with a second build, [d2], for which Jenkins does not answer; the
    first build, [d1], has failed. *)
Definition login : Requirement :=
  traceabilityRouter.link_into Sample.login
    {| body_userStoryIds := Skipped Absent; body_taskIds := Skipped Absent; body_testCaseIds := Skipped Absent;
       body_codeCommitIds := Skipped Absent; body_deploymentIds := Ids ["d2"];
       body_hasFailedTests := Js.Undefined;
       body_hasDeploymentRollback := Js.Undefined |} None.

Definition systems : Upstream :=
  {| jira_get_issue := jira_get_issue Sample.systems;
     github_get_commit := github_get_commit Sample.systems;
     jenkins_get_build := fun key =>
       if bool_decide (key = "d1")
       then Some {| build_result := Some "FAILURE"; build_timestamp := Some 1700000000000 |}
       else None;
     math_random_gt_08 := math_random_gt_08 Sample.systems;
     now_iso := now_iso Sample.systems;
     process_env := process_env Sample.systems |}.

Definition world : World :=
  set_upstream systems (set_requirements (fun _ => {[ "r1" := login ]}) Sample.world).

End SampleRollback.

(** The warning that [authorize] writes when it denies a request. *)
Definition denial_warning : LogLine :=
  {| level := LWarn; message := "Access denied: Insufficient permissions" |}.

(** An export fails when the read of the audit table throws, or, for the
    CSV format, when a stored timestamp has no ISO form. *)
Definition export_fails (format : AuditLogService.Format) (w : World) : Prop :=
  next_audit_op_fails w = true
  \/ (format = AuditLogService.csv
      /\ exists log, log ∈ audit_logs w /\ Js.toISOString (log_timestamp log) = None).

Module SampleComma.

(** A link request for [r1] with one identifier, which holds a comma. *)
Definition link_request : Request :=
  {| req_user := Some SamplePolicy.dana; req_ip := "10.0.0.8";
     req_originalUrl := "/api/traceability/requirement/r1/link";
     req_params_id := "r1";
     req_body :=
       {| body_userStoryIds := Ids ["x,y"]; body_taskIds := Skipped Absent;
          body_testCaseIds := Skipped Absent; body_codeCommitIds := Skipped Absent;
          body_deploymentIds := Skipped Absent;
          body_hasFailedTests := Js.Undefined;
          body_hasDeploymentRollback := Js.Undefined |} |}.

(** The stories of [r1] in the table of a world. *)
(** A link request for [r1] that submits the story [x]. *)
Definition piece_request : Request :=
  {| req_user := req_user link_request; req_ip := req_ip link_request;
     req_originalUrl := req_originalUrl link_request;
     req_params_id := req_params_id link_request;
     req_body :=
       {| body_userStoryIds := Ids ["x"]; body_taskIds := Skipped Absent;
          body_testCaseIds := Skipped Absent; body_codeCommitIds := Skipped Absent;
          body_deploymentIds := Skipped Absent;
          body_hasFailedTests := Js.Undefined;
          body_hasDeploymentRollback := Js.Undefined |} |}.

Definition stories (w : World) : option (option (list string)) :=
  userStoryIds <$> requirements w !! "r1".

End SampleComma.

(** The shape that the two writing routes share; [change] is what the
    route assigns to the loaded entity. *)
Definition writing_route (change : Requirement -> Eff Requirement)
    (action missing msg answer : string) (details : Js.Value) (req : Request)
    : Eff Outcome :=
  try_catch
    (do found <- requirementRepo_findOne (req_params_id req);
     match found with
     | None =>
         run AuditLogService.logModification (req_user req) missing
               (Js.Obj [("id", Js.Str (req_params_id req))]) None;
         ret (json_response 404 (ErrorBody "Requirement not found"))
     | Some loaded =>
         do requirement <- change loaded;
         do requirement <- requirementRepo_save requirement;
         run AuditLogService.logModification (req_user req) action details None;
         ret (json_response 200 (MessageBody answer requirement))
     end)
    (fun error => run logger_error msg; ret (NextError error)).

Module SampleDetails.

(** A request for [r1] whose body has the three stories of the sample link
    request and, for [hasFailedTests], the number 1e21. *)
Definition request : Request :=
  {| req_user := Some Sample.victor; req_ip := "10.0.0.7";
     req_originalUrl := "/api/traceability/requirement/r1/flags";
     req_params_id := "r1";
     req_body :=
       {| body_userStoryIds := Ids ["s3"; "s1"; "s3"]; body_taskIds := Skipped Absent;
          body_testCaseIds := Skipped Absent; body_codeCommitIds := Skipped Absent;
          body_deploymentIds := Skipped Absent;
          body_hasFailedTests := Js.Num "1e+21";
          body_hasDeploymentRollback := Js.Null |} |}.

End SampleDetails.

Module SampleRead.

(** Victor reads [r1]. *)
Definition request : Request :=
  {| req_user := Some Sample.victor; req_ip := "10.0.0.7";
     req_originalUrl := "/api/traceability/requirement/r1";
     req_params_id := "r1"; req_body := Sample.no_body |}.

End SampleRead.

(** What the systems behind the integration service answer: the issues of
    Jira, the commits of GitHub, the builds of Jenkins and the environment
    of the process.  The random draws and the clock of [getTestResults] are
    not among them. *)
Definition same_sources (u1 u2 : Upstream) : Prop :=
  jira_get_issue u1 = jira_get_issue u2
  /\ github_get_commit u1 = github_get_commit u2
  /\ jenkins_get_build u1 = jenkins_get_build u2
  /\ process_env u1 = process_env u2.

(** The draws of [Math.random] and the reading of the clock that a call
    of [getTestResults] meets. *)
Definition same_draws (u1 u2 : Upstream) : Prop :=
  math_random_gt_08 u1 = math_random_gt_08 u2 /\ now_iso u1 = now_iso u2.

(** The completion of [m] is determined by the answers of the sources, and
    [m] leaves them as they are. *)
Definition reads_sources {A} (m : Eff A) : Prop :=
  forall w1 w2, same_sources (upstream w1) (upstream w2) ->
    fst (m w1) = fst (m w2)
    /\ same_sources (upstream (snd (m w1))) (upstream (snd (m w2))).

Module SampleNotIterable.

(** Victor sends the number 5 for [taskIds], next to an array of stories. *)
Definition request : Request :=
  {| req_user := Some Sample.victor; req_ip := "10.0.0.7";
     req_originalUrl := "/api/traceability/requirement/r1/link";
     req_params_id := "r1";
     req_body :=
       {| body_userStoryIds := Ids ["s3"]; body_taskIds := NotIterable;
          body_testCaseIds := Skipped Absent; body_codeCommitIds := Skipped Absent;
          body_deploymentIds := Skipped Absent;
          body_hasFailedTests := Js.Undefined;
          body_hasDeploymentRollback := Js.Undefined |} |}.

(** Victor sends the text [s9] for [userStoryIds]. *)
Definition text_request : Request :=
  {| req_user := Some Sample.victor; req_ip := "10.0.0.7";
     req_originalUrl := "/api/traceability/requirement/r1/link";
     req_params_id := "r1";
     req_body :=
       {| body_userStoryIds := Text "s" ["9"]; body_taskIds := Skipped Absent;
          body_testCaseIds := Skipped Absent; body_codeCommitIds := Skipped Absent;
          body_deploymentIds := Skipped Absent;
          body_hasFailedTests := Js.Undefined;
          body_hasDeploymentRollback := Js.Undefined |} |}.

End SampleNotIterable.

(** Every row of the requirement table is a row as a read returns it. *)
Definition table_readable (w : World) : Prop :=
  forall key r, requirements w !! key = Some r -> readable r.

(** * Properties *)

(** ** Sanity checks of the JavaScript built-ins *)

Example stringify_object :
  Js.stringify (Js.Obj [("id", Js.Str "r1"); ("n", Js.Undefined); ("count", Js.Num "2")])
  = "{" ++ Js.dq ++ "id" ++ Js.dq ++ ":" ++ Js.dq ++ "r1" ++ Js.dq ++ ","
        ++ Js.dq ++ "count" ++ Js.dq ++ ":2}".
Proof. vm_compute. reflexivity. Qed.

Example stringify_pretty_array :
  Js.stringify_pretty "  " (Js.Arr [Js.Obj [("a", Js.Null)]; Js.Arr []])
  = "[" ++ Js.nl ++ "  {" ++ Js.nl ++ "    " ++ Js.dq ++ "a" ++ Js.dq ++ ": null"
        ++ Js.nl ++ "  }," ++ Js.nl ++ "  []" ++ Js.nl ++ "]".
Proof. vm_compute. reflexivity. Qed.

Example toISOString_epoch : Js.toISOString 0 = Some "1970-01-01T00:00:00.000Z".
Proof. vm_compute. reflexivity. Qed.

Example toISOString_2023 :
  Js.toISOString 1700000000123 = Some "2023-11-14T22:13:20.123Z".
Proof. vm_compute. reflexivity. Qed.

Example toISOString_leap :
  Js.toISOString 951782400000 = Some "2000-02-29T00:00:00.000Z".
Proof. vm_compute. reflexivity. Qed.

Example toISOString_before_epoch :
  Js.toISOString (-1) = Some "1969-12-31T23:59:59.999Z".
Proof. vm_compute. reflexivity. Qed.


(** ** [Array.from(new Set(...))] *)

Section array_from_set.

Implicit Types seen xs ys : list string.

Lemma set_add_all_app seen xs ys :
  Js.set_add_all seen (xs ++ ys) = Js.set_add_all (Js.set_add_all seen xs) ys.
Proof.
  revert seen. induction xs as [|x xs IH]; intros seen; simpl; [done|].
  case_bool_decide; apply IH.
Qed.

Lemma set_add_all_prefix seen xs : seen `prefix_of` Js.set_add_all seen xs.
Proof.
  revert seen. induction xs as [|x xs IH]; intros seen; simpl; [done|].
  case_bool_decide; [apply IH|].
  etrans; [|apply IH]. by apply prefix_app_r.
Qed.

Lemma elem_of_set_add_all seen xs x :
  x ∈ Js.set_add_all seen xs ↔ x ∈ seen ∨ x ∈ xs.
Proof.
  revert seen. induction xs as [|y xs IH]; intros seen; simpl.
  - rewrite elem_of_nil. tauto.
  - case_bool_decide as Hy; rewrite IH, ?elem_of_app, !elem_of_cons, ?elem_of_nil.
    + split; [tauto|]. intros [?|[->|?]]; tauto.
    + tauto.
Qed.

Lemma NoDup_set_add_all seen xs : NoDup seen → NoDup (Js.set_add_all seen xs).
Proof.
  revert seen. induction xs as [|y xs IH]; intros seen Hnd; simpl; [done|].
  case_bool_decide as Hy; apply IH; [done|].
  apply NoDup_app. split_and!; [done| |apply NoDup_singleton].
  intros z Hz ->%list_elem_of_singleton. done.
Qed.

Lemma set_add_all_first_occurrences seen xs :
  Js.set_add_all seen xs = (seen ++ filter (λ y, y ∉ seen) (Js.first_occurrences xs))%list.
Proof.
  revert seen. induction xs as [|x xs IH]; intros seen; simpl.
  - by rewrite app_nil_r.
  - case_bool_decide as Hx.
    + rewrite IH, filter_cons_False by (by intros ?).
      f_equal. rewrite list_filter_filter. apply list_filter_iff.
      intros y. split; [intros ?; split; [done|congruence]|tauto].
    + rewrite IH, filter_cons_True, <-(assoc_L (++)) by done. simpl.
      do 2 f_equal. rewrite list_filter_filter. apply list_filter_iff.
      intros y. rewrite not_elem_of_app, list_elem_of_singleton. tauto.
Qed.

Lemma set_add_all_known seen xs :
  (∀ x, x ∈ xs → x ∈ seen) → Js.set_add_all seen xs = seen.
Proof.
  induction xs as [|x xs IH]; intros Hsub; simpl; [done|].
  rewrite bool_decide_true by (apply Hsub; left).
  apply IH. intros y Hy. apply Hsub. by right.
Qed.

Lemma array_from_set_first_occurrences xs :
  Js.array_from_set xs = Js.first_occurrences xs.
Proof.
  unfold Js.array_from_set. rewrite set_add_all_first_occurrences. simpl.
  induction (Js.first_occurrences xs) as [|y l IH]; [done|].
  rewrite filter_cons_True by apply not_elem_of_nil. by f_equal.
Qed.

Lemma NoDup_array_from_set xs : NoDup (Js.array_from_set xs).
Proof. apply NoDup_set_add_all, NoDup_nil_2. Qed.

Lemma elem_of_array_from_set xs x : x ∈ Js.array_from_set xs ↔ x ∈ xs.
Proof.
  unfold Js.array_from_set. rewrite elem_of_set_add_all, elem_of_nil. tauto.
Qed.

Lemma filter_ne_fresh xs x : x ∉ xs → filter (λ y, y ≠ x) xs = xs.
Proof.
  induction xs as [|y xs IH]; intros Hx; [done|].
  apply not_elem_of_cons in Hx as [Hne Hx].
  rewrite filter_cons_True by congruence. f_equal. by apply IH.
Qed.

Lemma array_from_set_NoDup xs : NoDup xs → Js.array_from_set xs = xs.
Proof.
  intros Hnd. rewrite array_from_set_first_occurrences.
  induction Hnd as [|x xs Hx Hnd IH]; simpl; [done|].
  by rewrite IH, filter_ne_fresh.
Qed.

Lemma count_occ_NoDup xs x :
  NoDup xs → x ∈ xs → count_occ string_dec xs x = 1%nat.
Proof.
  intros Hnd%NoDup_ListNoDup Hx%list_elem_of_In.
  by apply (proj1 (NoDup_count_occ' string_dec xs) Hnd).
Qed.

End array_from_set.

(** ** Reasoning about [Eff] *)

Section eff.

Context {A B : Type}.

Lemma returns_ret (a : A) w (Q : A → World → Prop) : Q a w → returns (ret a) w Q.
Proof. intros HQ. by exists a, w. Qed.

Lemma returns_bind (m : Eff A) (k : A → Eff B) w (Q : B → World → Prop) :
  returns m w (λ a w', returns (k a) w' Q) → returns (bind m k) w Q.
Proof.
  intros (a & w' & Hm & b & w'' & Hk & HQ).
  exists b, w''. unfold bind. by rewrite Hm.
Qed.

Lemma returns_mono (m : Eff A) w (P Q : A → World → Prop) :
  returns m w P → (∀ a w', P a w' → Q a w') → returns m w Q.
Proof. intros (a & w' & Hm & HP) HPQ. exists a, w'. auto. Qed.

End eff.

(** Closes the goals that say which parts of the world a step leaves
    alone. *)
Ltac frame :=
  repeat split; simpl; try done; try (by apply prefix_app_r); try congruence.

Lemma bind_ret_l {A B} (a : A) (k : A → Eff B) w : bind (ret a) k w = k a w.
Proof. reflexivity. Qed.

Lemma bind_returns {A B} (m : Eff A) (k : A → Eff B) w a w' :
  m w = (Normal a, w') → bind m k w = k a w'.
Proof. intros Hm. unfold bind. by rewrite Hm. Qed.

Lemma bind_throws {A B} (m : Eff A) (k : A → Eff B) w e w' :
  m w = (Thrown e, w') → bind m k w = (Thrown e, w').
Proof. intros Hm. unfold bind. by rewrite Hm. Qed.

Lemma bind_logger_log {B} l msg (k : unit → Eff B) w :
  bind (logger_log l msg) k w
  = k tt (set_diagnostics (λ d, d ++ [{| level := l; message := msg |}])%list w).
Proof. reflexivity. Qed.

Lemma quiet_refl w : quiet w w.
Proof. frame. Qed.

Lemma quiet_trans w1 w2 w3 : quiet w1 w2 → quiet w2 w3 → quiet w1 w3.
Proof.
  intros (?&?&?&?) (?&?&?&?). repeat split; [congruence..|auto|by etrans].
Qed.

Lemma audit_only_quiet w w' : audit_only w w' → quiet w w'.
Proof.
  intros (?&Hf&?&?&?&?). repeat split; [done..| |done].
  unfold requirement_repo_up. by rewrite Hf.
Qed.

Lemma audit_only_refl w : audit_only w w.
Proof. frame. Qed.

Lemma audit_only_trans w1 w2 w3 : audit_only w1 w2 → audit_only w2 w3 → audit_only w1 w3.
Proof.
  intros (?&?&?&?&?&?) (?&?&?&?&?&?). repeat split; [congruence..|by etrans].
Qed.

Lemma agree_refl w : agree w w.
Proof. by repeat split. Qed.

Lemma audit_only_agree w w' : audit_only w w' → agree w w'.
Proof. intros (?&?&?&?&?&?). by repeat split. Qed.

(** ** The logger and the audit service *)

Lemma logger_log_audit_only l msg w : audit_only w (snd (logger_log l msg w)).
Proof. frame. Qed.

(** The three outcomes of one operation on the audit repository. *)
Lemma audit_repo_op_cases w :
  (audit_repo_op w = (Normal tt, w) ∧ audit_faults w = [])
  ∨ (∃ rest, audit_faults w = false :: rest
       ∧ audit_repo_op w = (Normal tt, set_audit_faults (λ _, rest) w))
  ∨ (∃ rest, audit_faults w = true :: rest
       ∧ audit_repo_op w
         = (Thrown (QueryFailed "audit_logs"), set_audit_faults (λ _, rest) w)).
Proof.
  unfold audit_repo_op. destruct (audit_faults w) as [|[] rest]; eauto.
Qed.

(** Saving a draft either appends one row or throws and appends none. *)
Lemma auditRepo_save_cases d w :
  (∃ w', auditRepo_save d w = (Normal tt, w') ∧ audit_only w w'
     ∧ ∃ row, audit_logs w' = (audit_logs w ++ [row])%list
         ∧ log_action row = draft_action d
         ∧ log_username row = draft_username d
         ∧ log_role row = draft_role d
         ∧ log_details row = draft_details d
         ∧ log_ip row = draft_ip d)
  ∨ (∃ e w', auditRepo_save d w = (Thrown e, w') ∧ audit_only w w'
       ∧ audit_logs w' = audit_logs w ∧ ∃ rest, audit_faults w = true :: rest).
Proof.
  unfold auditRepo_save, bind.
  destruct (audit_repo_op_cases w) as [[-> _]|[(rest & _ & ->)|(rest & Hf & ->)]].
  - left. eexists. split; [reflexivity|]. split; [frame|].
    eexists. split; [reflexivity|]. by repeat split.
  - left. eexists. split; [reflexivity|]. split; [frame|].
    eexists. split; [reflexivity|]. by repeat split.
  - right. do 2 eexists. split; [reflexivity|]. split; [frame|].
    split; [done|]. eauto.
Qed.

Lemma auditRepo_save_up d w :
  audit_repo_up w →
  ∃ w', auditRepo_save d w = (Normal tt, w') ∧ audit_only w w' ∧ audit_repo_up w'
     ∧ diagnostics w' = diagnostics w
     ∧ audit_logs w' =
         (audit_logs w ++
            [{| log_id := fst (audit_generated w (length (audit_logs w)));
                log_action := draft_action d;
                log_username := draft_username d; log_role := draft_role d;
                log_details := draft_details d; log_ip := draft_ip d;
                log_timestamp := snd (audit_generated w (length (audit_logs w))) |}])%list.
Proof.
  unfold audit_repo_up, auditRepo_save, bind, audit_repo_op. intros Hup.
  destruct (audit_faults w) as [|[] rest] eqn:Hf.
  - eexists. split; [reflexivity|]. split; [frame|].
    split; [|done]. simpl. by rewrite Hf.
  - by apply Forall_cons in Hup as [? _].
  - eexists. split; [reflexivity|]. split; [frame|].
    split; [|done]. simpl. by apply Forall_cons in Hup as [_ ?].
Qed.

(** The shape shared by the three recording functions: a [try] that saves
    the draft and then logs, and a [catch] that logs the error.  It always
    completes normally; it appends the row when the save succeeds and
    none when the save throws. *)
Lemma record_never_throws d l msg emsg w :
  ∃ w',
    try_catch (run auditRepo_save d; logger_log l msg)
              (λ _, logger_log LError emsg) w = (Normal tt, w')
    ∧ audit_only w w'
    ∧ ((∃ row, audit_logs w' = (audit_logs w ++ [row])%list
          ∧ log_action row = draft_action d
          ∧ log_username row = draft_username d
          ∧ log_role row = draft_role d)
       ∨ (audit_logs w' = audit_logs w
          ∧ (∃ rest, audit_faults w = true :: rest)
          ∧ ∃ line, line ∈ diagnostics w' ∧ level line = LError ∧ message line = emsg)).
Proof.
  unfold try_catch, bind.
  destruct (auditRepo_save_cases d w)
    as [(w1 & -> & Hao & row & Hrows & Ha & Hu & Hr & _)
       |(e & w1 & -> & Hao & Hrows & Hfault)].
  - eexists. split; [reflexivity|]. split.
    + eapply audit_only_trans; [done|]. apply logger_log_audit_only.
    + left. exists row. simpl. by rewrite Hrows.
  - eexists. split; [reflexivity|]. split.
    + eapply audit_only_trans; [done|]. apply logger_log_audit_only.
    + right. split; [done|]. split; [done|].
      exists {| level := LError; message := emsg |}. simpl.
      split; [|done]. apply elem_of_app. right. apply list_elem_of_singleton. done.
Qed.

Lemma record_up d l msg emsg w :
  audit_repo_up w →
  ∃ w',
    try_catch (run auditRepo_save d; logger_log l msg)
              (λ _, logger_log LError emsg) w = (Normal tt, w')
    ∧ audit_only w w' ∧ audit_repo_up w'
    ∧ audit_logs w' =
        (audit_logs w ++
           [{| log_id := fst (audit_generated w (length (audit_logs w)));
               log_action := draft_action d;
               log_username := draft_username d; log_role := draft_role d;
               log_details := draft_details d; log_ip := draft_ip d;
               log_timestamp := snd (audit_generated w (length (audit_logs w))) |}])%list.
Proof.
  intros Hup. unfold try_catch, bind.
  destruct (auditRepo_save_up d w Hup) as (w1 & -> & Hao & Hup1 & _ & Hrows).
  eexists. split; [reflexivity|]. split.
  - eapply audit_only_trans; [done|]. apply logger_log_audit_only.
  - split; [done|]. simpl. done.
Qed.

Lemma logAccess_returns user action details req w :
  returns (AuditLogService.logAccess user action details req) w (λ _ w', audit_only w w').
Proof.
  destruct (record_never_throws
    {| draft_action := action; draft_username := username <$> user;
       draft_role := role <$> user;
       draft_details := AuditLogService.details_column details;
       draft_ip := req_ip <$> req |} LInfo ("AuditLog: Access - " ++ action)
    "AuditLogService.logAccess error:" w) as (w' & Hrun & Hao & _).
  by exists tt, w'.
Qed.

Lemma logModification_returns user action details req w :
  returns (AuditLogService.logModification user action details req) w
    (λ _ w', audit_only w w').
Proof.
  destruct (record_never_throws
    {| draft_action := action; draft_username := username <$> user;
       draft_role := role <$> user;
       draft_details := AuditLogService.details_column details;
       draft_ip := req_ip <$> req |} LInfo ("AuditLog: Modification - " ++ action)
    "AuditLogService.logModification error:" w) as (w' & Hrun & Hao & _).
  by exists tt, w'.
Qed.

Lemma logUnauthorizedAccess_returns ip url un ur w :
  returns (AuditLogService.logUnauthorizedAccess ip url un ur) w
    (λ _ w', audit_only w w').
Proof.
  destruct (record_never_throws
    {| draft_action := "UNAUTHORIZED_ACCESS"; draft_username := un;
       draft_role := ur;
       draft_details := Some (Js.stringify (Js.Obj [("url", Js.Str url)]));
       draft_ip := Some ip |} LWarn "AuditLog: Unauthorized access attempt"
    "AuditLogService.logUnauthorizedAccess error:" w) as (w' & Hrun & Hao & _).
  by exists tt, w'.
Qed.

(** The audit repository's [find] in the three cases of its script. *)
Lemma auditRepo_find_desc_cases w :
  (∃ w', auditRepo_find_desc w
           = (Normal (order_by_timestamp_desc (audit_logs w)), w')
       ∧ audit_only w w' ∧ audit_logs w' = audit_logs w
       ∧ diagnostics w' = diagnostics w)
  ∨ (∃ rest, audit_faults w = true :: rest
       ∧ auditRepo_find_desc w
         = (Thrown (QueryFailed "audit_logs"), set_audit_faults (λ _, rest) w)).
Proof.
  unfold auditRepo_find_desc, bind.
  destruct (audit_repo_op_cases w) as [[-> _]|[(rest & _ & ->)|(rest & Hf & ->)]].
  - left. eexists. split; [reflexivity|]. frame.
  - left. eexists. split; [reflexivity|]. frame.
  - right. eauto.
Qed.

Lemma exportLogs_returns format w :
  returns (AuditLogService.exportLogs format) w (λ _ w', audit_only w w').
Proof.
  unfold returns, AuditLogService.exportLogs, try_catch. unfold bind at 1.
  destruct (auditRepo_find_desc_cases w) as [(w1 & -> & Hao & _)|(rest & _ & ->)].
  - destruct format.
    + eexists _, _. split; [reflexivity|done].
    + destruct (mapM _ _); eexists _, _; (split; [reflexivity|]); [done|].
      eapply audit_only_trans; [done|]. frame.
  - eexists _, _. split; [reflexivity|]. frame.
Qed.

(** What [exportLogs] returns, in every case. *)
Lemma exportLogs_result format w :
  fst (AuditLogService.exportLogs format w) =
  Normal
    (if next_audit_op_fails w then ""
     else
       let logs := order_by_timestamp_desc (audit_logs w) in
       match format with
       | AuditLogService.json =>
           Js.stringify_pretty "  " (Js.Arr (AuditLogService.log_to_json <$> logs))
       | AuditLogService.csv =>
           match mapM AuditLogService.csv_row logs with
           | Some rows => Js.join Js.nl (AuditLogService.csv_header :: rows)
           | None => ""
           end
       end).
Proof.
  unfold AuditLogService.exportLogs, try_catch, auditRepo_find_desc, bind,
    audit_repo_op, next_audit_op_fails.
  destruct (audit_faults w) as [|[] rest]; simpl; [|done|];
    (destruct format; [done|]); by destruct (mapM _ _).
Qed.

(** ** Independence from the audit storage *)

Lemma unaffected_ret {A} (a : A) : unaffected (ret a).
Proof. by intros w1 w2 Hag. Qed.

Lemma unaffected_throw {A} e : unaffected (@throw A e).
Proof. by intros w1 w2 Hag. Qed.

Lemma unaffected_bind {A B} (m : Eff A) (k : A → Eff B) :
  unaffected m → (∀ a, unaffected (k a)) → unaffected (bind m k).
Proof.
  intros Hm Hk w1 w2 Hag. unfold bind.
  destruct (Hm w1 w2 Hag) as [Hfst Hsnd].
  destruct (m w1) as [[a1|e1] w1'], (m w2) as [[a2|e2] w2']; simplify_eq/=;
    [by apply Hk|done].
Qed.

Lemma unaffected_try_catch {A} (m : Eff A) h :
  unaffected m → (∀ e, unaffected (h e)) → unaffected (try_catch m h).
Proof.
  intros Hm Hh w1 w2 Hag. unfold try_catch.
  destruct (Hm w1 w2 Hag) as [Hfst Hsnd].
  destruct (m w1) as [[a1|e1] w1'], (m w2) as [[a2|e2] w2']; simplify_eq/=;
    [done|by apply Hh].
Qed.

Lemma unaffected_map_eff {A B} (f : A → Eff B) xs :
  (∀ x, unaffected (f x)) → unaffected (map_eff f xs).
Proof.
  intros Hf. induction xs as [|x xs IH]; simpl; [apply unaffected_ret|].
  apply unaffected_bind; [done|]. intros y.
  apply unaffected_bind; [done|]. intros ys. apply unaffected_ret.
Qed.

(** A computation that always completes with the same value and touches
    only what audit recording touches. *)
Lemma unaffected_audit_only {A} (m : Eff A) (a : A) :
  (∀ w, returns m w (λ a' w', a' = a ∧ audit_only w w')) → unaffected m.
Proof.
  intros Hm w1 w2 Hag.
  destruct (Hm w1) as (? & w1' & -> & -> & Hao1%audit_only_agree).
  destruct (Hm w2) as (? & w2' & -> & -> & Hao2%audit_only_agree).
  simpl. split; [done|].
  destruct Hag as (?&?&?&?), Hao1 as (?&?&?&?), Hao2 as (?&?&?&?).
  repeat split; congruence.
Qed.


Lemma unaffected_logger_log l msg : unaffected (logger_log l msg).
Proof. intros w1 w2 (?&?&?&?). by repeat split. Qed.

Lemma unaffected_logger_error msg : unaffected (logger_error msg).
Proof. apply unaffected_logger_log. Qed.

Lemma unaffected_logger_warn msg : unaffected (logger_warn msg).
Proof. apply unaffected_logger_log. Qed.

Lemma unaffected_logger_info msg : unaffected (logger_info msg).
Proof. apply unaffected_logger_log. Qed.

Lemma unaffected_logAccess user action details req :
  unaffected (AuditLogService.logAccess user action details req).
Proof.
  apply (unaffected_audit_only _ tt). intros w.
  eapply returns_mono; [apply logAccess_returns|]. by intros [] w' ?.
Qed.

Lemma unaffected_logModification user action details req :
  unaffected (AuditLogService.logModification user action details req).
Proof.
  apply (unaffected_audit_only _ tt). intros w.
  eapply returns_mono; [apply logModification_returns|]. by intros [] w' ?.
Qed.

Lemma unaffected_logUnauthorizedAccess ip url un ur :
  unaffected (AuditLogService.logUnauthorizedAccess ip url un ur).
Proof.
  apply (unaffected_audit_only _ tt). intros w.
  eapply returns_mono; [apply logUnauthorizedAccess_returns|]. by intros [] w' ?.
Qed.

Lemma unaffected_requirement_repo_op : unaffected requirement_repo_op.
Proof.
  intros w1 w2 (Hr & Hf & Hc & Hu). unfold requirement_repo_op. rewrite Hf.
  destruct (requirement_faults w2) as [|[] rest] eqn:Hf2; simpl;
    repeat split; simpl; congruence.
Qed.

Lemma unaffected_requirementRepo_find : unaffected requirementRepo_find.
Proof.
  apply unaffected_bind; [apply unaffected_requirement_repo_op|]. intros _.
  intros w1 w2 (Hr & Hf & Hc & Hu). unfold bind, get_world, ret. simpl.
  rewrite Hr. by repeat split.
Qed.

Lemma unaffected_requirementRepo_findOne key : unaffected (requirementRepo_findOne key).
Proof.
  apply unaffected_bind; [apply unaffected_requirement_repo_op|]. intros _.
  intros w1 w2 (Hr & Hf & Hc & Hu). unfold bind, get_world, ret. simpl.
  rewrite Hr. by repeat split.
Qed.

Lemma unaffected_requirementRepo_save r : unaffected (requirementRepo_save r).
Proof.
  apply unaffected_bind; [apply unaffected_requirement_repo_op|]. intros _.
  intros w1 w2 (Hr & Hf & Hc & Hu). unfold bind, get_world, modify, ret, agree. simpl.
  rewrite Hr, Hc. by repeat split.
Qed.

Create HintDb unaffected discriminated.
#[local] Hint Resolve unaffected_ret unaffected_throw unaffected_logger_log
  unaffected_logger_error unaffected_logger_warn unaffected_logger_info
  unaffected_logAccess unaffected_logModification unaffected_logUnauthorizedAccess
  unaffected_requirementRepo_find unaffected_requirementRepo_findOne
  unaffected_requirementRepo_save : unaffected.

(** ** The integration service *)

Lemma reads_upstream_ret {A} (a : A) : reads_upstream (ret a).
Proof. by split. Qed.

Lemma reads_upstream_throw {A} e : reads_upstream (@throw A e).
Proof. by split. Qed.

Lemma reads_upstream_bind {A B} (m : Eff A) (k : A → Eff B) :
  reads_upstream m → (∀ a, reads_upstream (k a)) → reads_upstream (bind m k).
Proof.
  intros [Hm1 Hm2] Hk. split.
  - intros w. unfold bind. specialize (Hm1 w).
    destruct (m w) as [[a|e] w']; simpl in *; subst; [apply Hk|done].
  - intros w1 w2 Hu. unfold bind.
    pose proof (Hm1 w1) as H1. pose proof (Hm1 w2) as H2.
    specialize (Hm2 w1 w2 Hu).
    destruct (m w1) as [[a1|e1] w1'], (m w2) as [[a2|e2] w2'];
      simplify_eq/=; [by apply Hk|done].
Qed.

Lemma reads_upstream_map_eff {A B} (f : A → Eff B) xs :
  (∀ x, reads_upstream (f x)) → reads_upstream (map_eff f xs).
Proof.
  intros Hf. induction xs as [|x xs IH]; simpl; [apply reads_upstream_ret|].
  apply reads_upstream_bind; [done|]. intros y.
  apply reads_upstream_bind; [done|]. intros ys. apply reads_upstream_ret.
Qed.

Lemma reads_upstream_env name : reads_upstream (IntegrationService.env name).
Proof. split; [done|]. intros w1 w2 Hu. cbv [IntegrationService.env bind get_world ret fst]. by rewrite Hu. Qed.

Lemma reads_upstream_jiraClient_get key :
  reads_upstream (IntegrationService.jiraClient_get key).
Proof.
  split; intros w1; [|intros w2 Hu];
    cbv [IntegrationService.jiraClient_get bind get_world]; [|rewrite Hu];
    by destruct (jira_get_issue _ _).
Qed.

Lemma reads_upstream_githubClient_get owner repo key :
  reads_upstream (IntegrationService.githubClient_get owner repo key).
Proof.
  split; intros w1; [|intros w2 Hu];
    cbv [IntegrationService.githubClient_get bind get_world]; [|rewrite Hu];
    by destruct (github_get_commit _ _).
Qed.

Lemma reads_upstream_jenkinsClient_get job key :
  reads_upstream (IntegrationService.jenkinsClient_get job key).
Proof.
  split; intros w1; [|intros w2 Hu];
    cbv [IntegrationService.jenkinsClient_get bind get_world]; [|rewrite Hu];
    by destruct (jenkins_get_build _ _).
Qed.

Create HintDb reads discriminated.
#[local] Hint Resolve reads_upstream_ret reads_upstream_throw reads_upstream_env
  reads_upstream_jiraClient_get reads_upstream_githubClient_get
  reads_upstream_jenkinsClient_get : reads.

Ltac reads_step :=
  first [ solve [auto with reads]
        | apply reads_upstream_bind; [|intros ?]
        | apply reads_upstream_map_eff; intros ?
        | match goal with |- reads_upstream (match ?x with _ => _ end) => destruct x end ].

Lemma reads_upstream_fetch_issue key : reads_upstream (IntegrationService.fetch_issue key).
Proof. unfold IntegrationService.fetch_issue. repeat reads_step. Qed.

Lemma reads_upstream_fetch_commit key : reads_upstream (IntegrationService.fetch_commit key).
Proof. unfold IntegrationService.fetch_commit. repeat reads_step. Qed.

Lemma reads_upstream_fetch_deployment key :
  reads_upstream (IntegrationService.fetch_deployment key).
Proof. unfold IntegrationService.fetch_deployment. repeat reads_step. Qed.

Lemma reads_upstream_fetch_deployment_status key :
  reads_upstream (IntegrationService.fetch_deployment_status key).
Proof. unfold IntegrationService.fetch_deployment_status. repeat reads_step. Qed.

#[local] Hint Resolve reads_upstream_fetch_issue reads_upstream_fetch_commit
  reads_upstream_fetch_deployment reads_upstream_fetch_deployment_status : reads.

(** A sequential map of read-only requests: every answer, or the first
    failure, and the world is as before. *)
Lemma map_eff_reads {A} (f : string → Eff A) ids w :
  (∀ key, reads_upstream (f key)) →
  (∃ r, map_eff f ids w = (Normal r, w)
        ∧ Forall2 (λ key a, fst (f key w) = Normal a) ids r)
  ∨ (∃ e, map_eff f ids w = (Thrown e, w)
        ∧ ∃ key, key ∈ ids ∧ fst (f key w) = Thrown e).
Proof.
  intros Hf. induction ids as [|key ids IH]; simpl.
  - left. exists []. by split.
  - destruct (Hf key) as [Hw _]. specialize (Hw w).
    destruct (f key w) as [[a|e] w'] eqn:Hkey; simpl in Hw; subst w'.
    + destruct IH as [(r & Hr & Hall)|(e & He & k & Hk & Hfail)].
      * left. exists (a :: r). split; [unfold bind; by rewrite Hkey, Hr|].
        constructor; [by rewrite Hkey|done].
      * right. exists e. split; [unfold bind; by rewrite Hkey, He|].
        exists k. split; [by right|done].
    + right. exists e. split; [unfold bind; by rewrite Hkey|].
      exists key. split; [by left|by rewrite Hkey].
Qed.

(** The [try]/[catch] around a fan-out: the complete list and an untouched
    world, or the empty list and one error line. *)
Lemma fanout_cases {A} (f : string → Eff A) ids msg w :
  (∀ key, reads_upstream (f key)) →
  let m := try_catch
             (match ids with
              | [] => ret []
              | _ => IntegrationService.promise_all f ids
              end)
             (λ _, run logger_error msg; ret []) in
  (∃ r, m w = (Normal r, w) ∧ Forall2 (λ key a, fst (f key w) = Normal a) ids r)
  ∨ (m w = (Normal [], snd (logger_error msg w))
     ∧ ∃ key e, key ∈ ids ∧ fst (f key w) = Thrown e).
Proof.
  intros Hf m. subst m. unfold try_catch, IntegrationService.promise_all.
  destruct (map_eff_reads f ids w Hf) as [(r & Hr & Hall)|(e & He & key & Hkey & Hfail)].
  - left. exists r. split; [|done].
    destruct ids; [by inversion Hall; subst|by rewrite Hr].
  - right. split; [|eauto]. destruct ids; [by apply elem_of_nil in Hkey|by rewrite He].
Qed.

Lemma fanout_reads_result {A} (f : string → Eff A) ids msg w1 w2 :
  (∀ key, reads_upstream (f key)) →
  upstream w1 = upstream w2 →
  let m := try_catch
             (match ids with
              | [] => ret []
              | _ => IntegrationService.promise_all f ids
              end)
             (λ _, run logger_error msg; ret []) in
  fst (m w1) = fst (m w2).
Proof.
  intros Hf Hu m. subst m. unfold try_catch, IntegrationService.promise_all.
  destruct ids as [|key ids]; [done|].
  destruct (reads_upstream_map_eff f (key :: ids) Hf) as [_ Hfst].
  specialize (Hfst w1 w2 Hu).
  destruct (map_eff f (key :: ids) w1) as [[r1|e1] w1'],
           (map_eff f (key :: ids) w2) as [[r2|e2] w2']; by simplify_eq/=.
Qed.

Ltac solve_available :=
  repeat (case_match; simpl in *; simplify_eq);
  (split; [intros [? ?]; by simplify_eq | intros ?; simplify_eq; eauto]).

Lemma fetch_issue_available key w :
  (∃ a, fst (IntegrationService.fetch_issue key w) = Normal a)
  ↔ issue_available (upstream w) key = true.
Proof.
  cbv [IntegrationService.fetch_issue IntegrationService.jiraClient_get
       IntegrationService.env bind get_world ret throw issue_available].
  solve_available.
Qed.

Lemma fetch_commit_available hash w :
  (∃ a, fst (IntegrationService.fetch_commit hash w) = Normal a)
  ↔ commit_available (upstream w) hash = true.
Proof.
  cbv [IntegrationService.fetch_commit IntegrationService.githubClient_get
       IntegrationService.env bind get_world ret throw commit_available].
  solve_available.
Qed.

Lemma fetch_deployment_available key w :
  (∃ a, fst (IntegrationService.fetch_deployment key w) = Normal a)
  ↔ build_available (upstream w) key = true.
Proof.
  cbv [IntegrationService.fetch_deployment IntegrationService.jenkinsClient_get
       IntegrationService.env bind get_world ret throw build_available].
  solve_available.
Qed.

Lemma fetch_deployment_status_available key w :
  (∃ a, fst (IntegrationService.fetch_deployment_status key w) = Normal a)
  ↔ build_available (upstream w) key = true.
Proof.
  cbv [IntegrationService.fetch_deployment_status IntegrationService.jenkinsClient_get
       IntegrationService.env bind get_world ret throw build_available].
  solve_available.
Qed.

Lemma error_logged_mono msg w w' :
  audit_only w w' → error_logged msg w → error_logged msg w'.
Proof.
  intros (_&_&_&_&_&[extra Hd]) Hin. unfold error_logged. rewrite Hd.
  apply elem_of_app. by left.
Qed.

Lemma error_logged_logger_error msg w : error_logged msg (snd (logger_error msg w)).
Proof.
  unfold error_logged. simpl. apply elem_of_app. right.
  by apply list_elem_of_singleton.
Qed.

(** One guarded service call of a route: it completes normally; its result
    depends on the upstream systems only; when a request of the fan-out
    fails the result is empty and the failure is in the diagnostics;
    otherwise there is one element per identifier. *)
Lemma guarded_fanout {A} (f : string → Eff A) msg ids w :
  (∀ key, reads_upstream (f key)) →
  let service := λ l,
    try_catch
      (match l with
       | [] => ret []
       | _ => IntegrationService.promise_all f l
       end)
      (λ _, run logger_error msg; ret []) in
  ∃ r w',
    traceabilityRouter.when_nonempty ids service w = (Normal r, w')
    ∧ audit_only w w'
    ∧ (∀ w0, upstream w0 = upstream w →
         fst (traceabilityRouter.when_nonempty ids service w0) = Normal r)
    ∧ (r = [] ∨ length r = length (default [] ids))
    ∧ (∀ key e, key ∈ default [] ids → fst (f key w) = Thrown e →
         r = [] ∧ error_logged msg w').
Proof.
  intros Hf service.
  assert (∃ r w', traceabilityRouter.when_nonempty ids service w = (Normal r, w')
            ∧ audit_only w w'
            ∧ (r = [] ∨ length r = length (default [] ids))
            ∧ (∀ key e, key ∈ default [] ids → fst (f key w) = Thrown e →
                 r = [] ∧ error_logged msg w')) as (r & w' & Hrun & Hao & Hlen & Hfail).
  { destruct ids as [[|key0 ids]|]; simpl.
    - exists [], w. split; [done|]. split; [apply audit_only_refl|].
      split; [by left|]. by intros key e ?%elem_of_nil.
    - destruct (fanout_cases f (key0 :: ids) msg w Hf)
        as [(r & Hr & Hall)|(Hr & key & e & Hkey & He)].
      + exists r, w. split; [done|]. split; [apply audit_only_refl|].
        split; [right; symmetry; apply (Forall2_length _ _ _ Hall)|].
        intros key e Hkey He. exfalso.
        apply list_elem_of_lookup_1 in Hkey as [i Hi].
        destruct (Forall2_lookup_l _ _ _ _ _ Hall Hi) as (a & _ & Ha). congruence.
      + eexists [], _. split; [done|]. split; [apply logger_log_audit_only|].
        split; [by left|]. intros _ _ _ _. split; [done|].
        apply error_logged_logger_error.
    - exists [], w. split; [done|]. split; [apply audit_only_refl|].
      split; [by left|]. by intros key e ?%elem_of_nil. }
  exists r, w'. split_and!; [done..| |done|done].
  intros w0 Hu. transitivity (fst (traceabilityRouter.when_nonempty ids service w));
    [|by rewrite Hrun].
  destruct ids as [[|key0 ids]|]; simpl; [done| |done].
  by apply fanout_reads_result.
Qed.

Lemma getUserStories_spec :
  guarded_fanout_spec IntegrationService.getUserStories IntegrationService.fetch_issue
    (failure_message UserStoryKind).
Proof. intros ids w. apply (guarded_fanout IntegrationService.fetch_issue); auto with reads. Qed.

Lemma getTasks_spec :
  guarded_fanout_spec IntegrationService.getTasks IntegrationService.fetch_issue
    (failure_message TaskKind).
Proof. intros ids w. apply (guarded_fanout IntegrationService.fetch_issue); auto with reads. Qed.

Lemma getCodeCommits_spec :
  guarded_fanout_spec IntegrationService.getCodeCommits IntegrationService.fetch_commit
    (failure_message CodeCommitKind).
Proof. intros ids w. apply (guarded_fanout IntegrationService.fetch_commit); auto with reads. Qed.

Lemma getDeployments_spec :
  guarded_fanout_spec IntegrationService.getDeployments IntegrationService.fetch_deployment
    (failure_message DeploymentKind).
Proof.
  intros ids w. apply (guarded_fanout IntegrationService.fetch_deployment); auto with reads.
Qed.

Lemma getDeploymentStatus_spec :
  guarded_fanout_spec IntegrationService.getDeploymentStatus
    IntegrationService.fetch_deployment_status
    "IntegrationService.getDeploymentStatus error:".
Proof.
  intros ids w.
  apply (guarded_fanout IntegrationService.fetch_deployment_status); auto with reads.
Qed.

Lemma getTestCases_spec ids w :
  ∃ r, traceabilityRouter.when_nonempty ids IntegrationService.getTestCases w
       = (Normal r, w)
     ∧ (∀ w0, fst (traceabilityRouter.when_nonempty ids IntegrationService.getTestCases w0)
              = Normal r)
     ∧ length r = length (default [] ids).
Proof.
  destruct ids as [[|key ids]|]; simpl; eexists; (split; [reflexivity|]);
    (split; [done|]); simpl; by rewrite ?length_fmap.
Qed.

(** A thrown completion of a request is the unavailability of its
    source. *)
Lemma unavailable_throws {A} (f : string → Eff A) (avail : Upstream → string → bool) :
  (∀ key w, (∃ a, fst (f key w) = Normal a) ↔ avail (upstream w) key = true) →
  ∀ key w, avail (upstream w) key = false → ∃ e, fst (f key w) = Thrown e.
Proof.
  intros Hav key w Hfalse. destruct (fst (f key w)) as [a|e] eqn:Hf; [|eauto].
  assert (avail (upstream w) key = true) by (apply Hav; eauto). congruence.
Qed.

(** What [enrich] returns: each list is what the aggregation of its kind
    returns on its own, and a kind whose fan-out fails is empty. *)
Lemma enrich_spec r w :
  ∃ e w',
    traceabilityRouter.enrich r w = (Normal e, w')
    ∧ audit_only w w'
    ∧ base e = r
    ∧ (∀ k w0, upstream w0 = upstream w →
         fst (aggregate k (identifiers k r) w0) = Normal (enriched_list k e))
    ∧ (∀ k, enriched_list k e = []
            ∨ length (enriched_list k e) = length (default [] (identifiers k r)))
    ∧ (∀ k key, key ∈ default [] (identifiers k r) →
         source_available k (upstream w) key = false →
         enriched_list k e = [] ∧ error_logged (failure_message k) w').
Proof.
  unfold traceabilityRouter.enrich.
  destruct (getUserStories_spec (userStoryIds r) w) as (l1 & w1 & H1 & A1 & U1 & N1 & F1).
  destruct (getTasks_spec (taskIds r) w1) as (l2 & w2 & H2 & A2 & U2 & N2 & F2).
  destruct (getTestCases_spec (testCaseIds r) w2) as (l3 & H3 & U3 & N3).
  destruct (getCodeCommits_spec (codeCommitIds r) w2) as (l4 & w4 & H4 & A4 & U4 & N4 & F4).
  destruct (getDeployments_spec (deploymentIds r) w4) as (l5 & w5 & H5 & A5 & U5 & N5 & F5).
  eexists _, w5. split.
  { unfold bind. rewrite H1, H2, H3, H4, H5. reflexivity. }
  pose proof (audit_only_trans _ _ _ A1 A2) as A12.
  pose proof (audit_only_trans _ _ _ A12 A4) as A14.
  pose proof (audit_only_trans _ _ _ A14 A5) as A15.
  assert (upstream w1 = upstream w) as E1 by apply A1.
  assert (upstream w2 = upstream w) as E2 by apply A12.
  assert (upstream w4 = upstream w) as E4 by apply A14.
  split; [done|]. split; [done|]. split; [|split].
  - intros k w0 Hu. destruct k; simpl; unfold bind.
    + specialize (U1 w0 Hu). by destruct (traceabilityRouter.when_nonempty _ _ w0) as [[?|?] ?]; simplify_eq/=.
    + specialize (U2 w0 ltac:(congruence)). by destruct (traceabilityRouter.when_nonempty _ _ w0) as [[?|?] ?]; simplify_eq/=.
    + specialize (U3 w0). by destruct (traceabilityRouter.when_nonempty _ _ w0) as [[?|?] ?]; simplify_eq/=.
    + specialize (U4 w0 ltac:(congruence)). by destruct (traceabilityRouter.when_nonempty _ _ w0) as [[?|?] ?]; simplify_eq/=.
    + specialize (U5 w0 ltac:(congruence)). by destruct (traceabilityRouter.when_nonempty _ _ w0) as [[?|?] ?]; simplify_eq/=.
  - intros k. destruct k; simpl; rewrite ?length_fmap.
    + destruct N1 as [Hn|Hn]; [left; by rewrite Hn|by right].
    + destruct N2 as [Hn|Hn]; [left; by rewrite Hn|by right].
    + by right.
    + destruct N4 as [Hn|Hn]; [left; by rewrite Hn|by right].
    + destruct N5 as [Hn|Hn]; [left; by rewrite Hn|by right].
  - intros k key Hkey Hav. destruct k; simpl in *.
    + destruct (unavailable_throws _ _ fetch_issue_available key w Hav) as [e He].
      destruct (F1 key e Hkey He) as [-> Hlog]. split; [done|].
      apply (error_logged_mono _ w1); [|done].
      apply (audit_only_trans _ w2); [done|]. by apply (audit_only_trans _ w4).
    + rewrite <-E1 in Hav.
      destruct (unavailable_throws _ _ fetch_issue_available key w1 Hav) as [e He].
      destruct (F2 key e Hkey He) as [-> Hlog]. split; [done|].
      apply (error_logged_mono _ w2); [|done]. by apply (audit_only_trans _ w4).
    + done.
    + rewrite <-E2 in Hav.
      destruct (unavailable_throws _ _ fetch_commit_available key w2 Hav) as [e He].
      destruct (F4 key e Hkey He) as [-> Hlog]. split; [done|].
      by apply (error_logged_mono _ w4).
    + rewrite <-E4 in Hav.
      destruct (unavailable_throws _ _ fetch_deployment_available key w4 Hav) as [e He].
      by destruct (F5 key e Hkey He) as [-> Hlog].
Qed.

(** ** The requirement repository when it is available *)

Lemma requirement_repo_op_up w :
  requirement_repo_up w →
  requirement_repo_op w = (Normal tt, after_requirement_op w).
Proof.
  unfold requirement_repo_up, requirement_repo_op, after_requirement_op.
  intros Hup. destruct w as [rs al dg rf af ag up]; simpl in *.
  destruct rf as [|[] rest]; [done| |done]. by apply Forall_cons in Hup as [? _].
Qed.

Lemma after_requirement_op_up w :
  requirement_repo_up w → requirement_repo_up (after_requirement_op w).
Proof.
  unfold requirement_repo_up. simpl. intros Hup.
  destruct (requirement_faults w); [done|]. by apply Forall_cons in Hup as [_ ?].
Qed.

Lemma after_requirement_op_quiet w : quiet w (after_requirement_op w).
Proof. repeat split; [|done]. apply after_requirement_op_up. Qed.

Lemma requirementRepo_findOne_up key w :
  requirement_repo_up w →
  requirementRepo_findOne key w = (Normal (requirements w !! key), after_requirement_op w).
Proof.
  intros Hup. unfold requirementRepo_findOne, bind.
  by rewrite requirement_repo_op_up.
Qed.

Lemma requirementRepo_find_up w :
  requirement_repo_up w →
  requirementRepo_find w
  = (Normal ((map_to_list (requirements w)).*2), after_requirement_op w).
Proof.
  intros Hup. unfold requirementRepo_find, bind.
  by rewrite requirement_repo_op_up.
Qed.

Lemma requirementRepo_save_up r w :
  requirement_repo_up w →
  requirementRepo_save r w
  = (Normal (saved_entity w r), after_save r (after_requirement_op w)).
Proof.
  intros Hup. unfold requirementRepo_save. unfold bind at 1.
  by rewrite requirement_repo_op_up.
Qed.

(** ** The [simple-array] codec *)

Lemma append_cons c (s t : string) : String c s ++ t = String c (s ++ t).
Proof. reflexivity. Qed.

Lemma append_nil_l (t : string) : EmptyString ++ t = t.
Proof. reflexivity. Qed.

Lemma append_assoc (s t u : string) : (s ++ t) ++ u = s ++ (t ++ u).
Proof. induction s as [|c s IH]; [done|]. by rewrite !append_cons, IH. Qed.

Lemma split_without_separator sep s :
  Js.occurs sep s = false → Js.split sep s = [s].
Proof.
  induction s as [|c s IH]; [done|]. cbn [Js.occurs Js.split].
  intros [Hc Hs]%orb_false_elim. rewrite Hc, IH by done. done.
Qed.

Lemma split_piece sep s t :
  Js.occurs sep s = false →
  Js.split sep (s ++ String sep t) = s :: Js.split sep t.
Proof.
  induction s as [|c s IH]; intros Hs.
  - rewrite append_nil_l. cbn [Js.split]. by rewrite Ascii.eqb_refl.
  - cbn [Js.occurs] in Hs. apply orb_false_elim in Hs as [Hc Hs].
    rewrite append_cons. cbn [Js.split]. by rewrite Hc, IH.
Qed.

Lemma storable_spec x :
  storable x = true ↔ x ≠ EmptyString ∧ Js.occurs ","%char x = false.
Proof.
  unfold storable. rewrite andb_true_iff, !negb_true_iff, String.eqb_neq. tauto.
Qed.

Lemma split_join ids :
  ids ≠ [] →
  forallb storable ids = true →
  Js.split ","%char (Js.join "," ids) = ids.
Proof.
  induction ids as [|x ids IH]; [done|]. intros _ Hall.
  cbn [forallb] in Hall. apply andb_true_iff in Hall as [Hx Hall].
  apply storable_spec in Hx as [_ Hx].
  destruct ids as [|y ids].
  - cbn [Js.join]. by apply split_without_separator.
  - change (Js.join "," (x :: y :: ids)) with (x ++ "," ++ Js.join "," (y :: ids)).
    rewrite append_cons, append_nil_l, split_piece by done.
    by rewrite IH.
Qed.

(** A list of identifiers without commas, none of them empty, is written
    and read back as it is. *)
Lemma round_trip_storable ids : forallb storable ids = true → Orm.round_trip ids = ids.
Proof.
  intros Hall. unfold Orm.round_trip, Orm.simple_array_read, Orm.simple_array_write.
  destruct ids as [|x ids]; [done|].
  rewrite <-(split_join (x :: ids)) at 2 by done.
  cbn [forallb] in Hall. apply andb_true_iff in Hall as [Hx _].
  apply storable_spec in Hx as [Hx _].
  destruct x as [|c x]; [done|].
  destruct ids as [|y ids]; [done|].
  change (Js.join "," (String c x :: y :: ids))
    with (String c x ++ "," ++ Js.join "," (y :: ids)).
  by rewrite append_cons.
Qed.

Lemma identifiers_stored k r :
  identifiers k (Orm.stored r) = Orm.round_trip <$> identifiers k r.
Proof. by destruct k. Qed.

Lemma identifiers_refreshed k now r :
  identifiers k (Orm.refreshed now r) = identifiers k r.
Proof. by destruct k. Qed.

(** An entity that has the lists of a readable row is stored as it is. *)
Lemma split_not_nil sep s : Js.split sep s ≠ [].
Proof.
  destruct s as [|c s]; [done|]. simpl. destruct (Ascii.eqb c sep); [done|].
  by destruct (Js.split sep s).
Qed.

Lemma join_cons_string c piece pieces sep :
  Js.join sep (String c piece :: pieces) = String c (Js.join sep (piece :: pieces)).
Proof. by destruct pieces. Qed.

Lemma join_split t : Js.join "," (Js.split ","%char t) = t.
Proof.
  induction t as [|c t IH]; [done|]. cbn [Js.split].
  pose proof (split_not_nil ","%char t) as Hne.
  destruct (Ascii.eqb_spec c ","%char) as [->|Hc];
    destruct (Js.split ","%char t) as [|p ps] eqn:E; try done.
  - change (Js.join "," (EmptyString :: p :: ps))
      with (EmptyString ++ "," ++ Js.join "," (p :: ps)).
    by rewrite IH.
  - by rewrite join_cons_string, IH.
Qed.

(** What was read once is read again as it is. *)
Lemma round_trip_idempotent ids : Orm.round_trip (Orm.round_trip ids) = Orm.round_trip ids.
Proof.
  unfold Orm.round_trip, Orm.simple_array_write, Orm.simple_array_read.
  destruct (Js.join "," ids) as [|c t] eqn:E; [done|].
  by rewrite join_split.
Qed.

Lemma stored_is_readable r : readable (Orm.stored r).
Proof.
  unfold readable, Orm.stored. simpl. f_equal;
    match goal with |- _ <$> (_ <$> ?l) = _ => destruct l as [ids|] end; simpl;
    by rewrite ?round_trip_idempotent.
Qed.

Lemma stored_readable r e :
  readable r → (∀ k, identifiers k e = identifiers k r) → Orm.stored e = e.
Proof.
  unfold readable. intros Hr He.
  pose proof (He UserStoryKind) as H1. pose proof (He TaskKind) as H2.
  pose proof (He TestCaseKind) as H3. pose proof (He CodeCommitKind) as H4.
  pose proof (He DeploymentKind) as H5.
  destruct r, e. unfold Orm.stored in *. simpl in *. subst.
  injection Hr as E1 E2 E3 E4 E5. by f_equal.
Qed.

(** ** The routes of the router *)

Lemma assign_links_iterable r b u :
  first_not_iterable b = None →
  traceabilityRouter.assign_links r b u = ret (traceabilityRouter.link_into r b u).
Proof. intros Hb. unfold traceabilityRouter.assign_links. by rewrite Hb. Qed.

(** The link route on a stored requirement, when the repository is
    available and every supplied field is iterable: the merged entity is
    written under its id, and sent back with the [updatedAt] of the
    write. *)
Lemma post_requirement_link_found req w r :
  requirement_repo_up w →
  requirements w !! req_params_id req = Some r →
  first_not_iterable (req_body req) = None →
  let saved :=
    saved_entity w (traceabilityRouter.link_into r (req_body req) (req_user req)) in
  ∃ w',
    traceabilityRouter.post_requirement_link req w
    = (Normal (json_response 200 (MessageBody "Artifacts linked successfully" saved)), w')
    ∧ requirements w' = <[id r := Orm.stored saved]> (requirements w)
    ∧ upstream w' = upstream w
    ∧ requirement_repo_up w'.
Proof.
  intros Hup Hfound Hiter saved.
  unfold traceabilityRouter.post_requirement_link, try_catch. cbv zeta.
  rewrite (bind_returns _ _ _ _ _ (requirementRepo_findOne_up _ w Hup)), Hfound.
  rewrite assign_links_iterable, bind_ret_l by done.
  rewrite (bind_returns _ _ _ _ _
             (requirementRepo_save_up _ _ (after_requirement_op_up w Hup))).
  match goal with
  | |- context [AuditLogService.logModification ?u ?a ?d ?o] =>
      destruct (logModification_returns u a d o
                  (after_save (traceabilityRouter.link_into r (req_body req) (req_user req))
                     (after_requirement_op (after_requirement_op w))))
        as ([] & w' & Hlog & Hr & Hf & Hu & _)
  end.
  rewrite (bind_returns _ _ _ _ _ Hlog).
  exists w'. split; [done|]. split; [by rewrite Hr|].
  split; [by rewrite Hu|].
  unfold requirement_repo_up. rewrite Hf.
  by do 2 apply after_requirement_op_up.
Qed.

Example sample_link :
  fst (app.link_route Sample.link_request Sample.world)
  = Normal (json_response 200 (MessageBody "Artifacts linked successfully"
      (saved_entity Sample.world
         (traceabilityRouter.link_into Sample.login (req_body Sample.link_request)
            (Some Sample.victor))))).
Proof. vm_compute. reflexivity. Qed.

Example sample_link_ids :
  userStoryIds (traceabilityRouter.link_into Sample.login (req_body Sample.link_request)
                  (Some Sample.victor))
  = Some ["s1"; "s2"; "s3"].
Proof. vm_compute. reflexivity. Qed.

Lemma identifiers_link_into k r b u :
  identifiers k (traceabilityRouter.link_into r b u)
  = traceabilityRouter.merge_ids (identifiers k r) (submitted k b).
Proof. by destruct k. Qed.

(** The merge of one kind, as a list operation. *)
Lemma merge_ids_union existing ids :
  ∃ merged,
    traceabilityRouter.merge_ids existing (Some ids) = Some merged
    ∧ merged = Js.first_occurrences (default [] existing ++ ids)
    ∧ NoDup merged
    ∧ (∀ x, x ∈ merged ↔ x ∈ default [] existing ∨ x ∈ ids)
    ∧ (∀ x, x ∈ default [] existing ∨ x ∈ ids → count_occ string_dec merged x = 1%nat)
    ∧ Js.array_from_set (default [] existing) `prefix_of` merged
    ∧ (NoDup (default [] existing) → default [] existing `prefix_of` merged).
Proof.
  eexists. split; [reflexivity|].
  assert (∀ x, x ∈ Js.array_from_set (default [] existing ++ ids)
               ↔ x ∈ default [] existing ∨ x ∈ ids) as Hin.
  { intros x. by rewrite elem_of_array_from_set, elem_of_app. }
  assert (Js.array_from_set (default [] existing) `prefix_of`
          Js.array_from_set (default [] existing ++ ids)) as Hpre.
  { unfold Js.array_from_set. rewrite set_add_all_app. apply set_add_all_prefix. }
  split_and!.
  - apply array_from_set_first_occurrences.
  - apply NoDup_array_from_set.
  - done.
  - intros x Hx. apply count_occ_NoDup; [apply NoDup_array_from_set|by apply Hin].
  - done.
  - intros Hnd. by rewrite array_from_set_NoDup in Hpre.
Qed.

(** Merging into a list that has no duplicates: the list stays in front,
    and identifiers that it already holds change nothing. *)
Lemma merge_ids_again merged ids :
  NoDup merged →
  ∃ merged',
    traceabilityRouter.merge_ids (Some merged) (Some ids) = Some merged'
    ∧ merged `prefix_of` merged'
    ∧ ((∀ x, x ∈ ids → x ∈ merged) → merged' = merged).
Proof.
  intros Hnd. eexists. split; [reflexivity|]. simpl.
  unfold Js.array_from_set. rewrite set_add_all_app.
  fold (Js.array_from_set merged). rewrite (array_from_set_NoDup merged Hnd).
  split; [apply set_add_all_prefix|apply set_add_all_known].
Qed.

Lemma forallb_storable_merged existing ids merged :
  (∀ x, x ∈ merged ↔ x ∈ existing ∨ x ∈ ids) →
  forallb storable existing = true →
  forallb storable ids = true →
  forallb storable merged = true.
Proof.
  rewrite !forallb_forall. intros Hin Hex Hids x Hx%list_elem_of_In.
  apply Hin in Hx as [Hx|Hx]; [apply Hex|apply Hids]; by apply list_elem_of_In.
Qed.




(** The flags route on a stored requirement, when the repository is
    available. *)
Lemma patch_requirement_flags_found req w r :
  requirement_repo_up w →
  requirements w !! req_params_id req = Some r →
  let saved :=
    saved_entity w (traceabilityRouter.flags_into r (req_body req) (req_user req)) in
  ∃ w',
    traceabilityRouter.patch_requirement_flags req w
    = (Normal (json_response 200 (MessageBody "Flags updated successfully" saved)), w')
    ∧ requirements w' = <[id r := Orm.stored saved]> (requirements w)
    ∧ upstream w' = upstream w
    ∧ requirement_repo_up w'.
Proof.
  intros Hup Hfound saved.
  unfold traceabilityRouter.patch_requirement_flags, try_catch. cbv zeta.
  rewrite (bind_returns _ _ _ _ _ (requirementRepo_findOne_up _ w Hup)), Hfound.
  rewrite (bind_returns _ _ _ _ _
             (requirementRepo_save_up _ _ (after_requirement_op_up w Hup))).
  match goal with
  | |- context [AuditLogService.logModification ?u ?a ?d ?o] =>
      destruct (logModification_returns u a d o
                  (after_save (traceabilityRouter.flags_into r (req_body req) (req_user req))
                     (after_requirement_op (after_requirement_op w))))
        as ([] & w' & Hlog & Hr & Hf & Hu & _)
  end.
  rewrite (bind_returns _ _ _ _ _ Hlog).
  exists w'. split; [done|]. split; [by rewrite Hr|].
  split; [by rewrite Hu|].
  unfold requirement_repo_up. rewrite Hf.
  by do 2 apply after_requirement_op_up.
Qed.

(** C6, as the code has it.  The flags route is a partial update.  On a
    stored requirement, a row as a read returns it, it saves and sends back
    an entity in which a flag
    has the submitted value when that value is a boolean and its stored
    value otherwise (so a call that supplies only [hasFailedTests] leaves
    [hasDeploymentRollback] as stored, and conversely), [updatedBy] is the
    caller's name, and every other field but [updatedAt] is the stored one;
    the other rows of the table are the same.  [updatedAt] is left to the
    database, which refreshes it on the write. *)
Theorem update_flags_is_partial (req : Request) (w : World) (r : Requirement) :
  requirement_repo_up w →
  requirements w !! req_params_id req = Some r →
  id r = req_params_id req →
  readable r →
  ∃ w' r',
    traceabilityRouter.patch_requirement_flags req w
      = (Normal (json_response 200 (MessageBody "Flags updated successfully" r')), w')
    ∧ requirements w' !! id r = Some r'
    ∧ (∀ key, key ≠ id r → requirements w' !! key = requirements w !! key)
    ∧ (Js.is_boolean (body_hasDeploymentRollback (req_body req)) = None →
         hasDeploymentRollback r' = hasDeploymentRollback r)
    ∧ (Js.is_boolean (body_hasFailedTests (req_body req)) = None →
         hasFailedTests r' = hasFailedTests r)
    ∧ (∀ b, body_hasFailedTests (req_body req) = Js.Bool b → hasFailedTests r' = b)
    ∧ (∀ b, body_hasDeploymentRollback (req_body req) = Js.Bool b →
         hasDeploymentRollback r' = b)
    ∧ updatedBy r' = Some (Js.str_or (username <$> req_user req) "system")
    ∧ id r' = id r ∧ title r' = title r ∧ description r' = description r
    ∧ priority r' = priority r ∧ status r' = status r
    ∧ (∀ k, identifiers k r' = identifiers k r)
    ∧ createdBy r' = createdBy r ∧ createdAt r' = createdAt r.
Proof.
  intros Hup Hfound Hid Hreadable.
  destruct (patch_requirement_flags_found req w r Hup Hfound)
    as (w' & Hrun & Hstore & _ & _).
  set (r' := saved_entity w
               (traceabilityRouter.flags_into r (req_body req) (req_user req))) in *.
  assert (∀ k, identifiers k r' = identifiers k r) as Hlists by (by intros []).
  rewrite (stored_readable r r' Hreadable Hlists) in Hstore.
  exists w', r'. split; [exact Hrun|].
  split; [rewrite Hstore; apply lookup_insert_eq|].
  split; [intros key Hkey; rewrite Hstore; by apply lookup_insert_ne|].
  simpl. split_and!; try done.
  - by intros ->.
  - by intros ->.
  - by intros b ->.
  - by intros b ->.
Qed.

(** The theorem at the sample request that sets [hasFailedTests] only. *)
Lemma update_flags_is_partial_witness :
  ∃ w' r',
    traceabilityRouter.patch_requirement_flags Sample.flags_request Sample.world
      = (Normal (json_response 200 (MessageBody "Flags updated successfully" r')), w')
    ∧ requirements w' !! id Sample.login = Some r'
    ∧ (∀ key, key ≠ id Sample.login →
         requirements w' !! key = requirements Sample.world !! key)
    ∧ (Js.is_boolean (body_hasDeploymentRollback (req_body Sample.flags_request)) = None →
         hasDeploymentRollback r' = hasDeploymentRollback Sample.login)
    ∧ (Js.is_boolean (body_hasFailedTests (req_body Sample.flags_request)) = None →
         hasFailedTests r' = hasFailedTests Sample.login)
    ∧ (∀ b, body_hasFailedTests (req_body Sample.flags_request) = Js.Bool b →
         hasFailedTests r' = b)
    ∧ (∀ b, body_hasDeploymentRollback (req_body Sample.flags_request) = Js.Bool b →
         hasDeploymentRollback r' = b)
    ∧ updatedBy r' = Some (Js.str_or (username <$> req_user Sample.flags_request) "system")
    ∧ id r' = id Sample.login ∧ title r' = title Sample.login
    ∧ description r' = description Sample.login
    ∧ priority r' = priority Sample.login ∧ status r' = status Sample.login
    ∧ (∀ k, identifiers k r' = identifiers k Sample.login)
    ∧ createdBy r' = createdBy Sample.login ∧ createdAt r' = createdAt Sample.login.
Proof.
  apply (update_flags_is_partial Sample.flags_request Sample.world Sample.login).
  - constructor.
  - reflexivity.
  - reflexivity.
  - reflexivity.
Defined.

(** C6, the counterexample.  The request sets [hasFailedTests] of [r1]; the
    row that the table holds afterwards, and the entity that the route
    sends back, have the [updatedAt] of the write and not the one that was
    stored: a field other than the supplied flag and [updatedBy] has
    changed. *)
Lemma flags_update_refreshes_updatedAt :
  let answer := app.flags_route Sample.flags_request Sample.world in
  updatedAt <$> requirements Sample.world !! "r1" = Some 1700000000000
  ∧ updatedAt <$> requirements (snd answer) !! "r1" = Some 1700000100000
  ∧ (∃ r', fst answer
           = Normal (json_response 200 (MessageBody "Flags updated successfully" r'))
         ∧ updatedAt r' = 1700000100000)
  ∧ hasFailedTests <$> requirements Sample.world !! "r1" = Some false
  ∧ hasFailedTests <$> requirements (snd answer) !! "r1" = Some true.
Proof.
  split_and!; [vm_compute; reflexivity..| |vm_compute; reflexivity|vm_compute; reflexivity].
  eexists. split; vm_compute; reflexivity.
Qed.

Example sample_flags :
  (hasFailedTests <$> requirements
     (snd (app.flags_route Sample.flags_request Sample.world)) !! "r1",
   hasDeploymentRollback <$> requirements
     (snd (app.flags_route Sample.flags_request Sample.world)) !! "r1")
  = (Some true, Some false).
Proof. vm_compute. reflexivity. Qed.

(** ** The middlewares *)

Lemma rolePermissions_entry (r : UserRole) :
  ∃ perms, own_property (role_value r) rolePermissions = Some perms
           ∧ rolePermissions_get (role_value r) = OwnArray perms.
Proof. destruct r; eexists; split; reflexivity. Qed.

Example rolePermissions_table :
  (λ r, own_property (role_value r) rolePermissions) <$> all_roles
  = [ Some ["*"]; Some ["view"; "export"; "audit"]; Some ["view"; "report"];
      Some ["view"; "link"; "report"]; Some ["view"; "report"; "flag"];
      Some ["view"] ].
Proof. reflexivity. Qed.

Lemma includes_elem_of perms t : includes perms t = true ↔ t ∈ perms.
Proof. unfold includes. apply bool_decide_eq_true. Qed.

Lemma forallb_includes perms required :
  forallb (includes perms) required = true ↔ ∀ t, t ∈ required → t ∈ perms.
Proof.
  rewrite forallb_forall. setoid_rewrite includes_elem_of.
  by setoid_rewrite list_elem_of_In.
Qed.

Lemma logUnauthorizedAccess_spec ip url un ur w :
  ∃ w',
    AuditLogService.logUnauthorizedAccess ip url un ur w = (Normal tt, w')
    ∧ audit_only w w'
    ∧ (audit_repo_up w →
         audit_logs w' =
           (audit_logs w ++
              [{| log_id := fst (audit_generated w (length (audit_logs w)));
                  log_action := "UNAUTHORIZED_ACCESS";
                  log_username := un; log_role := ur;
                  log_details := Some (Js.stringify (Js.Obj [("url", Js.Str url)]));
                  log_ip := Some ip;
                  log_timestamp := snd (audit_generated w (length (audit_logs w))) |}])%list).
Proof.
  unfold AuditLogService.logUnauthorizedAccess.
  destruct (decide (audit_repo_up w)) as [Hup|Hdown].
  - destruct (record_up
      {| draft_action := "UNAUTHORIZED_ACCESS"; draft_username := un; draft_role := ur;
         draft_details := Some (Js.stringify (Js.Obj [("url", Js.Str url)]));
         draft_ip := Some ip |} LWarn "AuditLog: Unauthorized access attempt"
      "AuditLogService.logUnauthorizedAccess error:" w Hup) as (w' & Hrun & Hao & _ & Hrows).
    exists w'. by split_and!.
  - destruct (record_never_throws
      {| draft_action := "UNAUTHORIZED_ACCESS"; draft_username := un; draft_role := ur;
         draft_details := Some (Js.stringify (Js.Obj [("url", Js.Str url)]));
         draft_ip := Some ip |} LWarn "AuditLog: Unauthorized access attempt"
      "AuditLogService.logUnauthorizedAccess error:" w) as (w' & Hrun & Hao & _).
    exists w'. by split_and!.
Qed.

(** Without a principal the answer is 401. *)
Lemma authorize_unauthenticated required req w :
  req_user req = None →
  returns (authorize required req) w (λ o w', o = Unauthorized401 ∧ audit_only w w').
Proof.
  intros Hnone. unfold returns, authorize, try_catch. rewrite Hnone.
  unfold logger_warn. rewrite bind_logger_log.
  destruct (logUnauthorizedAccess_spec (req_ip req) (req_originalUrl req) None None
    (set_diagnostics
       (λ d, d ++ [{| level := LWarn; message := "Access denied: No user in request" |}])%list
       w)) as (w' & Hlog & Hao & _).
  rewrite (bind_returns _ _ _ _ _ Hlog).
  eexists _, _. split; [reflexivity|]. split; [done|].
  eapply audit_only_trans; [|done]. frame.
Qed.

(** With a principal whose role has an own entry in the table: [next()]
    and nothing else, or 403 and one audit row for the caller. *)
Lemma authorize_own_entry required req w u perms :
  req_user req = Some u →
  rolePermissions_get (role u) = OwnArray perms →
  (includes perms "*" || forallb (includes perms) required = true
   ∧ authorize required req w = (Normal Next, w))
  ∨ (includes perms "*" || forallb (includes perms) required = false
     ∧ returns (authorize required req) w (λ o w',
         o = Forbidden403 ∧ audit_only w w'
         ∧ (audit_repo_up w →
              audit_logs w' = (audit_logs w ++ [unauthorized_row w req u])%list))).
Proof.
  intros Huser Hget. unfold returns, authorize, try_catch. rewrite Huser, Hget.
  rewrite bind_ret_l.
  destruct (includes perms "*") eqn:Hstar; simpl; [by left|].
  destruct (forallb (includes perms) required) eqn:Hall; simpl; [by left|].
  right. split; [done|].
  unfold logger_warn. rewrite bind_logger_log.
  destruct (logUnauthorizedAccess_spec (req_ip req) (req_originalUrl req)
    (Some (username u)) (Some (role u))
    (set_diagnostics
       (λ d, d ++ [{| level := LWarn;
                      message := "Access denied: Insufficient permissions" |}])%list
       w)) as (w' & Hlog & Hao & Hrows).
  rewrite (bind_returns _ _ _ _ _ Hlog).
  eexists _, _. split; [reflexivity|]. split; [done|]. split.
  - eapply audit_only_trans; [|done]. frame.
  - intros Hup. by rewrite Hrows.
Qed.

(** A role that is neither a key of the table nor a name that
    [Object.prototype] defines has no permission. *)
Lemma authorize_missing_entry required req w u :
  req_user req = Some u →
  rolePermissions_get (role u) = Missing →
  (required = [] ∧ authorize required req w = (Normal Next, w))
  ∨ (required ≠ []
     ∧ returns (authorize required req) w (λ o w', o = Forbidden403 ∧ audit_only w w')).
Proof.
  intros Huser Hget. unfold returns, authorize, try_catch. rewrite Huser, Hget.
  rewrite bind_ret_l.
  destruct required as [|t required]; [by left|]. right. split; [done|]. simpl.
  unfold logger_warn. rewrite bind_logger_log.
  destruct (logUnauthorizedAccess_spec (req_ip req) (req_originalUrl req)
    (Some (username u)) (Some (role u))
    (set_diagnostics
       (λ d, d ++ [{| level := LWarn;
                      message := "Access denied: Insufficient permissions" |}])%list
       w)) as (w' & Hlog & Hao & Hrows).
  rewrite (bind_returns _ _ _ _ _ Hlog).
  eexists _, _. split; [reflexivity|]. split; [done|].
  eapply audit_only_trans; [|done]. frame.
Qed.

(** A role that names a member of [Object.prototype]: the [includes] call
    throws, the [catch] answers 500, whatever is required. *)
Lemma authorize_inherited_entry required req w u name :
  req_user req = Some u →
  rolePermissions_get (role u) = Inherited name →
  authorize required req w
  = (Normal InternalError500,
     set_diagnostics
       (λ d, d ++ [{| level := LError; message := "RBAC middleware error:" |}])%list w).
Proof.
  intros Huser Hget. unfold authorize, try_catch. by rewrite Huser, Hget.
Qed.

Lemma grants_all perms required :
  includes perms "*" || forallb (includes perms) required = true
  ↔ ∀ t, t ∈ required → grants perms t.
Proof.
  unfold grants. rewrite orb_true_iff, includes_elem_of, forallb_includes. split.
  - intros [?|Hall] t Ht; [by left|right; by apply Hall].
  - intros Hall. destruct (decide ("*" ∈ perms)) as [?|Hno]; [by left|].
    right. intros t Ht. by destruct (Hall t Ht).
Qed.

(** C2.  [authorize] follows the permission table.  For a caller whose
    role is a member of the enum, with [perms] the entry of that role in
    [rolePermissions]: the middleware calls [next()] exactly when [perms]
    grants every required token (it lists the token, or it lists the
    wildcard); otherwise it answers 403; with the wildcard in [perms] it
    calls [next()] for every list of required tokens, whichever they are;
    without the wildcard it calls [next()] exactly when every required
    token is listed in [perms].  Without a caller it answers 401, whatever
    is required. *)
Theorem authorize_follows_policy (r : UserRole) (u : User) (perms required : list string)
    (req anonymous : Request) (w : World) :
  own_property (role_value r) rolePermissions = Some perms →
  req_user req = Some u →
  role u = role_value r →
  req_user anonymous = None →
  (fst (authorize required req w) = Normal Next ↔ ∀ t, t ∈ required → grants perms t)
  ∧ (fst (authorize required req w) = Normal Next
     ∨ fst (authorize required req w) = Normal Forbidden403)
  ∧ ("*" ∈ perms → fst (authorize required req w) = Normal Next)
  ∧ ("*" ∉ perms →
       (fst (authorize required req w) = Normal Next ↔ ∀ t, t ∈ required → t ∈ perms))
  ∧ fst (authorize required anonymous w) = Normal Unauthorized401.
Proof.
  intros Hentry Huser Hrole Hanon.
  assert (rolePermissions_get (role u) = OwnArray perms) as Hget.
  { unfold rolePermissions_get. by rewrite Hrole, Hentry. }
  assert (fst (authorize required req w) = Normal Next
          ↔ ∀ t, t ∈ required → grants perms t) as Hiff.
  { rewrite <-grants_all.
    destruct (authorize_own_entry required req w u perms Huser Hget)
      as [[Hyes ->]|[Hno (o & w' & -> & -> & _)]]; simpl.
    - done.
    - rewrite Hno. split; by intros ?. }
  split_and!.
  - done.
  - destruct (authorize_own_entry required req w u perms Huser Hget)
      as [[_ ->]|[_ (o & w' & -> & -> & _)]]; [by left|by right].
  - intros Hstar. apply Hiff. intros t _. by left.
  - intros Hnostar. rewrite Hiff. unfold grants. split.
    + intros Hall t Ht. by destruct (Hall t Ht).
    + intros Hall t Ht. right. by apply Hall.
  - by destruct (authorize_unauthenticated required anonymous w Hanon)
      as (o & w' & -> & -> & _).
Qed.

(** The theorem for a developer who needs [link] and [view], and for a
    request without a caller. *)
Lemma authorize_follows_policy_witness :
  (fst (authorize ["link"; "view"] (SampleAuth.request_of (Some SamplePolicy.dana))
          Sample.world) = Normal Next
   ↔ ∀ t, t ∈ ["link"; "view"] → grants ["view"; "link"; "report"] t)
  ∧ (fst (authorize ["link"; "view"] (SampleAuth.request_of (Some SamplePolicy.dana))
            Sample.world) = Normal Next
     ∨ fst (authorize ["link"; "view"] (SampleAuth.request_of (Some SamplePolicy.dana))
              Sample.world) = Normal Forbidden403)
  ∧ ("*" ∈ ["view"; "link"; "report"] →
       fst (authorize ["link"; "view"] (SampleAuth.request_of (Some SamplePolicy.dana))
              Sample.world) = Normal Next)
  ∧ ("*" ∉ ["view"; "link"; "report"] →
       (fst (authorize ["link"; "view"] (SampleAuth.request_of (Some SamplePolicy.dana))
               Sample.world) = Normal Next
        ↔ ∀ t, t ∈ ["link"; "view"] → t ∈ ["view"; "link"; "report"]))
  ∧ fst (authorize ["link"; "view"] (SampleAuth.request_of None) Sample.world)
    = Normal Unauthorized401.
Proof.
  apply (authorize_follows_policy DEVELOPER SamplePolicy.dana).
  - reflexivity.
  - reflexivity.
  - reflexivity.
  - reflexivity.
Defined.

Example authorize_admin_any_token :
  fst (authorize ["view"; "a token listed nowhere"]
         (SampleAuth.request_of (Some {| username := "root"; role := "admin" |}))
         Sample.world)
  = Normal Next.
Proof. vm_compute. reflexivity. Qed.

Example authorize_developer_flag :
  fst (authorize ["flag"] (SampleAuth.request_of (Some SamplePolicy.dana)) Sample.world)
  = Normal Forbidden403.
Proof. vm_compute. reflexivity. Qed.

Lemma rolePermissions_get_unknown (s : string) :
  (∀ r, s ≠ role_value r) →
  s ∉ Object_prototype_names →
  rolePermissions_get s = Missing.
Proof.
  intros Hnot Hproto. unfold rolePermissions_get, rolePermissions. simpl.
  repeat (case_bool_decide;
          [exfalso;
           match goal with H : _ = s |- _ => symmetry in H; revert H end;
           first [apply (Hnot ADMIN)|apply (Hnot COMPLIANCE)|apply (Hnot STAKEHOLDER)
                 |apply (Hnot DEVELOPER)|apply (Hnot TESTER)|apply (Hnot VIEWER)]|]).
  by rewrite bool_decide_false.
Qed.

(** The fall-through of a role string that is neither a member of the enum
    nor a name defined by [Object.prototype]: its permission set is empty,
    so an empty requirement passes and any other is answered 403. *)
Lemma authorize_unknown_role required req w u :
  req_user req = Some u →
  (∀ r, role u ≠ role_value r) →
  role u ∉ Object_prototype_names →
  (required = [] ∧ fst (authorize required req w) = Normal Next)
  ∨ (required ≠ [] ∧ fst (authorize required req w) = Normal Forbidden403).
Proof.
  intros Huser Hnot Hproto.
  pose proof (rolePermissions_get_unknown (role u) Hnot Hproto) as Hget.
  destruct (authorize_missing_entry required req w u Huser Hget)
    as [[-> ->]|[Hne (o & w' & -> & -> & _)]]; [by left|by right].
Qed.

(** C10, at the failing input.  The role string [constructor] is outside
    the enum, yet the property read [rolePermissions[user.role]] finds the
    member that every object inherits, the fall-back to the empty list does
    not apply, the call of [includes] throws, and the request is answered
    500: for a non-empty requirement instead of 403, and for the empty
    requirement instead of [next()]. *)
Theorem authorize_inherited_role_answers_500 :
  (∀ r, role SampleAuth.mallory ≠ role_value r)
  ∧ rolePermissions_get (role SampleAuth.mallory) = Inherited "constructor"
  ∧ fst (authorize ["view"] (SampleAuth.request_of (Some SampleAuth.mallory)) Sample.world)
    = Normal InternalError500
  ∧ fst (authorize [] (SampleAuth.request_of (Some SampleAuth.mallory)) Sample.world)
    = Normal InternalError500.
Proof.
  split; [by intros []|]. split; [reflexivity|]. split; vm_compute; reflexivity.
Qed.

(** ** The mounted routes *)

(** Behind [authMiddleware] an authenticated request reaches the handler
    of the router, whatever the role of its principal. *)
Lemma use_authMiddleware_authenticated handler req w u :
  req_user req = Some u →
  use authMiddleware handler req w = handler req w.
Proof.
  intros Huser. unfold use, authMiddleware, ensureAuthenticated, isAuthenticated.
  by rewrite Huser, bool_decide_true by eauto.
Qed.

(** C1, at the failing input.  [viewer] has no [link] permission, and
    [authorize] with that requirement would answer 403 and record one
    [UNAUTHORIZED_ACCESS] row with the caller's name.  The link route is
    mounted behind [authMiddleware] alone, though: the viewer's request is
    answered 200, the requirement is loaded and its stored list grows, one
    [LINK_ARTIFACTS_TO_REQUIREMENT] row is recorded and no
    [UNAUTHORIZED_ACCESS] row. *)
Theorem viewer_links_through_mounted_route :
  ¬ grants ["view"] "link"
  ∧ own_property (role Sample.victor) rolePermissions = Some ["view"]
  ∧ fst (authorize ["link"] Sample.link_request Sample.world) = Normal Forbidden403
  ∧ audit_logs (snd (authorize ["link"] Sample.link_request Sample.world))
    = [unauthorized_row Sample.world Sample.link_request Sample.victor]
  ∧ fst (app.link_route Sample.link_request Sample.world)
    = Normal (json_response 200 (MessageBody "Artifacts linked successfully"
        (saved_entity Sample.world
           (traceabilityRouter.link_into Sample.login (req_body Sample.link_request)
              (Some Sample.victor)))))
  ∧ userStoryIds <$> requirements Sample.world !! "r1" = Some (Some ["s1"; "s2"])
  ∧ userStoryIds <$> requirements (snd (app.link_route Sample.link_request Sample.world))
                       !! "r1"
    = Some (Some ["s1"; "s2"; "s3"])
  ∧ log_action <$> audit_logs (snd (app.link_route Sample.link_request Sample.world))
    = ["LINK_ARTIFACTS_TO_REQUIREMENT"]
  ∧ entries_with_action "UNAUTHORIZED_ACCESS"
      (audit_logs (snd (app.link_route Sample.link_request Sample.world))) = [].
Proof.
  split.
  { unfold grants. intros [H|H]; by repeat (apply elem_of_cons in H as [?|H]);
      try apply elem_of_nil in H. }
  split_and!; vm_compute; reflexivity.
Qed.

(** ** The report *)

Lemma getTestResults_returns ids w :
  traceabilityRouter.when_nonempty ids IntegrationService.getTestResults w
  = (Normal (imap (test_result_at (upstream w)) (default [] ids)), w).
Proof. by destruct ids as [[|key ids]|]. Qed.

Lemma report_row_spec r w :
  ∃ row w',
    traceabilityRouter.report_row r w = (Normal row, w')
    ∧ audit_only w w'
    ∧ row_of r row
    ∧ row_testResults row = imap (test_result_at (upstream w)) (default [] (testCaseIds r))
    ∧ fst (traceabilityRouter.when_nonempty (deploymentIds r)
             IntegrationService.getDeploymentStatus w)
      = Normal (row_deploymentStatus row).
Proof.
  unfold traceabilityRouter.report_row.
  rewrite (bind_returns _ _ _ _ _ (getTestResults_returns (testCaseIds r) w)).
  destruct (getDeploymentStatus_spec (deploymentIds r) w) as (l & w' & Hrun & Hao & _).
  rewrite (bind_returns _ _ _ _ _ Hrun).
  eexists _, w'. split; [reflexivity|]. split; [done|]. split; [by repeat split|].
  split; [done|]. by rewrite Hrun.
Qed.

(** A map over a list with steps that touch only what audit recording
    touches, each step relating its input to its output in a way that
    later steps of that kind preserve. *)
Lemma map_eff_returns {A B} (f : A → Eff B) (P : Upstream → A → B → World → Prop) xs w :
  (∀ u x y w w', P u x y w → audit_only w w' → P u x y w') →
  (∀ x w, returns (f x) w (λ y w', audit_only w w' ∧ P (upstream w) x y w')) →
  returns (map_eff f xs) w
    (λ ys w', audit_only w w' ∧ Forall2 (λ x y, P (upstream w) x y w') xs ys).
Proof.
  intros Hmono Hf. revert w. induction xs as [|x xs IH]; intros w; simpl.
  - apply returns_ret. split; [apply audit_only_refl|constructor].
  - apply returns_bind. eapply returns_mono; [apply Hf|].
    intros y w1 [Hao1 HP]. apply returns_bind.
    eapply returns_mono; [apply IH|]. intros ys w2 [Hao2 Hall].
    apply returns_ret. split; [by eapply audit_only_trans|].
    constructor; [by eapply Hmono|]. destruct Hao1 as (_&_&<-&_). done.
Qed.

(** The report route when the repository is available: one row per stored
    requirement, and the table is as before. *)
Lemma get_report_spec req w :
  requirement_repo_up w →
  ∃ rows w',
    traceabilityRouter.get_report req w
    = (Normal (json_response 200 (ReportBody rows)), w')
    ∧ quiet w w'
    ∧ Forall2 row_of ((map_to_list (requirements w)).*2) rows.
Proof.
  intros Hup. unfold traceabilityRouter.get_report, try_catch.
  rewrite (bind_returns _ _ _ _ _ (requirementRepo_find_up w Hup)).
  destruct (map_eff_returns traceabilityRouter.report_row (λ _ r row _, row_of r row)
              ((map_to_list (requirements w)).*2) (after_requirement_op w))
    as (rows & w1 & Hrun & Hao & Hall).
  { done. }
  { intros r w0. destruct (report_row_spec r w0) as (row & w' & Hr & Hao & Hrow & _).
    by exists row, w'. }
  rewrite (bind_returns _ _ _ _ _ Hrun).
  destruct (logAccess_returns (req_user req) "GET_TRACEABILITY_REPORT"
              (Js.Obj [("count",
                        Js.Num (pretty (Z.of_nat (length ((map_to_list (requirements w)).*2)))))])
              None w1) as ([] & w2 & Hlog & Hao2).
  rewrite (bind_returns _ _ _ _ _ Hlog).
  exists rows, w2. split; [done|]. split; [|done].
  eapply quiet_trans; [apply after_requirement_op_quiet|].
  apply audit_only_quiet. by eapply audit_only_trans.
Qed.

Lemma store_keyed_quiet w w' : quiet w w' → store_keyed w → store_keyed w'.
Proof. intros (Hr&_) Hk key r. rewrite Hr. apply Hk. Qed.

(** What a report says of a stored requirement. *)
Lemma get_report_reports req w key r :
  requirement_repo_up w →
  store_keyed w →
  requirements w !! key = Some r →
  ∃ w',
    quiet w w'
    ∧ snd (traceabilityRouter.get_report req w) = w'
    ∧ reports (fst (traceabilityRouter.get_report req w)) key (row_of r).
Proof.
  intros Hup Hkeyed Hfound.
  destruct (get_report_spec req w Hup) as (rows & w' & -> & Hq & Hall).
  exists w'. split; [done|]. split; [done|].
  exists rows. split; [done|].
  assert (r ∈ (map_to_list (requirements w)).*2) as Hin.
  { apply list_elem_of_fmap. exists (key, r). split; [done|].
    by apply elem_of_map_to_list. }
  split.
  - apply list_elem_of_lookup_1 in Hin as [i Hi].
    destruct (Forall2_lookup_l _ _ _ _ _ Hall Hi) as (row & Hrow & Hof).
    exists row. split; [by eapply list_elem_of_lookup_2|].
    destruct Hof as [-> _]. by apply Hkeyed.
  - intros row Hrow Hid.
    apply list_elem_of_lookup_1 in Hrow as [i Hi].
    destruct (Forall2_lookup_r _ _ _ _ _ Hall Hi) as (r' & Hr' & Hof).
    assert (r' = r) as ->; [|done].
    apply list_elem_of_lookup_2, list_elem_of_fmap in Hr' as ([key' r''] & -> & Hin').
    apply elem_of_map_to_list in Hin'. simpl in *.
    destruct Hof as [Hrid _].
    assert (key' = key) as -> by (rewrite <-(Hkeyed _ _ Hin'); congruence).
    congruence.
Qed.

Lemma reports_mono o key (P Q : ReportRow → Prop) :
  reports o key P → (∀ row, P row → Q row) → reports o key Q.
Proof. intros (rows & ? & ? & HP) HPQ. exists rows. split_and!; auto. Qed.

(** C3, as the code has it.  A report never clears a stored flag: while
    the stored [hasFailedTests] of a requirement is true, every report call
    reports it true, whatever the upstream systems answer at that call, and
    likewise for [hasDeploymentRollback]; report calls leave the table as it
    is.  (A true value that came from the aggregated results alone is not
    stored, and the theorem says nothing of it.) *)
Theorem report_never_clears_stored_flag (req : Request) (ups : list Upstream)
    (w : World) (key : string) (r : Requirement) :
  requirement_repo_up w →
  store_keyed w →
  requirements w !! key = Some r →
  Forall (λ o, reports o key (λ row,
            (hasFailedTests r = true → row_hasFailedTests row = true)
            ∧ (hasDeploymentRollback r = true → row_hasDeploymentRollback row = true)))
         (fst (report_calls req ups w))
  ∧ length (fst (report_calls req ups w)) = length ups
  ∧ requirements (snd (report_calls req ups w)) = requirements w.
Proof.
  revert w. induction ups as [|u ups IH]; intros w Hup Hkeyed Hfound; simpl.
  - by split_and!.
  - destruct (get_report_reports req (set_upstream u w) key r) as (w1 & Hq & Hw1 & Hrep);
      [done..|].
    destruct (traceabilityRouter.get_report req (set_upstream u w)) as [o w1'].
    simpl in Hw1, Hrep. subst w1'.
    assert (requirements w1 = requirements w) as Hsame by apply Hq.
    destruct (IH w1) as (Hall & Hlen & Hreqs).
    { by apply Hq. }
    { by eapply store_keyed_quiet. }
    { by rewrite Hsame. }
    destruct (report_calls req ups w1) as [os w2]. simpl in *.
    split_and!; [|by f_equal|congruence].
    constructor; [|done].
    eapply reports_mono; [done|]. intros row (_ & _ & _ & -> & ->).
    split; by intros ->.
Qed.

Lemma sample_flagged_store_keyed : store_keyed SampleFlagged.world.
Proof.
  intros key r H.
  change (({[ "r1" := SampleFlagged.login ]} : gmap string Requirement) !! key = Some r)
    in H.
  by apply lookup_singleton_Some in H as [<- <-].
Qed.

(** The theorem for [r1] with its flag set, over two report calls, the
    second on a day when every test passes. *)
Lemma report_never_clears_stored_flag_witness :
  Forall (λ o, reports o "r1" (λ row,
            (hasFailedTests SampleFlagged.login = true → row_hasFailedTests row = true)
            ∧ (hasDeploymentRollback SampleFlagged.login = true →
                 row_hasDeploymentRollback row = true)))
         (fst (report_calls Sample.report_request
                 [Sample.systems; Sample.systems_all_pass] SampleFlagged.world))
  ∧ length (fst (report_calls Sample.report_request
                   [Sample.systems; Sample.systems_all_pass] SampleFlagged.world))
    = length [Sample.systems; Sample.systems_all_pass]
  ∧ requirements (snd (report_calls Sample.report_request
                         [Sample.systems; Sample.systems_all_pass] SampleFlagged.world))
    = requirements SampleFlagged.world.
Proof.
  apply (report_never_clears_stored_flag Sample.report_request
           [Sample.systems; Sample.systems_all_pass] SampleFlagged.world "r1"
           SampleFlagged.login).
  - constructor.
  - exact sample_flagged_store_keyed.
  - reflexivity.
Defined.

Example sample_flagged_reports :
  (λ o, report_flags o "r1")
    <$> fst (report_calls Sample.report_request
               [Sample.systems; Sample.systems_all_pass] SampleFlagged.world)
  = [[(true, false)]; [(true, false)]].
Proof. vm_compute. reflexivity. Qed.

(** C3, the counterexample.  The stored flag of [r1] is false; the first
    report finds a failed test result and reports [hasFailedTests] true;
    the second report, on a day when every test passes and with no flag
    update in between, reports it false. *)
Lemma report_flag_from_aggregation_is_not_kept :
  (λ o, report_flags o "r1")
    <$> fst (report_calls Sample.report_request
               [Sample.systems; Sample.systems_all_pass] Sample.world)
  = [[(true, false)]; [(false, false)]]
  ∧ hasFailedTests <$> requirements Sample.world !! "r1" = Some false.
Proof. vm_compute. split; reflexivity. Qed.

(** ** Normalization of outcomes *)

Lemma fetch_deployment_status_result key w data :
  jenkins_get_build (upstream w) key = Some data →
  fst (IntegrationService.fetch_deployment_status key w)
  = Normal {| dep_id := key;
              dep_status := IntegrationService.normalize_result (build_result data);
              dep_timestamp := build_timestamp data;
              dep_url := IntegrationService.build_url
                           (process_env (upstream w) "JENKINS_BASE_URL")
                           (process_env (upstream w) "JENKINS_JOB_NAME") key |}.
Proof.
  intros Hdata.
  cbv [IntegrationService.fetch_deployment_status IntegrationService.jenkinsClient_get
       IntegrationService.env bind get_world ret fst].
  by rewrite Hdata.
Qed.

Lemma normalize_result_cases result :
  (result = Some "FAILURE" → IntegrationService.normalize_result result = Some "rollback")
  ∧ (result ≠ Some "FAILURE" → IntegrationService.normalize_result result = result).
Proof.
  unfold IntegrationService.normalize_result. case_bool_decide; split; by intros.
Qed.

Lemma existsb_failed (results : list TestResult) :
  existsb (λ tr, bool_decide (tr_status tr = "failed")) results = true
  ↔ ∃ tr, tr ∈ results ∧ tr_status tr = "failed".
Proof.
  rewrite existsb_exists. split.
  - intros (tr & Hin%list_elem_of_In & Hs%bool_decide_eq_true). eauto.
  - intros (tr & Hin%list_elem_of_In & Hs). exists tr. split; [done|].
    by apply bool_decide_eq_true.
Qed.

(** C4, as the code has it.  When every build of the list is answered, the
    deployment-status query returns one record per identifier, in order;
    its status is [rollback] when the upstream result is [FAILURE], and is
    the upstream result itself whenever that result is anything else.  In
    a report row, a test result whose status is [failed] raises
    [hasFailedTests], and the test result at position [i] has that status
    exactly when the draw at [i] exceeds 0.8. *)
Theorem deployment_status_normalization (ids : list string) (r : Requirement) (w : World) :
  (∀ key, key ∈ ids → is_Some (jenkins_get_build (upstream w) key)) →
  (∃ statuses,
     IntegrationService.getDeploymentStatus ids w = (Normal statuses, w)
     ∧ Forall2 (λ key ds,
         ∃ data,
           jenkins_get_build (upstream w) key = Some data
           ∧ dep_id ds = key
           ∧ (build_result data = Some "FAILURE" → dep_status ds = Some "rollback")
           ∧ (build_result data ≠ Some "FAILURE" → dep_status ds = build_result data))
         ids statuses)
  ∧ returns (traceabilityRouter.report_row r) w (λ row _,
      ((∃ tr, tr ∈ row_testResults row ∧ tr_status tr = "failed") →
         row_hasFailedTests row = true)
      ∧ (∀ i tr, row_testResults row !! i = Some tr →
           (tr_status tr = "failed" ↔ math_random_gt_08 (upstream w) i = true))).
Proof.
  intros Hanswered. split.
  - destruct (fanout_cases IntegrationService.fetch_deployment_status ids
                "IntegrationService.getDeploymentStatus error:" w)
      as [(statuses & Hrun & Hall)|(_ & key & e & Hkey & Hthrown)];
      [auto with reads| |].
    + exists statuses. split; [exact Hrun|].
      apply Forall2_same_length_lookup in Hall as [Hlen Hall].
      apply Forall2_same_length_lookup. split; [done|].
      intros i key ds Hi Hj. pose proof (Hall i key ds Hi Hj) as Hds.
      apply list_elem_of_lookup_2 in Hi as Hkey.
      destruct (Hanswered key Hkey) as [data Hdata].
      rewrite (fetch_deployment_status_result key w data Hdata) in Hds.
      simplify_eq/=. exists data. split_and!; [done..| |];
        apply normalize_result_cases.
    + exfalso. destruct (Hanswered key Hkey) as [data Hdata].
      rewrite (fetch_deployment_status_result key w data Hdata) in Hthrown. done.
  - destruct (report_row_spec r w) as (row & w' & Hrun & _ & Hrow & Htests & _).
    exists row, w'. split; [done|]. split.
    + intros Hfailed. destruct Hrow as (_ & _ & _ & -> & _).
      apply orb_true_iff. right. by apply existsb_failed.
    + intros i tr. rewrite Htests. intros Hi.
      apply list_lookup_imap_Some in Hi as (key & _ & ->). simpl.
      by destruct (math_random_gt_08 (upstream w) i).
Qed.

(** The theorem for the build [d1] and the requirement [r1]. *)
Lemma deployment_status_normalization_witness :
  (∃ statuses,
     IntegrationService.getDeploymentStatus ["d1"] Sample.world
     = (Normal statuses, Sample.world)
     ∧ Forall2 (λ key ds,
         ∃ data,
           jenkins_get_build (upstream Sample.world) key = Some data
           ∧ dep_id ds = key
           ∧ (build_result data = Some "FAILURE" → dep_status ds = Some "rollback")
           ∧ (build_result data ≠ Some "FAILURE" → dep_status ds = build_result data))
         ["d1"] statuses)
  ∧ returns (traceabilityRouter.report_row Sample.login) Sample.world (λ row _,
      ((∃ tr, tr ∈ row_testResults row ∧ tr_status tr = "failed") →
         row_hasFailedTests row = true)
      ∧ (∀ i tr, row_testResults row !! i = Some tr →
           (tr_status tr = "failed"
            ↔ math_random_gt_08 (upstream Sample.world) i = true))).
Proof.
  apply (deployment_status_normalization ["d1"] Sample.login Sample.world).
  intros key ->%list_elem_of_singleton. eexists. reflexivity.
Defined.

(** C4, the counterexample.  Jenkins reports build [d1] as [ABORTED],
    which is not the success token [SUCCESS]; its normalized status is
    [ABORTED], not [rollback], and the report does not flag a rollback.
    No choice of success token helps: whatever the token, some result
    differs from it and is returned as it is. *)
Lemma aborted_deployment_is_not_rollback :
  build_result <$> jenkins_get_build (upstream Sample.world) "d1" = Some (Some "ABORTED")
  ∧ "ABORTED" ≠ "SUCCESS"
  ∧ fst (IntegrationService.getDeploymentStatus ["d1"] Sample.world)
    = Normal [ {| dep_id := "d1"; dep_status := Some "ABORTED";
                  dep_timestamp := Some 1700000000000;
                  dep_url := "undefined/job/undefined/d1/" |} ]
  ∧ (λ o, report_flags o "r1")
      (fst (traceabilityRouter.get_report Sample.report_request Sample.world))
    = [(true, false)]
  ∧ ∀ success : string,
      ∃ outcome, outcome ≠ success
                 ∧ IntegrationService.normalize_result (Some outcome) = Some outcome
                 ∧ outcome ≠ "rollback".
Proof.
  split; [reflexivity|]. split; [done|]. split; [vm_compute; reflexivity|].
  split; [vm_compute; reflexivity|].
  intros success. destruct (decide (success = "ABORTED")) as [->|Hne].
  - exists "UNSTABLE". by split_and!.
  - exists "ABORTED". by split_and!.
Qed.

(** ** The matrix *)

Lemma enrichment_of_mono u r e w w' :
  enrichment_of u r e w → audit_only w w' → enrichment_of u r e w'.
Proof.
  intros (Hb & Hagg & Hlen & Hfail) Hao. split_and!; [done..|].
  intros k key Hkey Hav. destruct (Hfail k key Hkey Hav) as [? ?].
  split; [done|]. by eapply error_logged_mono.
Qed.

(** The matrix route when the repository is available: the response is
    200 with one enriched requirement per stored requirement, whatever the
    upstream systems answer. *)
Lemma get_matrix_spec req w :
  requirement_repo_up w →
  ∃ matrix w',
    traceabilityRouter.get_matrix req w
    = (Normal (json_response 200 (MatrixBody matrix)), w')
    ∧ quiet w w'
    ∧ Forall2 (λ r e, enrichment_of (upstream w) r e w')
        ((map_to_list (requirements w)).*2) matrix.
Proof.
  intros Hup. unfold traceabilityRouter.get_matrix, try_catch.
  rewrite (bind_returns _ _ _ _ _ (requirementRepo_find_up w Hup)).
  destruct (map_eff_returns traceabilityRouter.enrich enrichment_of
              ((map_to_list (requirements w)).*2) (after_requirement_op w))
    as (matrix & w1 & Hrun & Hao & Hall).
  { apply enrichment_of_mono. }
  { intros r w0.
    destruct (enrich_spec r w0) as (e & w' & Hr & Hao & Hb & Hagg & Hlen & Hfail).
    by exists e, w'. }
  rewrite (bind_returns _ _ _ _ _ Hrun).
  destruct (logAccess_returns (req_user req) "GET_TRACEABILITY_MATRIX"
              (Js.Obj [("count",
                        Js.Num (pretty (Z.of_nat (length ((map_to_list (requirements w)).*2)))))])
              None w1) as ([] & w2 & Hlog & Hao2).
  rewrite (bind_returns _ _ _ _ _ Hlog).
  exists matrix, w2. split; [done|]. split.
  - eapply quiet_trans; [apply after_requirement_op_quiet|].
    apply audit_only_quiet. by eapply audit_only_trans.
  - eapply Forall2_impl; [done|]. intros r e He. simpl in He.
    by eapply enrichment_of_mono.
Qed.

(** C7.  A failure in the fan-out of one kind is contained.  When the
    repository is available and, for a stored requirement, the source of
    kind [k] fails for one of the identifiers of that kind, the matrix
    route still answers 200; the enriched requirement has the empty list
    for [k]; each of its lists, of whatever kind, is what the aggregation of
    that kind returns on its own, so the failure leaves the other four as
    they would be without it; every list is empty or complete, never
    partial; and the failure is in the diagnostic stream. *)
Theorem aggregation_failure_is_contained (req : Request) (w : World) (stored : string)
    (r : Requirement) (k : ArtifactKind) (key : string) :
  requirement_repo_up w →
  requirements w !! stored = Some r →
  key ∈ default [] (identifiers k r) →
  source_available k (upstream w) key = false →
  ∃ matrix w' e,
    traceabilityRouter.get_matrix req w
    = (Normal (json_response 200 (MatrixBody matrix)), w')
    ∧ e ∈ matrix
    ∧ base e = r
    ∧ enriched_list k e = []
    ∧ (∀ k', fst (aggregate k' (identifiers k' r) w) = Normal (enriched_list k' e))
    ∧ (∀ k', enriched_list k' e = []
             ∨ length (enriched_list k' e) = length (default [] (identifiers k' r)))
    ∧ error_logged (failure_message k) w'.
Proof.
  intros Hup Hfound Hkey Hav.
  destruct (get_matrix_spec req w Hup) as (matrix & w' & Hrun & _ & Hall).
  assert (r ∈ (map_to_list (requirements w)).*2) as Hin.
  { apply list_elem_of_fmap. exists (stored, r). split; [done|].
    by apply elem_of_map_to_list. }
  apply list_elem_of_lookup_1 in Hin as [i Hi].
  destruct (Forall2_lookup_l _ _ _ _ _ Hall Hi) as (e & He & Hb & Hagg & Hlen & Hfail).
  destruct (Hfail k key Hkey Hav) as [Hempty Hlogged].
  exists matrix, w', e. split_and!; try done.
  - by eapply list_elem_of_lookup_2.
  - intros k'. by apply Hagg.
Qed.

(** The theorem for the story [s9], for which Jira does not answer. *)
Lemma aggregation_failure_is_contained_witness :
  ∃ matrix w' e,
    traceabilityRouter.get_matrix SampleOutage.matrix_request SampleOutage.world
    = (Normal (json_response 200 (MatrixBody matrix)), w')
    ∧ e ∈ matrix
    ∧ base e = SampleOutage.checkout
    ∧ enriched_list UserStoryKind e = []
    ∧ (∀ k', fst (aggregate k' (identifiers k' SampleOutage.checkout) SampleOutage.world)
             = Normal (enriched_list k' e))
    ∧ (∀ k', enriched_list k' e = []
             ∨ length (enriched_list k' e)
               = length (default [] (identifiers k' SampleOutage.checkout)))
    ∧ error_logged (failure_message UserStoryKind) w'.
Proof.
  apply (aggregation_failure_is_contained SampleOutage.matrix_request SampleOutage.world
           "r7" SampleOutage.checkout UserStoryKind "s9").
  - constructor.
  - reflexivity.
  - right. left.
  - reflexivity.
Defined.

Example sample_outage_matrix :
  match fst (app.matrix_route SampleOutage.matrix_request SampleOutage.world) with
  | Normal (Send {| res_status := 200; res_body := MatrixBody [e] |}) =>
      (length (userStories e), length (tasks e), length (testCases e),
       length (codeCommits e), length (deployments e))
  | _ => (7, 7, 7, 7, 7)%nat
  end = (0, 1, 1, 0, 1)%nat.
Proof. vm_compute. reflexivity. Qed.

(** ** The routes do not depend on the audit storage *)

Lemma reads_upstream_unaffected {A} (m : Eff A) : reads_upstream m → unaffected m.
Proof.
  intros [Hsnd Hfst] w1 w2 Hag. rewrite !Hsnd. split; [|done].
  apply Hfst, Hag.
Qed.

Lemma unaffected_when_nonempty {A} ids (fetch : list string → Eff (list A)) :
  (∀ l, unaffected (fetch l)) → unaffected (traceabilityRouter.when_nonempty ids fetch).
Proof. intros Hf. destruct ids as [[|key ids]|]; simpl; auto with unaffected. Qed.

Lemma unaffected_fanout {A} (f : string → Eff A) msg ids :
  (∀ key, reads_upstream (f key)) →
  unaffected
    (try_catch
       (match ids with
        | [] => ret []
        | _ => IntegrationService.promise_all f ids
        end)
       (λ _, run logger_error msg; ret [])).
Proof.
  intros Hf. apply unaffected_try_catch.
  - destruct ids; [apply unaffected_ret|].
    apply reads_upstream_unaffected, reads_upstream_map_eff, Hf.
  - intros e. apply unaffected_bind; [apply unaffected_logger_log|].
    intros _. apply unaffected_ret.
Qed.

Lemma unaffected_getUserStories ids : unaffected (IntegrationService.getUserStories ids).
Proof. apply (unaffected_fanout IntegrationService.fetch_issue). auto with reads. Qed.

Lemma unaffected_getTasks ids : unaffected (IntegrationService.getTasks ids).
Proof. apply (unaffected_fanout IntegrationService.fetch_issue). auto with reads. Qed.

Lemma unaffected_getCodeCommits ids : unaffected (IntegrationService.getCodeCommits ids).
Proof. apply (unaffected_fanout IntegrationService.fetch_commit). auto with reads. Qed.

Lemma unaffected_getDeployments ids : unaffected (IntegrationService.getDeployments ids).
Proof. apply (unaffected_fanout IntegrationService.fetch_deployment). auto with reads. Qed.

Lemma unaffected_getDeploymentStatus ids :
  unaffected (IntegrationService.getDeploymentStatus ids).
Proof.
  apply (unaffected_fanout IntegrationService.fetch_deployment_status). auto with reads.
Qed.

Lemma unaffected_getTestCases ids : unaffected (IntegrationService.getTestCases ids).
Proof. intros w1 w2 Hag. by destruct ids. Qed.

Lemma unaffected_getTestResults ids : unaffected (IntegrationService.getTestResults ids).
Proof.
  intros w1 w2 Hag. destruct ids as [|key ids]; [done|].
  cbv [IntegrationService.getTestResults try_catch bind get_world ret fst snd].
  split; [|done]. destruct Hag as (_ & _ & _ & Hu). by rewrite Hu.
Qed.

#[local] Hint Resolve unaffected_getUserStories unaffected_getTasks
  unaffected_getCodeCommits unaffected_getDeployments unaffected_getDeploymentStatus
  unaffected_getTestCases unaffected_getTestResults : unaffected.

Ltac unaffected_step :=
  first [ solve [auto with unaffected]
        | apply unaffected_try_catch; [|intros ?]
        | apply unaffected_bind; [|intros ?]
        | apply unaffected_map_eff; intros ?
        | apply unaffected_when_nonempty; intros ?
        | match goal with |- unaffected (match ?x with _ => _ end) => destruct x end ].

Lemma unaffected_enrich r : unaffected (traceabilityRouter.enrich r).
Proof. unfold traceabilityRouter.enrich. repeat unaffected_step. Qed.

Lemma unaffected_report_row r : unaffected (traceabilityRouter.report_row r).
Proof. unfold traceabilityRouter.report_row. repeat unaffected_step. Qed.

#[local] Hint Resolve unaffected_enrich unaffected_report_row : unaffected.

Lemma unaffected_get_matrix req : unaffected (traceabilityRouter.get_matrix req).
Proof. unfold traceabilityRouter.get_matrix. repeat unaffected_step. Qed.

Lemma unaffected_get_requirement req : unaffected (traceabilityRouter.get_requirement req).
Proof. unfold traceabilityRouter.get_requirement. repeat unaffected_step. Qed.

Lemma unaffected_assign_links r b u : unaffected (traceabilityRouter.assign_links r b u).
Proof.
  unfold traceabilityRouter.assign_links.
  destruct (first_not_iterable b); auto with unaffected.
Qed.

#[local] Hint Resolve unaffected_assign_links : unaffected.

Lemma unaffected_post_requirement_link req :
  unaffected (traceabilityRouter.post_requirement_link req).
Proof. unfold traceabilityRouter.post_requirement_link. repeat unaffected_step. Qed.

Lemma unaffected_get_report req : unaffected (traceabilityRouter.get_report req).
Proof. unfold traceabilityRouter.get_report. repeat unaffected_step. Qed.

Lemma unaffected_patch_requirement_flags req :
  unaffected (traceabilityRouter.patch_requirement_flags req).
Proof. unfold traceabilityRouter.patch_requirement_flags. repeat unaffected_step. Qed.

Lemma unaffected_use m handler req :
  unaffected (m req) → unaffected (handler req) → unaffected (use m handler req).
Proof. intros Hm Hh. unfold use. repeat unaffected_step. Qed.

Lemma unaffected_authMiddleware req : unaffected (authMiddleware req).
Proof.
  unfold authMiddleware, ensureAuthenticated. destruct (isAuthenticated req);
    repeat unaffected_step.
Qed.

Lemma unaffected_authorize required req : unaffected (authorize required req).
Proof.
  unfold authorize. repeat unaffected_step.
Qed.

(** ** Fail-open audit recording *)

(** A recording function whose save throws: the error goes to the
    diagnostic stream, the audit table is as before, and the function
    completes normally. *)
Lemma record_storage_failure d l msg emsg faults w :
  try_catch (run auditRepo_save d; logger_log l msg) (λ _, logger_log LError emsg)
    (set_audit_faults (λ _, true :: faults) w)
  = (Normal tt,
     set_diagnostics (λ lines, lines ++ [{| level := LError; message := emsg |}])%list
       (set_audit_faults (λ _, faults) w)).
Proof. reflexivity. Qed.

(** C8.  Audit recording is fail-open.  For every input and every world,
    the three recording functions and the export complete normally, leaving
    everything but the audit table, the diagnostics and the script of audit
    faults as it was.  When the durable write throws, the error is written
    to the diagnostics and no row is added; when the read of the export
    throws, the export returns the empty string and the error is written to
    the diagnostics.  The completion of each mounted route, of [authorize],
    and the requirement table they leave are the same in any two worlds that
    differ only in the audit table, the diagnostics and the audit faults to
    come. *)
Theorem audit_recording_is_fail_open (user : option User) (action : string)
    (details : Js.Value) (origin : option Request) (ip url : string)
    (name role_name : option string) (format : AuditLogService.Format)
    (required : list string) (req : Request) (faults : list bool) (w : World) :
  let failing := set_audit_faults (λ _, true :: faults) w in
  returns (AuditLogService.logAccess user action details origin) w
    (λ _ w', audit_only w w')
  ∧ returns (AuditLogService.logModification user action details origin) w
      (λ _ w', audit_only w w')
  ∧ returns (AuditLogService.logUnauthorizedAccess ip url name role_name) w
      (λ _ w', audit_only w w')
  ∧ returns (AuditLogService.exportLogs format) w (λ _ w', audit_only w w')
  ∧ returns (AuditLogService.logAccess user action details origin) failing
      (λ _ w', error_logged "AuditLogService.logAccess error:" w'
               ∧ audit_logs w' = audit_logs w)
  ∧ returns (AuditLogService.logModification user action details origin) failing
      (λ _ w', error_logged "AuditLogService.logModification error:" w'
               ∧ audit_logs w' = audit_logs w)
  ∧ returns (AuditLogService.logUnauthorizedAccess ip url name role_name) failing
      (λ _ w', error_logged "AuditLogService.logUnauthorizedAccess error:" w'
               ∧ audit_logs w' = audit_logs w)
  ∧ returns (AuditLogService.exportLogs format) failing
      (λ exported w', exported = ""
                      ∧ error_logged "AuditLogService.exportLogs error:" w')
  ∧ unaffected (app.matrix_route req)
  ∧ unaffected (app.requirement_route req)
  ∧ unaffected (app.link_route req)
  ∧ unaffected (app.report_route req)
  ∧ unaffected (app.flags_route req)
  ∧ unaffected (authorize required req).
Proof.
  intros failing.
  assert (∀ emsg w0,
    error_logged emsg
      (set_diagnostics (λ lines, lines ++ [{| level := LError; message := emsg |}])%list
         w0)) as Hlogged.
  { intros emsg w0. unfold error_logged. simpl. apply elem_of_app. right.
    by apply list_elem_of_singleton. }
  split_and!.
  - apply logAccess_returns.
  - apply logModification_returns.
  - apply logUnauthorizedAccess_returns.
  - apply exportLogs_returns.
  - eexists tt, _. split; [apply record_storage_failure|]. split; [apply Hlogged|done].
  - eexists tt, _. split; [apply record_storage_failure|]. split; [apply Hlogged|done].
  - eexists tt, _. split; [apply record_storage_failure|]. split; [apply Hlogged|done].
  - eexists "", _. split; [reflexivity|]. split; [done|]. apply Hlogged.
  - apply unaffected_use; [apply unaffected_authMiddleware|apply unaffected_get_matrix].
  - apply unaffected_use;
      [apply unaffected_authMiddleware|apply unaffected_get_requirement].
  - apply unaffected_use;
      [apply unaffected_authMiddleware|apply unaffected_post_requirement_link].
  - apply unaffected_use; [apply unaffected_authMiddleware|apply unaffected_get_report].
  - apply unaffected_use;
      [apply unaffected_authMiddleware|apply unaffected_patch_requirement_flags].
  - apply unaffected_authorize.
Qed.

Example sample_link_with_audit_outage :
  let down := set_audit_faults (λ _, [true; true; true]) Sample.world in
  fst (app.link_route Sample.link_request down)
  = fst (app.link_route Sample.link_request Sample.world)
  ∧ requirements (snd (app.link_route Sample.link_request down))
    = requirements (snd (app.link_route Sample.link_request Sample.world))
  ∧ audit_logs (snd (app.link_route Sample.link_request down)) = []
  ∧ message <$> diagnostics (snd (app.link_route Sample.link_request down))
    = ["AuditLogService.logModification error:"].
Proof. vm_compute. by split_and!. Qed.

(** ** The export *)

Lemma insert_desc_perm x rows : insert_desc x rows ≡ₚ x :: rows.
Proof.
  induction rows as [|y rows IH]; simpl; [done|].
  case_match; [done|]. rewrite IH. apply Permutation_swap.
Qed.

Lemma order_by_timestamp_desc_perm rows : order_by_timestamp_desc rows ≡ₚ rows.
Proof.
  unfold order_by_timestamp_desc. induction rows as [|x rows IH]; simpl; [done|].
  by rewrite insert_desc_perm, IH.
Qed.

Lemma insert_desc_sorted x rows :
  Sorted (λ a b, log_timestamp b <= log_timestamp a) rows →
  Sorted (λ a b, log_timestamp b <= log_timestamp a) (insert_desc x rows).
Proof.
  induction 1 as [|y rows Hs IH Hhd]; simpl.
  - by repeat constructor.
  - destruct (log_timestamp y <? log_timestamp x) eqn:Hlt.
    + apply Z.ltb_lt in Hlt. repeat constructor; [done..|lia].
    + apply Z.ltb_ge in Hlt. constructor; [done|].
      destruct rows as [|z rows]; simpl in *; [by constructor|].
      destruct (log_timestamp z <? log_timestamp x); constructor; [lia|].
      by inversion Hhd.
Qed.

Lemma order_by_timestamp_desc_sorted rows :
  Sorted (λ a b, log_timestamp b <= log_timestamp a) (order_by_timestamp_desc rows).
Proof.
  unfold order_by_timestamp_desc. induction rows as [|x rows IH]; simpl.
  - constructor.
  - by apply insert_desc_sorted.
Qed.

(** Reading back a field whose quotes were doubled gives the field. *)
Lemma read_quoted_body_double_quotes s rest :
  (∀ c rest', rest = String c rest' → c ≠ Js.dquote) →
  Csv.read_quoted_body (Js.double_quotes s ++ String Js.dquote rest) = Some (s, rest).
Proof.
  intros Hrest. induction s as [|c s IH].
  - cbn [Js.double_quotes]. rewrite append_nil_l. cbn [Csv.read_quoted_body].
    rewrite Ascii.eqb_refl. destruct rest as [|c' rest']; [done|].
    specialize (Hrest c' rest' eq_refl). by apply Ascii.eqb_neq in Hrest as ->.
  - cbn [Js.double_quotes]. destruct (Ascii.eqb c Js.dquote) eqn:Hc.
    + apply Ascii.eqb_eq in Hc as ->. rewrite !append_cons.
      cbn [Csv.read_quoted_body]. rewrite Ascii.eqb_refl, IH. done.
    + rewrite append_cons. cbn [Csv.read_quoted_body]. rewrite Hc, IH. done.
Qed.

Lemma read_quoted_double_quotes s rest :
  (∀ c rest', rest = String c rest' → c ≠ Js.dquote) →
  Csv.read_quoted (AuditLogService.quoted (Js.double_quotes s) ++ rest) = Some (s, rest).
Proof.
  intros Hrest. unfold AuditLogService.quoted, Js.dq.
  rewrite !append_cons, append_nil_l. cbn [Csv.read_quoted].
  rewrite Ascii.eqb_refl, <-(read_quoted_body_double_quotes s rest Hrest).
  f_equal. by rewrite append_assoc, append_cons, append_nil_l.
Qed.

(** What the export is made of, when the read succeeds: the rows in
    descending order of timestamp, each stored row once; in JSON the
    pretty-printed array of the rows; in CSV the header and one line per
    row, each line being its seven fields between double quotes, the
    [details] field with its quotes doubled and the others as they are. *)
Lemma export_ordered_and_complete w :
  next_audit_op_fails w = false →
  ∃ logs,
    logs ≡ₚ audit_logs w
    ∧ Sorted (λ a b, log_timestamp b <= log_timestamp a) logs
    ∧ fst (AuditLogService.exportLogs AuditLogService.json w)
      = Normal (Js.stringify_pretty "  " (Js.Arr (AuditLogService.log_to_json <$> logs)))
    ∧ (∀ rows, mapM AuditLogService.csv_row logs = Some rows →
         fst (AuditLogService.exportLogs AuditLogService.csv w)
         = Normal (Js.join Js.nl (AuditLogService.csv_header :: rows))
         ∧ Forall2 (λ log row,
             ∃ iso, Js.toISOString (log_timestamp log) = Some iso
               ∧ row = Js.join ","
                   (AuditLogService.quoted <$>
                      [ log_id log; log_action log;
                        Js.str_or (log_username log) ""; Js.str_or (log_role log) "";
                        Js.double_quotes (Js.str_or (log_details log) "");
                        Js.str_or (log_ip log) ""; iso ]))
             logs rows).
Proof.
  intros Hok. exists (order_by_timestamp_desc (audit_logs w)).
  split; [apply order_by_timestamp_desc_perm|].
  split; [apply order_by_timestamp_desc_sorted|].
  split; [by rewrite exportLogs_result, Hok|].
  intros rows Hrows.
  split; [rewrite exportLogs_result, Hok; cbv zeta; by rewrite Hrows|].
  apply mapM_Some in Hrows. eapply Forall2_impl; [done|].
  intros log row. unfold AuditLogService.csv_row, AuditLogService.csv_fields.
  destruct (Js.toISOString (log_timestamp log)) as [iso|]; simpl; [|done].
  intros [= <-]. by exists iso.
Qed.

(** C9, at the failing input.  The audit table holds two rows; the more
    recent one has a user name with a double quote in it.  The CSV export
    lists that row first, every field between quotes, but writes the name as
    it is: the line does not read back as the stored values.  The line of
    the other row, whose [details] hold quotes, does. *)
Theorem csv_export_keeps_quotes_of_other_fields :
  Csv.has_quote (Js.str_or (log_username SampleExport.newer) "") = true
  ∧ ∃ line1 line2,
      AuditLogService.csv_row SampleExport.newer = Some line1
      ∧ AuditLogService.csv_row SampleExport.older = Some line2
      ∧ fst (AuditLogService.exportLogs AuditLogService.csv SampleExport.world)
        = Normal (Js.join Js.nl [AuditLogService.csv_header; line1; line2])
      ∧ Csv.parse_row line2 = original_fields SampleExport.older
      ∧ Csv.has_quote (Js.str_or (log_details SampleExport.older) "") = true
      ∧ Csv.parse_row line1 = None
      ∧ Csv.parse_row line1 ≠ original_fields SampleExport.newer.
Proof.
  split; [reflexivity|]. eexists _, _.
  split; [vm_compute; reflexivity|]. split; [vm_compute; reflexivity|].
  split_and!; [vm_compute; reflexivity..|]. vm_compute. discriminate.
Qed.

(** * Further properties *)

(** ** What a computation leaves in place *)

Section preserves.

Variable R : World → World → Prop.
Hypothesis R_refl : ∀ w, R w w.
Hypothesis R_trans : ∀ w1 w2 w3, R w1 w2 → R w2 w3 → R w1 w3.

Lemma preserves_ret {A} (a : A) : preserves R (ret a).
Proof. intros w. apply R_refl. Qed.

Lemma preserves_throw {A} e : preserves R (@throw A e).
Proof. intros w. apply R_refl. Qed.

Lemma preserves_bind {A B} (m : Eff A) (k : A → Eff B) :
  preserves R m → (∀ a, preserves R (k a)) → preserves R (bind m k).
Proof.
  intros Hm Hk w. unfold bind. specialize (Hm w).
  destruct (m w) as [[a|e] w1]; simpl in *; [|done].
  eapply R_trans; [done|]. apply Hk.
Qed.

Lemma preserves_try_catch {A} (m : Eff A) h :
  preserves R m → (∀ e, preserves R (h e)) → preserves R (try_catch m h).
Proof.
  intros Hm Hh w. unfold try_catch. specialize (Hm w).
  destruct (m w) as [[a|e] w1]; simpl in *; [done|].
  eapply R_trans; [done|]. apply Hh.
Qed.

Lemma preserves_map_eff {A B} (f : A → Eff B) xs :
  (∀ x, preserves R (f x)) → preserves R (map_eff f xs).
Proof.
  intros Hf. induction xs as [|x xs IH]; simpl; [apply preserves_ret|].
  apply preserves_bind; [done|]. intros y.
  apply preserves_bind; [done|]. intros ys. apply preserves_ret.
Qed.

Lemma preserves_reads_upstream {A} (m : Eff A) : reads_upstream m → preserves R m.
Proof. intros [Hsnd _] w. rewrite Hsnd. apply R_refl. Qed.

Lemma preserves_when_nonempty {A} ids (fetch : list string → Eff (list A)) :
  (∀ l, preserves R (fetch l)) → preserves R (traceabilityRouter.when_nonempty ids fetch).
Proof. intros Hf. destruct ids as [[|key ids]|]; simpl; auto using preserves_ret. Qed.

Lemma preserves_fanout {A} (f : string → Eff A) (h : Exception → Eff (list A)) ids :
  (∀ key, reads_upstream (f key)) →
  (∀ e, preserves R (h e)) →
  preserves R
    (try_catch
       (match ids with
        | [] => ret []
        | _ => IntegrationService.promise_all f ids
        end) h).
Proof.
  intros Hf Hh. apply preserves_try_catch; [|done].
  destruct ids; [apply preserves_ret|].
  apply preserves_reads_upstream, reads_upstream_map_eff, Hf.
Qed.

End preserves.

(** The entry points of the program, for a relation that holds across every
    step that touches the diagnostics, the fault scripts or the end of the
    audit table. *)
Section entry_points.

Variable R : World → World → Prop.
Hypothesis R_refl : ∀ w, R w w.
Hypothesis R_trans : ∀ w1 w2 w3, R w1 w2 → R w2 w3 → R w1 w3.
Hypothesis R_diagnostics : ∀ f w, R w (set_diagnostics f w).
Hypothesis R_requirement_faults : ∀ f w, R w (set_requirement_faults f w).
Hypothesis R_audit_faults : ∀ f w, R w (set_audit_faults f w).
Hypothesis R_audit_append : ∀ rows w, R w (set_audit_logs (λ l, l ++ rows)%list w).

Lemma preserves_logger_log l msg : preserves R (logger_log l msg).
Proof. intros w. apply R_diagnostics. Qed.

Lemma preserves_logger_error msg : preserves R (logger_error msg).
Proof. apply preserves_logger_log. Qed.

Lemma preserves_logger_warn msg : preserves R (logger_warn msg).
Proof. apply preserves_logger_log. Qed.

Lemma preserves_logger_info msg : preserves R (logger_info msg).
Proof. apply preserves_logger_log. Qed.

Lemma preserves_audit_repo_op : preserves R audit_repo_op.
Proof.
  intros w. unfold audit_repo_op. destruct (audit_faults w) as [|[] rest]; simpl; auto.
Qed.

Lemma preserves_requirement_repo_op : preserves R requirement_repo_op.
Proof.
  intros w. unfold requirement_repo_op.
  destruct (requirement_faults w) as [|[] rest]; simpl; auto.
Qed.

Lemma preserves_auditRepo_save d : preserves R (auditRepo_save d).
Proof.
  apply preserves_bind; [assumption|apply preserves_audit_repo_op|].
  intros _ w. apply R_audit_append.
Qed.

Lemma preserves_auditRepo_find_desc : preserves R auditRepo_find_desc.
Proof.
  apply preserves_bind; [assumption|apply preserves_audit_repo_op|].
  intros _ w. apply R_refl.
Qed.

Lemma preserves_requirementRepo_find : preserves R requirementRepo_find.
Proof.
  apply preserves_bind; [assumption|apply preserves_requirement_repo_op|].
  intros _ w. apply R_refl.
Qed.

Lemma preserves_requirementRepo_findOne key : preserves R (requirementRepo_findOne key).
Proof.
  apply preserves_bind; [assumption|apply preserves_requirement_repo_op|].
  intros _ w. apply R_refl.
Qed.

Lemma preserves_getTestCases ids : preserves R (IntegrationService.getTestCases ids).
Proof. intros w. destruct ids; apply R_refl. Qed.

Lemma preserves_getTestResults ids : preserves R (IntegrationService.getTestResults ids).
Proof. intros w. destruct ids; apply R_refl. Qed.

(** One step of a proof that an entry point preserves [R]. *)
Ltac preserves_step :=
  first
    [ assumption
    | apply preserves_logger_error | apply preserves_logger_warn
    | apply preserves_logger_info | apply preserves_logger_log
    | apply preserves_auditRepo_save | apply preserves_auditRepo_find_desc
    | apply preserves_requirementRepo_find | apply preserves_requirementRepo_findOne
    | apply preserves_getTestCases | apply preserves_getTestResults
    | apply preserves_ret; assumption
    | apply preserves_throw; assumption
    | apply preserves_fanout; [assumption|assumption|solve [auto with reads]|intros ?]
    | apply preserves_try_catch; [assumption| |intros ?]
    | apply preserves_bind; [assumption| |intros ?]
    | apply preserves_map_eff; [assumption|assumption|intros ?]
    | apply preserves_when_nonempty; [assumption|intros ?]
    | match goal with |- preserves _ (match ?x with _ => _ end) => destruct x end
    | match goal with |- preserves _ (if ?x then _ else _) => destruct x end ].

Lemma preserves_logAccess user action details origin :
  preserves R (AuditLogService.logAccess user action details origin).
Proof. unfold AuditLogService.logAccess. repeat preserves_step. Qed.

Lemma preserves_logModification user action details origin :
  preserves R (AuditLogService.logModification user action details origin).
Proof. unfold AuditLogService.logModification. repeat preserves_step. Qed.

Lemma preserves_logUnauthorizedAccess ip url name role_name :
  preserves R (AuditLogService.logUnauthorizedAccess ip url name role_name).
Proof. unfold AuditLogService.logUnauthorizedAccess. repeat preserves_step. Qed.

Lemma preserves_exportLogs format : preserves R (AuditLogService.exportLogs format).
Proof. unfold AuditLogService.exportLogs. repeat preserves_step. Qed.

Lemma preserves_getUserStories ids : preserves R (IntegrationService.getUserStories ids).
Proof. unfold IntegrationService.getUserStories. repeat preserves_step. Qed.

Lemma preserves_getTasks ids : preserves R (IntegrationService.getTasks ids).
Proof. unfold IntegrationService.getTasks. repeat preserves_step. Qed.

Lemma preserves_getCodeCommits ids : preserves R (IntegrationService.getCodeCommits ids).
Proof. unfold IntegrationService.getCodeCommits. repeat preserves_step. Qed.

Lemma preserves_getDeployments ids : preserves R (IntegrationService.getDeployments ids).
Proof. unfold IntegrationService.getDeployments. repeat preserves_step. Qed.

Lemma preserves_getDeploymentStatus ids :
  preserves R (IntegrationService.getDeploymentStatus ids).
Proof. unfold IntegrationService.getDeploymentStatus. repeat preserves_step. Qed.

Ltac preserves_route_with extra :=
  repeat first
    [ extra
    | apply preserves_logAccess | apply preserves_logModification
    | apply preserves_logUnauthorizedAccess
    | apply preserves_getUserStories | apply preserves_getTasks
    | apply preserves_getCodeCommits | apply preserves_getDeployments
    | apply preserves_getDeploymentStatus
    | preserves_step ].

Ltac preserves_route := preserves_route_with fail.

Lemma preserves_enrich r : preserves R (traceabilityRouter.enrich r).
Proof. unfold traceabilityRouter.enrich. preserves_route. Qed.

Lemma preserves_report_row r : preserves R (traceabilityRouter.report_row r).
Proof. unfold traceabilityRouter.report_row. preserves_route. Qed.

Lemma preserves_get_matrix req : preserves R (traceabilityRouter.get_matrix req).
Proof.
  unfold traceabilityRouter.get_matrix. preserves_route.
Qed.

Lemma preserves_get_requirement req : preserves R (traceabilityRouter.get_requirement req).
Proof.
  unfold traceabilityRouter.get_requirement. preserves_route.
Qed.

Lemma preserves_get_report req : preserves R (traceabilityRouter.get_report req).
Proof.
  unfold traceabilityRouter.get_report. preserves_route.
Qed.

Lemma preserves_ensureAuthenticated req : preserves R (ensureAuthenticated req).
Proof. unfold ensureAuthenticated. preserves_route. Qed.

Lemma preserves_authorize required req : preserves R (authorize required req).
Proof. unfold authorize. preserves_route. Qed.

Lemma preserves_use m handler req :
  preserves R (m req) → preserves R (handler req) → preserves R (use m handler req).
Proof. intros Hm Hh. unfold use. preserves_route. Qed.

(** The two routes that write, for a relation that also holds across a write
    to the requirement table. *)
Hypothesis R_requirements : ∀ f w, R w (set_requirements f w).
Hypothesis R_database_clock : ∀ f w, R w (set_database_clock f w).

Lemma preserves_requirementRepo_save r : preserves R (requirementRepo_save r).
Proof.
  apply preserves_bind; [assumption|apply preserves_requirement_repo_op|].
  intros _ w. unfold bind, get_world, modify, ret. simpl.
  eapply R_trans; [apply R_requirements|apply R_database_clock].
Qed.

Lemma preserves_assign_links r b u :
  preserves R (traceabilityRouter.assign_links r b u).
Proof.
  unfold traceabilityRouter.assign_links.
  destruct (first_not_iterable b); [by apply preserves_throw|by apply preserves_ret].
Qed.

Lemma preserves_post_requirement_link req :
  preserves R (traceabilityRouter.post_requirement_link req).
Proof.
  unfold traceabilityRouter.post_requirement_link. cbv zeta.
  preserves_route_with
    ltac:(first [apply preserves_requirementRepo_save|apply preserves_assign_links]).
Qed.

Lemma preserves_patch_requirement_flags req :
  preserves R (traceabilityRouter.patch_requirement_flags req).
Proof.
  unfold traceabilityRouter.patch_requirement_flags. cbv zeta.
  preserves_route_with ltac:(apply preserves_requirementRepo_save).
Qed.

End entry_points.

Lemma audit_appended_refl w : audit_appended w w.
Proof. unfold audit_appended. done. Qed.

Lemma audit_appended_trans w1 w2 w3 :
  audit_appended w1 w2 → audit_appended w2 w3 → audit_appended w1 w3.
Proof. unfold audit_appended. intros. by etrans. Qed.

(** Closes the side conditions on the relation when an entry point is
    shown to preserve [audit_appended] or [same_requirements]. *)
Ltac relation_step :=
  first
    [ exact audit_appended_refl | exact audit_appended_trans
    | by (intros; unfold audit_appended; simpl; apply prefix_app_r)
    | by (intros; unfold audit_appended; simpl)
    | by (intros; unfold same_requirements; simpl)
    | by (unfold same_requirements; intros; simpl in *; congruence) ].

Lemma exportLogs_reads_only format w :
  audit_logs (snd (AuditLogService.exportLogs format w)) = audit_logs w
  ∧ requirements (snd (AuditLogService.exportLogs format w)) = requirements w.
Proof.
  unfold AuditLogService.exportLogs, try_catch, auditRepo_find_desc, bind, audit_repo_op.
  destruct (audit_faults w) as [|[] rest]; simpl; [|done|];
    (destruct format; [done|]); by destruct (mapM _ _).
Qed.

Lemma append_only_mounted handler req :
  preserves audit_appended (handler req) →
  preserves audit_appended (use authMiddleware handler req).
Proof.
  intros Hh. apply preserves_use; try relation_step.
  apply preserves_ensureAuthenticated; relation_step.
Qed.

(** X1.  The audit table is append-only.  Whatever the request, the world
    and the failures to come, each recording function, [authorize] and each
    of the five mounted routes leaves the rows that the audit table held in
    place, in order and unchanged: rows are only ever added at the end.  The
    export adds none. *)
Theorem audit_table_is_append_only (user : option User) (action : string)
    (details : Js.Value) (origin : option Request) (ip url : string)
    (name role_name : option string) (format : AuditLogService.Format)
    (required : list string) (req : Request) (w : World) :
  audit_appended w (snd (AuditLogService.logAccess user action details origin w))
  ∧ audit_appended w (snd (AuditLogService.logModification user action details origin w))
  ∧ audit_appended w
      (snd (AuditLogService.logUnauthorizedAccess ip url name role_name w))
  ∧ audit_logs (snd (AuditLogService.exportLogs format w)) = audit_logs w
  ∧ audit_appended w (snd (authorize required req w))
  ∧ audit_appended w (snd (app.matrix_route req w))
  ∧ audit_appended w (snd (app.requirement_route req w))
  ∧ audit_appended w (snd (app.link_route req w))
  ∧ audit_appended w (snd (app.report_route req w))
  ∧ audit_appended w (snd (app.flags_route req w)).
Proof.
  split_and!.
  - apply (preserves_logAccess audit_appended); relation_step.
  - apply (preserves_logModification audit_appended); relation_step.
  - apply (preserves_logUnauthorizedAccess audit_appended); relation_step.
  - apply exportLogs_reads_only.
  - apply (preserves_authorize audit_appended); relation_step.
  - apply append_only_mounted, preserves_get_matrix; relation_step.
  - apply append_only_mounted, preserves_get_requirement; relation_step.
  - apply append_only_mounted, preserves_post_requirement_link; relation_step.
  - apply append_only_mounted, preserves_get_report; relation_step.
  - apply append_only_mounted, preserves_patch_requirement_flags; relation_step.
Qed.

Lemma same_requirements_refl w : same_requirements w w.
Proof. done. Qed.

Lemma same_requirements_trans w1 w2 w3 :
  same_requirements w1 w2 → same_requirements w2 w3 → same_requirements w1 w3.
Proof. unfold same_requirements. congruence. Qed.

(** X2.  Reading never writes.  Whatever the request, the world, the
    answers of the upstream systems and the failures to come, the three
    [GET] routes, [authorize], the recording functions and the export leave
    the requirement table exactly as it was. *)
Theorem reading_leaves_requirements_alone (user : option User) (action : string)
    (details : Js.Value) (origin : option Request) (ip url : string)
    (name role_name : option string) (format : AuditLogService.Format)
    (required : list string) (req : Request) (w : World) :
  requirements (snd (app.matrix_route req w)) = requirements w
  ∧ requirements (snd (app.requirement_route req w)) = requirements w
  ∧ requirements (snd (app.report_route req w)) = requirements w
  ∧ requirements (snd (authorize required req w)) = requirements w
  ∧ requirements (snd (AuditLogService.logAccess user action details origin w))
    = requirements w
  ∧ requirements (snd (AuditLogService.logModification user action details origin w))
    = requirements w
  ∧ requirements (snd (AuditLogService.logUnauthorizedAccess ip url name role_name w))
    = requirements w
  ∧ requirements (snd (AuditLogService.exportLogs format w)) = requirements w.
Proof.
  assert (∀ handler, preserves same_requirements (handler req) →
            preserves same_requirements (use authMiddleware handler req)) as Hmounted.
  { intros handler Hh.
    apply preserves_use;
      [exact same_requirements_refl|exact same_requirements_trans| |done].
    apply preserves_ensureAuthenticated;
      first [exact same_requirements_refl|exact same_requirements_trans|relation_step]. }
  split_and!.
  - apply Hmounted, preserves_get_matrix;
      first [exact same_requirements_refl|exact same_requirements_trans|relation_step].
  - apply Hmounted, preserves_get_requirement;
      first [exact same_requirements_refl|exact same_requirements_trans|relation_step].
  - apply Hmounted, preserves_get_report;
      first [exact same_requirements_refl|exact same_requirements_trans|relation_step].
  - apply (preserves_authorize same_requirements);
      first [exact same_requirements_refl|exact same_requirements_trans|relation_step].
  - apply (preserves_logAccess same_requirements);
      first [exact same_requirements_refl|exact same_requirements_trans|relation_step].
  - apply (preserves_logModification same_requirements);
      first [exact same_requirements_refl|exact same_requirements_trans|relation_step].
  - apply (preserves_logUnauthorizedAccess same_requirements);
      first [exact same_requirements_refl|exact same_requirements_trans|relation_step].
  - apply exportLogs_reads_only.
Qed.

(** ** Requests that are turned away *)

(** A recording call of a route: it completes, touches only what audit
    recording touches, and with the audit repository available it appends
    the row of the call. *)
Lemma logAccess_spec user action details w :
  ∃ w',
    AuditLogService.logAccess user action details None w = (Normal tt, w')
    ∧ audit_only w w'
    ∧ (audit_repo_up w →
         audit_repo_up w'
         ∧ audit_logs w' = (audit_logs w ++ [audit_row w action user details])%list).
Proof.
  unfold AuditLogService.logAccess.
  destruct (decide (audit_repo_up w)) as [Hup|Hdown].
  - destruct (record_up
      {| draft_action := action; draft_username := username <$> user;
         draft_role := role <$> user;
         draft_details := AuditLogService.details_column details;
         draft_ip := None |} LInfo ("AuditLog: Access - " ++ action)
      "AuditLogService.logAccess error:" w Hup) as (w' & Hrun & Hao & Hup' & Hrows).
    exists w'. by split_and!.
  - destruct (record_never_throws
      {| draft_action := action; draft_username := username <$> user;
         draft_role := role <$> user;
         draft_details := AuditLogService.details_column details;
         draft_ip := None |} LInfo ("AuditLog: Access - " ++ action)
      "AuditLogService.logAccess error:" w) as (w' & Hrun & Hao & _).
    exists w'. by split_and!.
Qed.

Lemma logModification_spec user action details w :
  ∃ w',
    AuditLogService.logModification user action details None w = (Normal tt, w')
    ∧ audit_only w w'
    ∧ (audit_repo_up w →
         audit_repo_up w'
         ∧ audit_logs w' = (audit_logs w ++ [audit_row w action user details])%list).
Proof.
  unfold AuditLogService.logModification.
  destruct (decide (audit_repo_up w)) as [Hup|Hdown].
  - destruct (record_up
      {| draft_action := action; draft_username := username <$> user;
         draft_role := role <$> user;
         draft_details := AuditLogService.details_column details;
         draft_ip := None |} LInfo ("AuditLog: Modification - " ++ action)
      "AuditLogService.logModification error:" w Hup) as (w' & Hrun & Hao & Hup' & Hrows).
    exists w'. by split_and!.
  - destruct (record_never_throws
      {| draft_action := action; draft_username := username <$> user;
         draft_role := role <$> user;
         draft_details := AuditLogService.details_column details;
         draft_ip := None |} LInfo ("AuditLog: Modification - " ++ action)
      "AuditLogService.logModification error:" w) as (w' & Hrun & Hao & _).
    exists w'. by split_and!.
Qed.

(** X3.  A request without a principal stops at [authMiddleware].  The
    handler mounted behind it is not consulted: the answer is 401
    [Unauthorized], only the diagnostics and the audit storage are touched,
    and with the audit repository available exactly one row is appended,
    an [UNAUTHORIZED_ACCESS] row with the address and the URL of the request
    and neither user name nor role. *)
Theorem unauthenticated_request_stops_at_middleware
    (handler : Request → Eff Outcome) (req : Request) (w : World) :
  req_user req = None →
  use authMiddleware handler req w = ensureAuthenticated req w
  ∧ ∃ w',
      use authMiddleware handler req w = (Normal Unauthorized401, w')
      ∧ audit_only w w'
      ∧ (audit_repo_up w →
           audit_logs w' = (audit_logs w ++ [anonymous_row w req])%list).
Proof.
  intros Hnone.
  assert (ensureAuthenticated req w
          = bind (logger_warn "Unauthorized access attempt") (λ _,
              bind (AuditLogService.logUnauthorizedAccess (req_ip req)
                      (req_originalUrl req) None None) (λ _,
                ret Unauthorized401)) w) as Hens.
  { unfold ensureAuthenticated, isAuthenticated. rewrite Hnone.
    by rewrite bool_decide_false by (by intros [? ?]). }
  unfold logger_warn in Hens. rewrite bind_logger_log in Hens.
  destruct (logUnauthorizedAccess_spec (req_ip req) (req_originalUrl req) None None
    (set_diagnostics
       (λ d, d ++ [{| level := LWarn; message := "Unauthorized access attempt" |}])%list
       w)) as (w' & Hlog & Hao & Hrows).
  rewrite (bind_returns _ _ _ _ _ Hlog) in Hens.
  assert (use authMiddleware handler req w = ensureAuthenticated req w) as Huse.
  { unfold use, authMiddleware, bind. by rewrite Hens. }
  split; [done|]. exists w'. rewrite Huse, Hens. split; [done|]. split.
  - eapply audit_only_trans; [|done]. frame.
  - intros Hup. by rewrite Hrows.
Qed.

(** The theorem for an anonymous request to the link route. *)
Lemma unauthenticated_request_stops_at_middleware_witness :
  use authMiddleware traceabilityRouter.post_requirement_link
    (SampleAuth.request_of None) Sample.world
  = ensureAuthenticated (SampleAuth.request_of None) Sample.world
  ∧ ∃ w',
      use authMiddleware traceabilityRouter.post_requirement_link
        (SampleAuth.request_of None) Sample.world
      = (Normal Unauthorized401, w')
      ∧ audit_only Sample.world w'
      ∧ (audit_repo_up Sample.world →
           audit_logs w'
           = (audit_logs Sample.world
                ++ [anonymous_row Sample.world (SampleAuth.request_of None)])%list).
Proof.
  apply (unauthenticated_request_stops_at_middleware
           traceabilityRouter.post_requirement_link (SampleAuth.request_of None)
           Sample.world).
  reflexivity.
Defined.

(** X4.  A missing requirement is answered 404 by the three routes that
    take an id, when the repository is available and holds no row under
    that id.  Nothing is created: the requirement table is as before.  With
    the audit repository available one row is appended, tagged with the
    not-found action of the route, the caller's name and role and the
    requested id. *)
Theorem missing_requirement_is_not_found (req : Request) (w : World) :
  requirement_repo_up w →
  requirements w !! req_params_id req = None →
  let details := Js.Obj [("id", Js.Str (req_params_id req))] in
  let answered (route : Request → Eff Outcome) (action : string) :=
    ∃ w',
      route req w = (Normal NotFound404, w')
      ∧ requirements w' = requirements w
      ∧ (audit_repo_up w →
           audit_logs w'
           = (audit_logs w ++ [audit_row w action (req_user req) details])%list) in
  answered traceabilityRouter.get_requirement "GET_REQUIREMENT_TRACEABILITY_NOT_FOUND"
  ∧ answered traceabilityRouter.post_requirement_link
      "LINK_ARTIFACTS_REQUIREMENT_NOT_FOUND"
  ∧ answered traceabilityRouter.patch_requirement_flags
      "UPDATE_FLAGS_REQUIREMENT_NOT_FOUND".
Proof.
  intros Hup Hnone details answered. subst answered. cbv beta.
  split_and!.
  - unfold traceabilityRouter.get_requirement, try_catch.
    rewrite (bind_returns _ _ _ _ _ (requirementRepo_findOne_up _ w Hup)), Hnone.
    destruct (logAccess_spec (req_user req) "GET_REQUIREMENT_TRACEABILITY_NOT_FOUND"
                details (after_requirement_op w)) as (w' & Hlog & Hao & Hrows).
    rewrite (bind_returns _ _ _ _ _ Hlog). exists w'. split; [done|].
    split; [apply Hao|]. intros Haudit. by destruct (Hrows Haudit) as [_ ->].
  - unfold traceabilityRouter.post_requirement_link, try_catch. cbv zeta.
    rewrite (bind_returns _ _ _ _ _ (requirementRepo_findOne_up _ w Hup)), Hnone.
    destruct (logModification_spec (req_user req) "LINK_ARTIFACTS_REQUIREMENT_NOT_FOUND"
                details (after_requirement_op w)) as (w' & Hlog & Hao & Hrows).
    rewrite (bind_returns _ _ _ _ _ Hlog). exists w'. split; [done|].
    split; [apply Hao|]. intros Haudit. by destruct (Hrows Haudit) as [_ ->].
  - unfold traceabilityRouter.patch_requirement_flags, try_catch. cbv zeta.
    rewrite (bind_returns _ _ _ _ _ (requirementRepo_findOne_up _ w Hup)), Hnone.
    destruct (logModification_spec (req_user req) "UPDATE_FLAGS_REQUIREMENT_NOT_FOUND"
                details (after_requirement_op w)) as (w' & Hlog & Hao & Hrows).
    rewrite (bind_returns _ _ _ _ _ Hlog). exists w'. split; [done|].
    split; [apply Hao|]. intros Haudit. by destruct (Hrows Haudit) as [_ ->].
Qed.

(** The theorem for the id [r404] in the sample world. *)
Lemma missing_requirement_is_not_found_witness :
  let req := SampleFaults.missing_request in
  let w := Sample.world in
  let details := Js.Obj [("id", Js.Str (req_params_id req))] in
  let answered (route : Request → Eff Outcome) (action : string) :=
    ∃ w',
      route req w = (Normal NotFound404, w')
      ∧ requirements w' = requirements w
      ∧ (audit_repo_up w →
           audit_logs w'
           = (audit_logs w ++ [audit_row w action (req_user req) details])%list) in
  answered traceabilityRouter.get_requirement "GET_REQUIREMENT_TRACEABILITY_NOT_FOUND"
  ∧ answered traceabilityRouter.post_requirement_link
      "LINK_ARTIFACTS_REQUIREMENT_NOT_FOUND"
  ∧ answered traceabilityRouter.patch_requirement_flags
      "UPDATE_FLAGS_REQUIREMENT_NOT_FOUND".
Proof.
  apply (missing_requirement_is_not_found SampleFaults.missing_request Sample.world).
  - constructor.
  - reflexivity.
Defined.

(** X5.  A failure of the repository when a route loads is surfaced, not
    swallowed.  When the next operation of the requirement repository
    throws, each of the five routes hands the error to the error handler
    with [next(error)], writes its own error line to the diagnostics, and
    stops: neither table changes and no audit row is attempted. *)
Theorem load_failure_is_surfaced (req : Request) (w : World) (rest : list bool) :
  requirement_faults w = true :: rest →
  traceabilityRouter.get_matrix req w
    = (Normal RepositoryError,
       after_repository_failure "Error fetching traceability matrix:" rest w)
  ∧ traceabilityRouter.get_requirement req w
    = (Normal RepositoryError,
       after_repository_failure "Error fetching requirement traceability:" rest w)
  ∧ traceabilityRouter.post_requirement_link req w
    = (Normal RepositoryError,
       after_repository_failure "Error linking artifacts to requirement:" rest w)
  ∧ traceabilityRouter.get_report req w
    = (Normal RepositoryError,
       after_repository_failure "Error generating traceability report:" rest w)
  ∧ traceabilityRouter.patch_requirement_flags req w
    = (Normal RepositoryError,
       after_repository_failure "Error updating requirement flags:" rest w).
Proof.
  intros Hfault.
  assert (requirement_repo_op w
          = (Thrown (QueryFailed "requirements"), set_requirement_faults (λ _, rest) w))
    as Hop.
  { unfold requirement_repo_op. by rewrite Hfault. }
  split_and!.
  - unfold traceabilityRouter.get_matrix, try_catch, requirementRepo_find, bind.
    by rewrite Hop.
  - unfold traceabilityRouter.get_requirement, try_catch, requirementRepo_findOne, bind.
    by rewrite Hop.
  - unfold traceabilityRouter.post_requirement_link, try_catch, requirementRepo_findOne,
      bind. by rewrite Hop.
  - unfold traceabilityRouter.get_report, try_catch, requirementRepo_find, bind.
    by rewrite Hop.
  - unfold traceabilityRouter.patch_requirement_flags, try_catch,
      requirementRepo_findOne, bind. by rewrite Hop.
Qed.

(** The theorem for a world whose repository fails at once. *)
Lemma load_failure_is_surfaced_witness :
  let req := Sample.link_request in
  let w := SampleFaults.load_fails in
  traceabilityRouter.get_matrix req w
    = (Normal RepositoryError,
       after_repository_failure "Error fetching traceability matrix:" [] w)
  ∧ traceabilityRouter.get_requirement req w
    = (Normal RepositoryError,
       after_repository_failure "Error fetching requirement traceability:" [] w)
  ∧ traceabilityRouter.post_requirement_link req w
    = (Normal RepositoryError,
       after_repository_failure "Error linking artifacts to requirement:" [] w)
  ∧ traceabilityRouter.get_report req w
    = (Normal RepositoryError,
       after_repository_failure "Error generating traceability report:" [] w)
  ∧ traceabilityRouter.patch_requirement_flags req w
    = (Normal RepositoryError,
       after_repository_failure "Error updating requirement flags:" [] w).
Proof.
  apply (load_failure_is_surfaced Sample.link_request SampleFaults.load_fails []).
  reflexivity.
Defined.

(** X6.  A failed save is surfaced and leaves no trace in the tables.  When
    the repository loads the requirement and then throws at the save, the
    link route (for a body whose supplied fields are iterable, so that the
    save is reached) and the flags route hand the error to the error
    handler and write their error line; the stored requirement is the one
    that was loaded, without the merge or the new flags, and no audit row
    is recorded for the attempt. *)
Theorem save_failure_is_surfaced (req : Request) (w : World) (r : Requirement)
    (rest : list bool) :
  requirement_faults w = false :: true :: rest →
  requirements w !! req_params_id req = Some r →
  (first_not_iterable (req_body req) = None →
   traceabilityRouter.post_requirement_link req w
   = (Normal RepositoryError,
      after_repository_failure "Error linking artifacts to requirement:" rest w))
  ∧ traceabilityRouter.patch_requirement_flags req w
    = (Normal RepositoryError,
       after_repository_failure "Error updating requirement flags:" rest w)
  ∧ requirements (after_repository_failure "Error linking artifacts to requirement:"
                    rest w) !! req_params_id req = Some r
  ∧ audit_logs (after_repository_failure "Error linking artifacts to requirement:"
                  rest w) = audit_logs w.
Proof.
  intros Hfault Hfound.
  assert (requirementRepo_findOne (req_params_id req) w
          = (Normal (Some r), set_requirement_faults (λ _, true :: rest) w)) as Hload.
  { unfold requirementRepo_findOne, bind, requirement_repo_op. rewrite Hfault. simpl.
    by rewrite Hfound. }
  assert (∀ e, requirementRepo_save e (set_requirement_faults (λ _, true :: rest) w)
               = (Thrown (QueryFailed "requirements"),
                  set_requirement_faults (λ _, rest) w)) as Hsave.
  { intros e. by unfold requirementRepo_save, bind, requirement_repo_op. }
  split_and!; [| |done..].
  - intros Hiter. unfold traceabilityRouter.post_requirement_link, try_catch. cbv zeta.
    rewrite (bind_returns _ _ _ _ _ Hload).
    rewrite assign_links_iterable, bind_ret_l by done.
    by rewrite (bind_throws _ _ _ _ _ (Hsave _)).
  - unfold traceabilityRouter.patch_requirement_flags, try_catch. cbv zeta.
    rewrite (bind_returns _ _ _ _ _ Hload).
    by rewrite (bind_throws _ _ _ _ _ (Hsave _)).
Qed.

(** The theorem for the sample link request when the save fails. *)
Lemma save_failure_is_surfaced_witness :
  let req := Sample.link_request in
  let w := SampleFaults.save_fails in
  traceabilityRouter.post_requirement_link req w
    = (Normal RepositoryError,
       after_repository_failure "Error linking artifacts to requirement:" [] w)
  ∧ traceabilityRouter.patch_requirement_flags req w
    = (Normal RepositoryError,
       after_repository_failure "Error updating requirement flags:" [] w)
  ∧ requirements (after_repository_failure "Error linking artifacts to requirement:"
                    [] w) !! req_params_id req = Some Sample.login
  ∧ audit_logs (after_repository_failure "Error linking artifacts to requirement:"
                  [] w) = audit_logs w.
Proof.
  destruct (save_failure_is_surfaced Sample.link_request SampleFaults.save_fails
              Sample.login []) as (Hlink & Hflags & Hrow & Hlogs);
    [reflexivity|reflexivity|].
  split; [apply Hlink; reflexivity|]. split; [exact Hflags|].
  split; [exact Hrow|exact Hlogs].
Defined.

(** ** The aggregation and the stores *)

Lemma only_logged_refl w : only_logged w w.
Proof. by repeat split. Qed.

Lemma only_logged_trans w1 w2 w3 :
  only_logged w1 w2 → only_logged w2 w3 → only_logged w1 w3.
Proof. intros (?&?&?&?&?&?&?) (?&?&?&?&?&?&?). repeat split; congruence. Qed.

Lemma only_logged_diagnostics (f : list LogLine → list LogLine) w :
  only_logged w (set_diagnostics f w).
Proof. by repeat split. Qed.

Ltac only_logged_step :=
  first [exact only_logged_refl|exact only_logged_trans|exact only_logged_diagnostics].

(** X7.  The aggregation touches no store.  Whatever the identifiers and
    the answers of the upstream systems, the seven methods of the
    integration service, and the two callbacks that the routes build from
    them, change nothing but the diagnostic stream: the requirement table,
    the audit table and the state of both repositories are as before. *)
Theorem aggregation_only_logs (ids : list string) (r : Requirement) (w : World) :
  only_logged w (snd (IntegrationService.getUserStories ids w))
  ∧ only_logged w (snd (IntegrationService.getTasks ids w))
  ∧ only_logged w (snd (IntegrationService.getTestCases ids w))
  ∧ only_logged w (snd (IntegrationService.getCodeCommits ids w))
  ∧ only_logged w (snd (IntegrationService.getDeployments ids w))
  ∧ only_logged w (snd (IntegrationService.getTestResults ids w))
  ∧ only_logged w (snd (IntegrationService.getDeploymentStatus ids w))
  ∧ only_logged w (snd (traceabilityRouter.enrich r w))
  ∧ only_logged w (snd (traceabilityRouter.report_row r w)).
Proof.
  split_and!.
  - apply (preserves_getUserStories only_logged); only_logged_step.
  - apply (preserves_getTasks only_logged); only_logged_step.
  - apply (preserves_getTestCases only_logged); only_logged_step.
  - apply (preserves_getCodeCommits only_logged); only_logged_step.
  - apply (preserves_getDeployments only_logged); only_logged_step.
  - apply (preserves_getTestResults only_logged); only_logged_step.
  - apply (preserves_getDeploymentStatus only_logged); only_logged_step.
  - apply (preserves_enrich only_logged); only_logged_step.
  - apply (preserves_report_row only_logged); only_logged_step.
Qed.

Lemma enrich_only_logged r : preserves only_logged (traceabilityRouter.enrich r).
Proof.
  apply preserves_enrich; only_logged_step.
Qed.

Lemma report_row_only_logged r : preserves only_logged (traceabilityRouter.report_row r).
Proof.
  apply preserves_report_row; only_logged_step.
Qed.

Lemma map_eff_only_logged {A B} (f : A → Eff B) xs :
  (∀ x, preserves only_logged (f x)) → preserves only_logged (map_eff f xs).
Proof.
  apply preserves_map_eff; only_logged_step.
Qed.

(** ** What an answered request leaves in the audit table *)

Lemma audit_row_only_logged w w' action user details :
  only_logged w w' → audit_row w' action user details = audit_row w action user details.
Proof. intros (_&Hrows&_&_&Hgen&_). unfold audit_row. by rewrite Hrows, Hgen. Qed.

Lemma audit_repo_up_only_logged w w' : only_logged w w' → audit_repo_up w → audit_repo_up w'.
Proof. intros (_&_&_&Hf&_). unfold audit_repo_up. by rewrite Hf. Qed.

Lemma after_requirement_op_only_logged w w' :
  only_logged (after_requirement_op w) w' →
  requirements w' = requirements w ∧ audit_logs w' = audit_logs w
  ∧ audit_faults w' = audit_faults w ∧ audit_generated w' = audit_generated w
  ∧ upstream w' = upstream w
  ∧ requirement_faults w' = tail (requirement_faults w).
Proof. intros (?&?&?&?&?&?&?). by split_and!. Qed.

Lemma enrich_total r w :
  ∃ e w', traceabilityRouter.enrich r w = (Normal e, w') ∧ only_logged w w' ∧ base e = r.
Proof.
  destruct (enrich_spec r w) as (e & w' & Hrun & _ & Hbase & _).
  exists e, w'. split; [done|]. split; [|done].
  pose proof (enrich_only_logged r w) as Hol. by rewrite Hrun in Hol.
Qed.

Lemma report_row_total r w :
  ∃ row w',
    traceabilityRouter.report_row r w = (Normal row, w') ∧ only_logged w w'.
Proof.
  destruct (report_row_spec r w) as (row & w' & Hrun & _).
  exists row, w'. split; [done|].
  pose proof (report_row_only_logged r w) as Hol. by rewrite Hrun in Hol.
Qed.

Lemma map_eff_total {A B} (f : A → Eff B) xs w :
  (∀ x w, ∃ y w', f x w = (Normal y, w') ∧ only_logged w w') →
  ∃ ys w', map_eff f xs w = (Normal ys, w') ∧ only_logged w w'
           ∧ length ys = length xs.
Proof.
  intros Hf. revert w. induction xs as [|x xs IH]; intros w; simpl.
  - exists [], w. split; [done|]. split; [apply only_logged_refl|done].
  - destruct (Hf x w) as (y & w1 & Hy & Hol1).
    destruct (IH w1) as (ys & w2 & Hys & Hol2 & Hlen).
    exists (y :: ys), w2. unfold bind. rewrite Hy, Hys.
    split; [done|]. split; [by eapply only_logged_trans|]. simpl. by rewrite Hlen.
Qed.

(** A recording call after steps that left the audit storage alone. *)
Lemma record_after_only_logged (log : option User → string → Js.Value → option Request
                                       → Eff unit) w w1 user action details :
  (∀ w0, ∃ w', log user action details None w0 = (Normal tt, w')
           ∧ audit_only w0 w'
           ∧ (audit_repo_up w0 →
                audit_repo_up w'
                ∧ audit_logs w' = (audit_logs w0 ++ [audit_row w0 action user details])%list)) →
  audit_logs w1 = audit_logs w →
  audit_faults w1 = audit_faults w →
  audit_generated w1 = audit_generated w →
  ∃ w2, log user action details None w1 = (Normal tt, w2)
        ∧ audit_only w1 w2
        ∧ (audit_repo_up w →
             audit_logs w2 = (audit_logs w ++ [audit_row w action user details])%list).
Proof.
  intros Hlog Hrows Hfaults Hgen.
  destruct (Hlog w1) as (w2 & Hrun & Hao & Hup).
  exists w2. split; [done|]. split; [done|]. intros Haudit.
  destruct Hup as [_ ->]; [unfold audit_repo_up; by rewrite Hfaults|].
  unfold audit_row. by rewrite Hrows, Hgen.
Qed.

(** The two listing routes when the repository is available: every stored
    requirement goes through the callback, whose steps only log, and one
    access is recorded with the number of stored requirements. *)
Lemma listing_trace {B} (f : Requirement → Eff B) (body : list B → ResponseBody)
    (action msg : string) req w :
  (∀ r w, ∃ y w', f r w = (Normal y, w') ∧ only_logged w w') →
  requirement_repo_up w →
  let reqs := (map_to_list (requirements w)).*2 in
  let details := Js.Obj [("count", Js.Num (pretty (Z.of_nat (length reqs))))] in
  ∃ ys w1 w2,
    map_eff f reqs (after_requirement_op w) = (Normal ys, w1)
    ∧ only_logged (after_requirement_op w) w1
    ∧ audit_only w1 w2
    ∧ try_catch
        (do reqs <- requirementRepo_find;
         do ys <- map_eff f reqs;
         run AuditLogService.logAccess (req_user req) action
               (Js.Obj [("count", Js.Num (pretty (Z.of_nat (length reqs))))]) None;
         ret (json_response 200 (body ys)))
        (λ error, run logger_error msg; ret (NextError error)) w
      = (Normal (json_response 200 (body ys)), w2)
    ∧ (audit_repo_up w →
         audit_logs w2
         = (audit_logs w ++ [audit_row w action (req_user req) details])%list).
Proof.
  intros Hf Hup reqs details.
  destruct (map_eff_total f reqs (after_requirement_op w) Hf) as (ys & w1 & Hys & Hol & _).
  destruct (after_requirement_op_only_logged w w1 Hol) as (_ & Hrows & Hfaults & Hgen & _).
  destruct (record_after_only_logged AuditLogService.logAccess w w1 (req_user req) action
              details (logAccess_spec _ _ _) Hrows Hfaults Hgen) as (w2 & Hlog & Hao & Hrow).
  exists ys, w1, w2. split; [done|]. split; [done|]. split; [done|]. split; [|done].
  unfold try_catch.
  rewrite (bind_returns _ _ _ _ _ (requirementRepo_find_up w Hup)).
  fold reqs. rewrite (bind_returns _ _ _ _ _ Hys).
  fold details. by rewrite (bind_returns _ _ _ _ _ Hlog).
Qed.

Lemma get_requirement_found req w r :
  requirement_repo_up w →
  requirements w !! req_params_id req = Some r →
  let details := Js.Obj [("id", Js.Str (req_params_id req))] in
  ∃ e w1 w2,
    traceabilityRouter.enrich r (after_requirement_op w) = (Normal e, w1)
    ∧ only_logged (after_requirement_op w) w1
    ∧ base e = r
    ∧ audit_only w1 w2
    ∧ traceabilityRouter.get_requirement req w
      = (Normal (json_response 200 (RequirementBody e)), w2)
    ∧ (audit_repo_up w →
         audit_logs w2
         = (audit_logs w
              ++ [audit_row w "GET_REQUIREMENT_TRACEABILITY" (req_user req) details])%list).
Proof.
  intros Hup Hfound details.
  destruct (enrich_total r (after_requirement_op w)) as (e & w1 & He & Hol & Hbase).
  destruct (after_requirement_op_only_logged w w1 Hol) as (_ & Hrows & Hfaults & Hgen & _).
  destruct (record_after_only_logged AuditLogService.logAccess w w1 (req_user req)
              "GET_REQUIREMENT_TRACEABILITY" details (logAccess_spec _ _ _)
              Hrows Hfaults Hgen) as (w2 & Hlog & Hao & Hrow).
  exists e, w1, w2. split_and!; try done.
  unfold traceabilityRouter.get_requirement, try_catch.
  rewrite (bind_returns _ _ _ _ _ (requirementRepo_findOne_up _ w Hup)), Hfound.
  rewrite (bind_returns _ _ _ _ _ He).
  fold details. by rewrite (bind_returns _ _ _ _ _ Hlog).
Qed.

(** The two writing routes are instances of one shape. *)
Lemma post_requirement_link_shape req :
  traceabilityRouter.post_requirement_link req
  = writing_route
      (λ loaded, traceabilityRouter.assign_links loaded (req_body req) (req_user req))
      "LINK_ARTIFACTS_TO_REQUIREMENT" "LINK_ARTIFACTS_REQUIREMENT_NOT_FOUND"
      "Error linking artifacts to requirement:" "Artifacts linked successfully"
      (link_details req) req.
Proof. reflexivity. Qed.

Lemma patch_requirement_flags_shape req :
  traceabilityRouter.patch_requirement_flags req
  = writing_route
      (λ loaded, ret (traceabilityRouter.flags_into loaded (req_body req) (req_user req)))
      "UPDATE_REQUIREMENT_FLAGS" "UPDATE_FLAGS_REQUIREMENT_NOT_FOUND"
      "Error updating requirement flags:" "Flags updated successfully"
      (flags_details req) req.
Proof. reflexivity. Qed.

(** A writing route on a stored requirement when the repository is
    available and the assignments go through: the entity is written under
    its id, and one modification is recorded. *)
Lemma writing_trace (change : Requirement → Eff Requirement)
    (action missing msg answer : string) (details : Js.Value) req w r e :
  requirement_repo_up w →
  requirements w !! req_params_id req = Some r →
  (∀ w0, change r w0 = (Normal e, w0)) →
  ∃ w2,
    writing_route change action missing msg answer details req w
    = (Normal (json_response 200 (MessageBody answer (saved_entity w e))), w2)
    ∧ requirements w2 = <[id e := Orm.stored (saved_entity w e)]> (requirements w)
    ∧ upstream w2 = upstream w
    ∧ requirement_repo_up w2
    ∧ (audit_repo_up w →
         audit_logs w2
         = (audit_logs w ++ [audit_row w action (req_user req) details])%list).
Proof.
  intros Hup Hfound Hchange.
  pose proof (after_requirement_op_up w Hup) as Hup1.
  destruct (record_after_only_logged AuditLogService.logModification w
              (after_save e (after_requirement_op (after_requirement_op w)))
              (req_user req) action details (logModification_spec _ _ _))
    as (w2 & Hlog & Hao & Hrow); [done..|].
  exists w2. split.
  - unfold writing_route, try_catch.
    rewrite (bind_returns _ _ _ _ _ (requirementRepo_findOne_up _ w Hup)), Hfound.
    rewrite (bind_returns _ _ _ _ _ (Hchange _)).
    rewrite (bind_returns _ _ _ _ _ (requirementRepo_save_up _ _ Hup1)).
    by rewrite (bind_returns _ _ _ _ _ Hlog).
  - destruct Hao as (Hreqs & Hfaults & Hu & _). split_and!; [by rewrite Hreqs|by rewrite Hu| |done].
    unfold requirement_repo_up. rewrite Hfaults. by do 2 apply after_requirement_op_up.
Qed.

Lemma post_requirement_link_trace req w r :
  requirement_repo_up w →
  requirements w !! req_params_id req = Some r →
  first_not_iterable (req_body req) = None →
  let saved :=
    saved_entity w (traceabilityRouter.link_into r (req_body req) (req_user req)) in
  ∃ w2,
    traceabilityRouter.post_requirement_link req w
    = (Normal (json_response 200 (MessageBody "Artifacts linked successfully" saved)), w2)
    ∧ requirements w2 = <[id r := Orm.stored saved]> (requirements w)
    ∧ upstream w2 = upstream w
    ∧ requirement_repo_up w2
    ∧ (audit_repo_up w →
         audit_logs w2
         = (audit_logs w
              ++ [audit_row w "LINK_ARTIFACTS_TO_REQUIREMENT" (req_user req)
                    (link_details req)])%list).
Proof.
  intros Hup Hfound Hiter saved. rewrite post_requirement_link_shape.
  apply (writing_trace _ _ _ _ _ _ req w r
           (traceabilityRouter.link_into r (req_body req) (req_user req)) Hup Hfound).
  intros w0. by rewrite assign_links_iterable.
Qed.

Lemma patch_requirement_flags_trace req w r :
  requirement_repo_up w →
  requirements w !! req_params_id req = Some r →
  let saved :=
    saved_entity w (traceabilityRouter.flags_into r (req_body req) (req_user req)) in
  ∃ w2,
    traceabilityRouter.patch_requirement_flags req w
    = (Normal (json_response 200 (MessageBody "Flags updated successfully" saved)), w2)
    ∧ requirements w2 = <[id r := Orm.stored saved]> (requirements w)
    ∧ upstream w2 = upstream w
    ∧ requirement_repo_up w2
    ∧ (audit_repo_up w →
         audit_logs w2
         = (audit_logs w
              ++ [audit_row w "UPDATE_REQUIREMENT_FLAGS" (req_user req)
                    (flags_details req)])%list).
Proof.
  intros Hup Hfound saved. rewrite patch_requirement_flags_shape.
  by apply (writing_trace _ _ _ _ _ _ req w r
              (traceabilityRouter.flags_into r (req_body req) (req_user req)) Hup Hfound).
Qed.

Lemma count_details_length w :
  Js.Obj [("count", Js.Num (pretty (Z.of_nat (length ((map_to_list (requirements w)).*2)))))]
  = count_details w.
Proof. unfold count_details. by rewrite length_fmap, length_map_to_list. Qed.

(** X8.  An answered request leaves exactly one row in the audit table.
    With both repositories available, each of the five routes appends one
    row and no more, whatever the aggregation met on the way (for the link
    route: when every supplied field of the body is iterable, so that the
    route answers): the row has the action of the route, the name and the
    role of the caller, and as details the number of stored requirements
    (the two listings), the requested id (the single requirement) or the id
    with the submitted fields as they came (the two writing routes).  The
    routes do not hand the request to the recording functions, so the row
    never carries the caller's address. *)
Theorem answered_request_leaves_one_row (req : Request) (w : World) (r : Requirement) :
  requirement_repo_up w →
  audit_repo_up w →
  requirements w !! req_params_id req = Some r →
  first_not_iterable (req_body req) = None →
  let recorded (route : Request → Eff Outcome) (action : string) (details : Js.Value) :=
    audit_logs (snd (route req w))
    = (audit_logs w ++ [audit_row w action (req_user req) details])%list
    ∧ log_ip (audit_row w action (req_user req) details) = None in
  recorded traceabilityRouter.get_matrix "GET_TRACEABILITY_MATRIX" (count_details w)
  ∧ recorded traceabilityRouter.get_report "GET_TRACEABILITY_REPORT" (count_details w)
  ∧ recorded traceabilityRouter.get_requirement "GET_REQUIREMENT_TRACEABILITY"
      (Js.Obj [("id", Js.Str (req_params_id req))])
  ∧ recorded traceabilityRouter.post_requirement_link "LINK_ARTIFACTS_TO_REQUIREMENT"
      (link_details req)
  ∧ recorded traceabilityRouter.patch_requirement_flags "UPDATE_REQUIREMENT_FLAGS"
      (flags_details req).
Proof.
  intros Hup Haudit Hfound Hiter recorded. subst recorded. cbv beta.
  split_and!; try done.
  - destruct (listing_trace traceabilityRouter.enrich MatrixBody "GET_TRACEABILITY_MATRIX"
                "Error fetching traceability matrix:" req w)
      as (ys & w1 & w2 & _ & _ & _ & Hrun & Hrow); [|done|].
    { intros r0 w0. destruct (enrich_total r0 w0) as (e & w' & ? & ? & _). eauto. }
    unfold traceabilityRouter.get_matrix. rewrite Hrun. simpl.
    rewrite <-count_details_length. by apply Hrow.
  - destruct (listing_trace traceabilityRouter.report_row ReportBody
                "GET_TRACEABILITY_REPORT" "Error generating traceability report:" req w)
      as (ys & w1 & w2 & _ & _ & _ & Hrun & Hrow); [|done|].
    { intros r0 w0. apply report_row_total. }
    unfold traceabilityRouter.get_report. rewrite Hrun. simpl.
    rewrite <-count_details_length. by apply Hrow.
  - destruct (get_requirement_found req w r Hup Hfound)
      as (e & w1 & w2 & _ & _ & _ & _ & -> & Hrow). by apply Hrow.
  - destruct (post_requirement_link_trace req w r Hup Hfound Hiter)
      as (w2 & -> & _ & _ & _ & Hrow).
    by apply Hrow.
  - destruct (patch_requirement_flags_trace req w r Hup Hfound)
      as (w2 & -> & _ & _ & _ & Hrow).
    by apply Hrow.
Qed.

(** The theorem for a request for [r1] that links three stories and sets a
    flag to a number, in the sample world. *)
Lemma answered_request_leaves_one_row_witness :
  let req := SampleDetails.request in
  let w := Sample.world in
  let recorded (route : Request → Eff Outcome) (action : string) (details : Js.Value) :=
    audit_logs (snd (route req w))
    = (audit_logs w ++ [audit_row w action (req_user req) details])%list
    ∧ log_ip (audit_row w action (req_user req) details) = None in
  recorded traceabilityRouter.get_matrix "GET_TRACEABILITY_MATRIX" (count_details w)
  ∧ recorded traceabilityRouter.get_report "GET_TRACEABILITY_REPORT" (count_details w)
  ∧ recorded traceabilityRouter.get_requirement "GET_REQUIREMENT_TRACEABILITY"
      (Js.Obj [("id", Js.Str (req_params_id req))])
  ∧ recorded traceabilityRouter.post_requirement_link "LINK_ARTIFACTS_TO_REQUIREMENT"
      (link_details req)
  ∧ recorded traceabilityRouter.patch_requirement_flags "UPDATE_REQUIREMENT_FLAGS"
      (flags_details req).
Proof.
  apply (answered_request_leaves_one_row SampleDetails.request Sample.world Sample.login).
  - constructor.
  - constructor.
  - reflexivity.
  - reflexivity.
Defined.

Example sample_flags_details :
  log_details <$> audit_logs
    (snd (traceabilityRouter.patch_requirement_flags SampleDetails.request Sample.world))
  = [Some ("{" ++ Js.dq ++ "id" ++ Js.dq ++ ":" ++ Js.dq ++ "r1" ++ Js.dq ++ ","
           ++ Js.dq ++ "hasFailedTests" ++ Js.dq ++ ":1e+21,"
           ++ Js.dq ++ "hasDeploymentRollback" ++ Js.dq ++ ":null}")].
Proof. vm_compute. reflexivity. Qed.

(** ** The two writing routes and the table *)

Lemma identifiers_readable k r :
  readable r → Orm.round_trip <$> identifiers k r = identifiers k r.
Proof. intros Hr. by rewrite <-identifiers_stored, Hr. Qed.

(** The list of one kind in the row that a link leaves, when the stored and
    the submitted identifiers are ones that the column keeps. *)
Lemma stored_link_identifiers k now r b u :
  forallb storable (default [] (identifiers k r)) = true →
  forallb storable (default [] (submitted k b)) = true →
  identifiers k (Orm.stored (Orm.refreshed now (traceabilityRouter.link_into r b u)))
  = traceabilityRouter.merge_ids (identifiers k r) (submitted k b)
  ∧ forallb storable
      (default [] (traceabilityRouter.merge_ids (identifiers k r) (submitted k b))) = true.
Proof.
  intros Hstored Hsub.
  rewrite identifiers_stored, identifiers_refreshed, identifiers_link_into.
  assert (forallb storable
            (default [] (traceabilityRouter.merge_ids (identifiers k r) (submitted k b)))
          = true) as Hmerged.
  { destruct (submitted k b) as [ids|]; [|done].
    destruct (merge_ids_union (identifiers k r) ids) as (merged & -> & _ & _ & Hin & _).
    by eapply forallb_storable_merged. }
  split; [|done].
  destruct (traceabilityRouter.merge_ids (identifiers k r) (submitted k b)) as [l|];
    [|done].
  simpl in *. by rewrite round_trip_storable.
Qed.

(** X9.  The link route changes the supplied kinds only.  On a stored
    requirement, a row as a read returns it, and for a body whose supplied
    fields are iterable, the route sends back an entity and leaves a row in
    which the list of a kind that the request does not supply is the
    stored one, as are both flags and every descriptive field; [updatedBy]
    is the caller's name, or [system] when the request has no caller;
    [updatedAt] is left to the database.  The entity sent back drops no
    linked identifier of any kind, and a supplied empty array is still a
    merge: it leaves the stored identifiers, without their duplicates.  The
    row differs from the entity in what the list columns do to a list
    only: a list whose identifiers are not empty and hold no comma is
    stored as it is.  The other rows of the table are the same. *)
Theorem link_changes_supplied_kinds_only (req : Request) (w : World) (r : Requirement) :
  requirement_repo_up w →
  requirements w !! req_params_id req = Some r →
  first_not_iterable (req_body req) = None →
  readable r →
  ∃ w' r' row,
    traceabilityRouter.post_requirement_link req w
      = (Normal (json_response 200 (MessageBody "Artifacts linked successfully" r')), w')
    ∧ requirements w' !! id r = Some row
    ∧ row = Orm.stored r'
    ∧ (∀ key, key ≠ id r → requirements w' !! key = requirements w !! key)
    ∧ (∀ k, submitted k (req_body req) = None →
         identifiers k r' = identifiers k r ∧ identifiers k row = identifiers k r)
    ∧ (∀ k, submitted k (req_body req) = Some [] →
         identifiers k r' = Some (Js.first_occurrences (default [] (identifiers k r))))
    ∧ (∀ k x, x ∈ default [] (identifiers k r) → x ∈ default [] (identifiers k r'))
    ∧ (∀ k, forallb storable (default [] (identifiers k r')) = true →
         identifiers k row = identifiers k r')
    ∧ hasFailedTests r' = hasFailedTests r
    ∧ hasDeploymentRollback r' = hasDeploymentRollback r
    ∧ hasFailedTests row = hasFailedTests r
    ∧ hasDeploymentRollback row = hasDeploymentRollback r
    ∧ updatedBy r' = Some (Js.str_or (username <$> req_user req) "system")
    ∧ updatedBy row = updatedBy r'
    ∧ (req_user req = None → updatedBy r' = Some "system")
    ∧ id r' = id r ∧ title r' = title r ∧ description r' = description r
    ∧ priority r' = priority r ∧ status r' = status r
    ∧ createdBy r' = createdBy r ∧ createdAt r' = createdAt r
    ∧ id row = id r ∧ title row = title r ∧ description row = description r
    ∧ priority row = priority r ∧ status row = status r
    ∧ createdBy row = createdBy r ∧ createdAt row = createdAt r
    ∧ updatedAt row = updatedAt r'.
Proof.
  intros Hup Hfound Hiter Hreadable.
  destruct (post_requirement_link_trace req w r Hup Hfound Hiter)
    as (w' & Hrun & Hstore & _).
  eexists w', _, _. split; [exact Hrun|].
  split; [rewrite Hstore; apply lookup_insert_eq|]. split; [reflexivity|].
  split; [intros key Hkey; rewrite Hstore; by apply lookup_insert_ne|].
  unfold saved_entity. split_and!; try done.
  - intros k Hk. rewrite identifiers_stored, !identifiers_refreshed, identifiers_link_into, Hk.
    split; [done|]. by apply identifiers_readable.
  - intros k Hk. rewrite identifiers_refreshed, identifiers_link_into, Hk. simpl.
    by rewrite app_nil_r, array_from_set_first_occurrences.
  - intros k x Hx. rewrite identifiers_refreshed, identifiers_link_into.
    destruct (submitted k (req_body req)) as [ids|]; simpl; [|done].
    apply elem_of_array_from_set, elem_of_app. by left.
  - intros k Hk. rewrite identifiers_stored.
    destruct (identifiers k (Orm.refreshed _ _)) as [l|]; [|done].
    simpl in *. by rewrite round_trip_storable.
  - intros Hnone. simpl. by rewrite Hnone.
Qed.

(** The theorem at the sample link request, which supplies stories only. *)
Lemma link_changes_supplied_kinds_only_witness :
  let req := Sample.link_request in
  let w := Sample.world in
  let r := Sample.login in
  ∃ w' r' row,
    traceabilityRouter.post_requirement_link req w
      = (Normal (json_response 200 (MessageBody "Artifacts linked successfully" r')), w')
    ∧ requirements w' !! id r = Some row
    ∧ row = Orm.stored r'
    ∧ (∀ key, key ≠ id r → requirements w' !! key = requirements w !! key)
    ∧ (∀ k, submitted k (req_body req) = None →
         identifiers k r' = identifiers k r ∧ identifiers k row = identifiers k r)
    ∧ (∀ k, submitted k (req_body req) = Some [] →
         identifiers k r' = Some (Js.first_occurrences (default [] (identifiers k r))))
    ∧ (∀ k x, x ∈ default [] (identifiers k r) → x ∈ default [] (identifiers k r'))
    ∧ (∀ k, forallb storable (default [] (identifiers k r')) = true →
         identifiers k row = identifiers k r')
    ∧ hasFailedTests r' = hasFailedTests r
    ∧ hasDeploymentRollback r' = hasDeploymentRollback r
    ∧ hasFailedTests row = hasFailedTests r
    ∧ hasDeploymentRollback row = hasDeploymentRollback r
    ∧ updatedBy r' = Some (Js.str_or (username <$> req_user req) "system")
    ∧ updatedBy row = updatedBy r'
    ∧ (req_user req = None → updatedBy r' = Some "system")
    ∧ id r' = id r ∧ title r' = title r ∧ description r' = description r
    ∧ priority r' = priority r ∧ status r' = status r
    ∧ createdBy r' = createdBy r ∧ createdAt r' = createdAt r
    ∧ id row = id r ∧ title row = title r ∧ description row = description r
    ∧ priority row = priority r ∧ status row = status r
    ∧ createdBy row = createdBy r ∧ createdAt row = createdAt r
    ∧ updatedAt row = updatedAt r'.
Proof.
  apply (link_changes_supplied_kinds_only Sample.link_request Sample.world Sample.login).
  - constructor.
  - reflexivity.
  - reflexivity.
  - reflexivity.
Defined.

Lemma requirementRepo_findOne_cases key w :
  (∃ w1, requirementRepo_findOne key w = (Normal (requirements w !! key), w1)
         ∧ requirements w1 = requirements w)
  ∨ (∃ e w1, requirementRepo_findOne key w = (Thrown e, w1)
             ∧ requirements w1 = requirements w).
Proof.
  unfold requirementRepo_findOne, bind, requirement_repo_op.
  destruct (requirement_faults w) as [|[] rest]; simpl; eauto.
Qed.

Lemma requirementRepo_save_cases r w :
  (∃ e w1, requirementRepo_save r w = (Normal e, w1)
           ∧ id e = id r
           ∧ requirements w1 = <[id r := Orm.stored e]> (requirements w))
  ∨ (∃ e w1, requirementRepo_save r w = (Thrown e, w1)
             ∧ requirements w1 = requirements w).
Proof.
  unfold requirementRepo_save, bind, requirement_repo_op.
  destruct (requirement_faults w) as [|[] rest]; simpl.
  - left. eexists _, _. by split_and!.
  - right. by eexists _, _.
  - left. eexists _, _. by split_and!.
Qed.

(** What a writing route does to the table, whatever fails: nothing, or it
    replaces the stored row by what the columns keep of an entity with the
    same id. *)
Lemma writing_table (change : Requirement → Eff Requirement)
    (action missing msg answer : string) (details : Js.Value) req w :
  (∀ r w0, (∃ e, change r w0 = (Normal e, w0) ∧ id e = id r)
           ∨ (∃ e, change r w0 = (Thrown e, w0))) →
  let w' := snd (writing_route change action missing msg answer details req w) in
  requirements w' = requirements w
  ∨ ∃ r e, requirements w !! req_params_id req = Some r
           ∧ id e = id r
           ∧ requirements w' = <[id r := Orm.stored e]> (requirements w).
Proof.
  intros Hchange w'. subst w'. unfold writing_route, try_catch.
  destruct (requirementRepo_findOne_cases (req_params_id req) w)
    as [(w1 & Hload & Hreqs1)|(e & w1 & Hload & Hreqs1)].
  - rewrite (bind_returns _ _ _ _ _ Hload).
    destruct (requirements w !! req_params_id req) as [r|] eqn:Hfound.
    + destruct (Hchange r w1) as [(e & He & Hid)|(ex & He)].
      * rewrite (bind_returns _ _ _ _ _ He).
        destruct (requirementRepo_save_cases e w1)
          as [(e' & w2 & Hsave & Hrow & Hreqs2)|(ex & w2 & Hsave & Hreqs2)].
        -- rewrite (bind_returns _ _ _ _ _ Hsave).
           destruct (logModification_spec (req_user req) action details w2)
             as (w3 & Hlog & (Hreqs3 & _) & _).
           rewrite (bind_returns _ _ _ _ _ Hlog). simpl. right. exists r, e'.
           split; [done|]. split; [congruence|].
           by rewrite Hreqs3, Hreqs2, Hreqs1, Hid.
        -- rewrite (bind_throws _ _ _ _ _ Hsave). simpl. left. congruence.
      * rewrite (bind_throws _ _ _ _ _ He). simpl. by left.
    + destruct (logModification_spec (req_user req) missing
                  (Js.Obj [("id", Js.Str (req_params_id req))]) w1)
        as (w3 & Hlog & (Hreqs3 & _) & _).
      rewrite (bind_returns _ _ _ _ _ Hlog). simpl. left. congruence.
  - rewrite (bind_throws _ _ _ _ _ Hload). simpl. by left.
Qed.

Lemma kept_after_replacement key w w' :
  store_keyed w →
  (requirements w' = requirements w
   ∨ ∃ r e, requirements w !! key = Some r
            ∧ id e = id r
            ∧ requirements w' = <[id r := Orm.stored e]> (requirements w)) →
  store_keyed w'
  ∧ (dom (requirements w') : gset string) = dom (requirements w).
Proof.
  intros Hkeyed [Hsame|(r & row & Hfound & Hid & Hnew)].
  - split; [|by rewrite Hsame]. intros k r. rewrite Hsame. apply Hkeyed.
  - assert (id r = key) as Hkey by (by apply Hkeyed).
    split.
    + intros k r'. rewrite Hnew, Hkey.
      destruct (decide (k = key)) as [->|Hne].
      * rewrite lookup_insert_eq. intros [= <-]. simpl. congruence.
      * rewrite lookup_insert_ne by done. apply Hkeyed.
    + rewrite Hnew, Hkey. apply dom_insert_lookup_L. by rewrite Hfound.
Qed.

Lemma readable_after_replacement key w w' :
  table_readable w →
  (requirements w' = requirements w
   ∨ ∃ r e, requirements w !! key = Some r
            ∧ id e = id r
            ∧ requirements w' = <[id r := Orm.stored e]> (requirements w)) →
  table_readable w'.
Proof.
  intros Hreadable [Hsame|(r & e & _ & _ & Hnew)] k row.
  - rewrite Hsame. apply Hreadable.
  - rewrite Hnew. destruct (decide (k = id r)) as [->|Hne].
    + rewrite lookup_insert_eq. intros [= <-]. apply stored_is_readable.
    + rewrite lookup_insert_ne by done. apply Hreadable.
Qed.

Lemma mounted_table handler req w :
  requirements (snd (use authMiddleware handler req w)) = requirements w
  ∨ use authMiddleware handler req w = handler req w.
Proof.
  destruct (req_user req) as [u|] eqn:Huser.
  - right. by eapply use_authMiddleware_authenticated.
  - left.
    assert (use authMiddleware handler req w = ensureAuthenticated req w) as ->.
    { unfold use, authMiddleware. unfold bind.
      destruct (ensureAuthenticated req w) as [[o|e] w'] eqn:Hrun; [|done].
      revert Hrun. unfold ensureAuthenticated, isAuthenticated.
      rewrite Huser, bool_decide_false by (by intros [? ?]).
      unfold logger_warn. rewrite bind_logger_log.
      destruct (logUnauthorizedAccess_returns (req_ip req) (req_originalUrl req) None None
        (set_diagnostics
           (λ d, d ++ [{| level := LWarn; message := "Unauthorized access attempt" |}])%list
           w)) as ([] & w1 & Hlog & _).
      rewrite (bind_returns _ _ _ _ _ Hlog). by intros [= <- <-]. }
    apply (preserves_ensureAuthenticated same_requirements);
      first [exact same_requirements_refl|exact same_requirements_trans|relation_step].
Qed.

(** X10.  The writing routes keep the rows and their keys.  When every row
    of the requirement table is stored under its own id, it still is after
    a request to the link route or the flags route, whatever the request
    and whatever fails on the way, and the table has the same keys as
    before: the two routes replace a row, they never create, rename or
    delete one. *)
Theorem writing_keeps_rows_and_keys (req : Request) (w : World) :
  store_keyed w →
  let kept (route : Request → Eff Outcome) :=
    store_keyed (snd (route req w))
    ∧ (dom (requirements (snd (route req w))) : gset string) = dom (requirements w) in
  kept app.link_route ∧ kept app.flags_route.
Proof.
  intros Hkeyed kept. subst kept. cbv beta. split.
  - apply (kept_after_replacement (req_params_id req)); [done|].
    unfold app.link_route.
    destruct (mounted_table traceabilityRouter.post_requirement_link req w) as [?| ->];
      [by left|].
    rewrite post_requirement_link_shape. apply writing_table.
    intros r w0. unfold traceabilityRouter.assign_links.
    destruct (first_not_iterable (req_body req)); [right; by eexists|left; by eexists].
  - apply (kept_after_replacement (req_params_id req)); [done|].
    unfold app.flags_route.
    destruct (mounted_table traceabilityRouter.patch_requirement_flags req w) as [?| ->];
      [by left|].
    rewrite patch_requirement_flags_shape. apply writing_table.
    intros r w0. left. by eexists.
Qed.

Lemma sample_store_keyed : store_keyed Sample.world.
Proof.
  intros key r H.
  change (({[ "r1" := Sample.login ]} : gmap string Requirement) !! key = Some r) in H.
  apply lookup_singleton_Some in H as [<- <-]. reflexivity.
Defined.

(** The theorem for the sample link request in the sample world. *)
Lemma writing_keeps_rows_and_keys_witness :
  let req := Sample.link_request in
  let w := Sample.world in
  let kept (route : Request → Eff Outcome) :=
    store_keyed (snd (route req w))
    ∧ (dom (requirements (snd (route req w))) : gset string) = dom (requirements w) in
  kept app.link_route ∧ kept app.flags_route.
Proof.
  apply (writing_keeps_rows_and_keys Sample.link_request Sample.world).
  exact sample_store_keyed.
Defined.

Lemma merge_ids_commute existing a b :
  default [] (traceabilityRouter.merge_ids (traceabilityRouter.merge_ids existing a) b)
  ≡ₚ default [] (traceabilityRouter.merge_ids (traceabilityRouter.merge_ids existing b) a).
Proof.
  destruct a as [a|], b as [b|]; simpl; try done.
  apply NoDup_Permutation; [apply NoDup_array_from_set..|].
  intros x. rewrite !elem_of_array_from_set, !elem_of_app, !elem_of_array_from_set,
    !elem_of_app. tauto.
Qed.



(** Without the condition on the identifiers the two orders can leave
    different identifiers: [x,y] and then [x], and [x] and then [x,y]. *)
Example sample_link_orders_with_comma :
  let stories first second :=
    userStoryIds <$>
      requirements
        (snd (traceabilityRouter.post_requirement_link second
                (snd (traceabilityRouter.post_requirement_link first Sample.world))))
        !! "r1" in
  stories SampleComma.link_request SampleComma.piece_request
  = Some (Some ["s1"; "s2"; "x"; "y"])
  ∧ stories SampleComma.piece_request SampleComma.link_request
    = Some (Some ["s1"; "s2"; "x"; "x"; "y"]).
Proof. vm_compute. by split. Qed.

Example sample_link_orders :
  userStoryIds
    (traceabilityRouter.link_into
       (traceabilityRouter.link_into Sample.login (req_body Sample.link_request) None)
       (req_body SampleOrder.second_link) None)
  = Some ["s1"; "s2"; "s3"; "s4"]
  ∧ userStoryIds
      (traceabilityRouter.link_into
         (traceabilityRouter.link_into Sample.login (req_body SampleOrder.second_link) None)
         (req_body Sample.link_request) None)
    = Some ["s1"; "s2"; "s4"; "s3"].
Proof. split; vm_compute; reflexivity. Qed.

(** ** The two queries on Jenkins builds *)

Lemma fetch_deployment_status_status_of key w :
  IntegrationService.fetch_deployment_status key w
  = match IntegrationService.fetch_deployment key w with
    | (Normal d, w') => (Normal (status_of d), w')
    | (Thrown e, w') => (Thrown e, w')
    end.
Proof.
  unfold IntegrationService.fetch_deployment_status, IntegrationService.fetch_deployment,
    IntegrationService.env, IntegrationService.jenkinsClient_get, bind, get_world, ret,
    throw.
  by destruct (jenkins_get_build (upstream w) key).
Qed.

Lemma map_eff_status_of ids w :
  map_eff IntegrationService.fetch_deployment_status ids w
  = match map_eff IntegrationService.fetch_deployment ids w with
    | (Normal ds, w') => (Normal (status_of <$> ds), w')
    | (Thrown e, w') => (Thrown e, w')
    end.
Proof.
  revert w. induction ids as [|key ids IH]; intros w; simpl; [done|].
  unfold bind at 1 3. rewrite fetch_deployment_status_status_of.
  destruct (IntegrationService.fetch_deployment key w) as [[d|e] w1]; [|done].
  unfold bind at 1 2. rewrite IH.
  by destruct (map_eff IntegrationService.fetch_deployment ids w1) as [[ds|e] w2].
Qed.

(** X12.  The deployment-status query is the deployment query with the
    status normalized.  For the same identifiers and the same answers of
    Jenkins, [getDeploymentStatus] returns the records of [getDeployments],
    in the same order and with the same id, timestamp and URL, the status
    of each one being passed through the normalization; both are empty
    together when a request fails, and both leave the world as they found
    it but for their own error line. *)
Theorem deployment_status_is_normalized_deployments (ids : list string) (w : World) :
  ∃ ds,
    fst (IntegrationService.getDeployments ids w) = Normal ds
    ∧ fst (IntegrationService.getDeploymentStatus ids w) = Normal (status_of <$> ds)
    ∧ (ds = [] ∨ dep_id <$> ds = ids)
    ∧ only_logged (snd (IntegrationService.getDeployments ids w))
        (snd (IntegrationService.getDeploymentStatus ids w)).
Proof.
  unfold IntegrationService.getDeployments, IntegrationService.getDeploymentStatus,
    try_catch, IntegrationService.promise_all.
  destruct ids as [|key ids]; [exists []; split_and!; by auto using only_logged_refl|].
  rewrite map_eff_status_of.
  destruct (map_eff_reads IntegrationService.fetch_deployment (key :: ids) w)
    as [(ds & -> & Hall)|(e & -> & _)]; [auto with reads| |].
  - exists ds. split_and!; [done|done| |apply only_logged_refl].
    right. clear -Hall. induction Hall as [|k d ks ds Hk Hall IH]; [done|].
    simpl. f_equal; [|done].
    revert Hk. unfold IntegrationService.fetch_deployment, IntegrationService.env,
      IntegrationService.jenkinsClient_get, bind, get_world, ret, throw.
    destruct (jenkins_get_build (upstream w) k); simpl; [|done]. by intros [= <-].
  - exists []. split_and!; [done|done|by left|]. by repeat split.
Qed.

(** ** The matrix and the single requirement *)

Lemma only_logged_agree w w' : only_logged w w' → agree w w'.
Proof. intros (?&?&?&?&?&?&?). by repeat split. Qed.

(** A map whose steps only log and do not depend on the diagnostics: each
    result is what its step gives in the world in which the map began. *)
Lemma map_eff_independent {A B} (f : A → Eff B) xs w0 w :
  (∀ x, unaffected (f x)) →
  (∀ x w, ∃ y w', f x w = (Normal y, w') ∧ only_logged w w') →
  only_logged w0 w →
  ∃ ys w', map_eff f xs w = (Normal ys, w')
           ∧ only_logged w0 w'
           ∧ Forall2 (λ x y, fst (f x w0) = Normal y) xs ys.
Proof.
  intros Hun Hf. revert w. induction xs as [|x xs IH]; intros w Hol; simpl.
  - exists [], w. by split_and!.
  - destruct (Hf x w) as (y & w1 & Hy & Hol1).
    destruct (IH w1) as (ys & w2 & Hys & Hol2 & Hall); [by eapply only_logged_trans|].
    exists (y :: ys), w2. unfold bind. rewrite Hy, Hys. split_and!; [done|done|].
    constructor; [|done].
    destruct (Hun x w0 w (only_logged_agree _ _ Hol)) as [-> _]. by rewrite Hy.
Qed.

(** X13.  The matrix and the single-requirement route agree.  With the
    repository available, the matrix has one entry per stored requirement,
    in the order of the table, and the entity that
    [GET /requirement/:id] returns for a stored requirement is the entry of
    the matrix for that requirement: the same stored fields and the same
    five lists, whoever asks. *)
Theorem matrix_agrees_with_single_requirement (single listing : Request) (w : World)
    (r : Requirement) :
  requirement_repo_up w →
  requirements w !! req_params_id single = Some r →
  ∃ e matrix,
    fst (traceabilityRouter.get_requirement single w)
    = Normal (json_response 200 (RequirementBody e))
    ∧ fst (traceabilityRouter.get_matrix listing w)
      = Normal (json_response 200 (MatrixBody matrix))
    ∧ base <$> matrix = (map_to_list (requirements w)).*2
    ∧ base e = r
    ∧ e ∈ matrix.
Proof.
  intros Hup Hfound.
  destruct (get_requirement_found single w r Hup Hfound)
    as (e & w1 & w2 & He & _ & Hbase & _ & Hrun & _).
  assert (∀ r0 w0, ∃ y w', traceabilityRouter.enrich r0 w0 = (Normal y, w')
                          ∧ only_logged w0 w') as Htotal.
  { intros r0 w0. destruct (enrich_total r0 w0) as (y & w' & ? & ? & _). eauto. }
  destruct (map_eff_independent traceabilityRouter.enrich ((map_to_list (requirements w)).*2)
              (after_requirement_op w) (after_requirement_op w) unaffected_enrich Htotal
              (only_logged_refl _)) as (matrix & w3 & Hmatrix & Hol & Hall).
  destruct (listing_trace traceabilityRouter.enrich MatrixBody "GET_TRACEABILITY_MATRIX"
              "Error fetching traceability matrix:" listing w Htotal Hup)
    as (ys & w4 & w5 & Hys & _ & _ & Hlist & _).
  rewrite Hmatrix in Hys. injection Hys as <- <-.
  exists e, matrix. rewrite Hrun. unfold traceabilityRouter.get_matrix. rewrite Hlist.
  split_and!; [done|done| |done|].
  - clear -Hall. induction Hall as [|r0 e0 rs es Hr0 Hall IH]; [done|].
    simpl. f_equal; [|done].
    destruct (enrich_total r0 (after_requirement_op w)) as (y & w' & Hy & _ & Hb).
    rewrite Hy in Hr0. simpl in Hr0. congruence.
  - assert (r ∈ (map_to_list (requirements w)).*2) as Hin.
    { apply list_elem_of_fmap. exists (req_params_id single, r). split; [done|].
      by apply elem_of_map_to_list. }
    apply list_elem_of_lookup_1 in Hin as [i Hi].
    destruct (Forall2_lookup_l _ _ _ _ _ Hall Hi) as (e' & He' & Hr).
    rewrite He in Hr. simpl in Hr. injection Hr as ->.
    by eapply list_elem_of_lookup_2.
Qed.

(** The theorem for requirement [r1] of the sample world. *)
Lemma matrix_agrees_with_single_requirement_witness :
  ∃ e matrix,
    fst (traceabilityRouter.get_requirement Sample.link_request Sample.world)
    = Normal (json_response 200 (RequirementBody e))
    ∧ fst (traceabilityRouter.get_matrix SampleOutage.matrix_request Sample.world)
      = Normal (json_response 200 (MatrixBody matrix))
    ∧ base <$> matrix = (map_to_list (requirements Sample.world)).*2
    ∧ base e = Sample.login
    ∧ e ∈ matrix.
Proof.
  apply (matrix_agrees_with_single_requirement Sample.link_request
           SampleOutage.matrix_request Sample.world Sample.login).
  - constructor.
  - reflexivity.
Defined.

(** ** The report when Jenkins does not answer *)

Lemma report_row_at_mono u r row w w' :
  report_row_at u r row w → audit_only w w' → report_row_at u r row w'.
Proof.
  intros (Hrow & Htests & Hout) Hao. split_and!; [done..|].
  intros d Hd Hav. destruct (Hout d Hd Hav) as [? ?]. split; [done|].
  by eapply error_logged_mono.
Qed.

Lemma report_row_outage r w :
  ∃ row w',
    traceabilityRouter.report_row r w = (Normal row, w')
    ∧ audit_only w w'
    ∧ report_row_at (upstream w) r row w'.
Proof.
  unfold traceabilityRouter.report_row.
  rewrite (bind_returns _ _ _ _ _ (getTestResults_returns (testCaseIds r) w)).
  destruct (getDeploymentStatus_spec (deploymentIds r) w)
    as (l & w' & Hrun & Hao & _ & _ & Hfail).
  rewrite (bind_returns _ _ _ _ _ Hrun).
  eexists _, w'. split; [reflexivity|]. split; [done|].
  split; [by repeat split|]. split; [done|]. simpl.
  intros d Hd Hav.
  destruct (unavailable_throws IntegrationService.fetch_deployment_status build_available
              fetch_deployment_status_available d w Hav) as [e He].
  by apply (Hfail d e).
Qed.

Lemma get_report_outage req w :
  requirement_repo_up w →
  ∃ rows w',
    traceabilityRouter.get_report req w
    = (Normal (json_response 200 (ReportBody rows)), w')
    ∧ Forall2 (λ r row, report_row_at (upstream w) r row w')
        ((map_to_list (requirements w)).*2) rows.
Proof.
  intros Hup. unfold traceabilityRouter.get_report, try_catch.
  rewrite (bind_returns _ _ _ _ _ (requirementRepo_find_up w Hup)).
  destruct (map_eff_returns traceabilityRouter.report_row report_row_at
              ((map_to_list (requirements w)).*2) (after_requirement_op w))
    as (rows & w1 & Hrun & Hao & Hall).
  { apply report_row_at_mono. }
  { intros r w0. destruct (report_row_outage r w0) as (row & w' & Hr & Hao & Hrow).
    by exists row, w'. }
  rewrite (bind_returns _ _ _ _ _ Hrun).
  destruct (logAccess_returns (req_user req) "GET_TRACEABILITY_REPORT"
              (Js.Obj [("count",
                        Js.Num (pretty (Z.of_nat (length ((map_to_list (requirements w)).*2)))))])
              None w1) as ([] & w2 & Hlog & Hao2).
  rewrite (bind_returns _ _ _ _ _ Hlog).
  exists rows, w2. split; [done|].
  eapply Forall2_impl; [done|]. intros r row Hrow. simpl in Hrow.
  by eapply report_row_at_mono.
Qed.

(** The rows of a report for one key of a keyed table. *)
Lemma report_rows_for_key (P : Requirement → ReportRow → Prop) w key r rows :
  store_keyed w →
  requirements w !! key = Some r →
  (∀ r row, P r row → row_id row = id r) →
  Forall2 P ((map_to_list (requirements w)).*2) rows →
  (∃ row, row ∈ rows ∧ row_id row = key)
  ∧ (∀ row, row ∈ rows → row_id row = key → P r row).
Proof.
  intros Hkeyed Hfound Hid Hall.
  assert (r ∈ (map_to_list (requirements w)).*2) as Hin.
  { apply list_elem_of_fmap. exists (key, r). split; [done|].
    by apply elem_of_map_to_list. }
  split.
  - apply list_elem_of_lookup_1 in Hin as [i Hi].
    destruct (Forall2_lookup_l _ _ _ _ _ Hall Hi) as (row & Hrow & Hof).
    exists row. split; [by eapply list_elem_of_lookup_2|].
    rewrite (Hid _ _ Hof). by apply Hkeyed.
  - intros row Hrow Hrid.
    apply list_elem_of_lookup_1 in Hrow as [i Hi].
    destruct (Forall2_lookup_r _ _ _ _ _ Hall Hi) as (r' & Hr' & Hof).
    assert (r' = r) as ->; [|done].
    apply list_elem_of_lookup_2, list_elem_of_fmap in Hr' as ([key' r''] & -> & Hin').
    apply elem_of_map_to_list in Hin'. simpl in *.
    assert (key' = key) as ->.
    { rewrite <-(Hkeyed _ _ Hin'), <-Hrid. symmetry. by apply Hid. }
    congruence.
Qed.

Lemma imap_test_result_ids u ids : tr_id <$> imap (test_result_at u) ids = ids.
Proof.
  assert (∀ (f : nat → nat) l, tr_id <$> imap (λ i, test_result_at u (f i)) l = l) as Hgen.
  { intros f l. revert f. induction l as [|x l IH]; intros f; [done|].
    simpl. f_equal. apply (IH (f ∘ S)). }
  apply (Hgen (λ i, i)).
Qed.

(** X14.  An outage of Jenkins hides rollbacks in the report.  When the
    repository is available and Jenkins fails for one build of a stored
    requirement, the report is still answered 200 and has the row of that
    requirement; the row lists one test result per test case, in order;
    but it has no deployment status at all, also for the builds that
    Jenkins did answer for, and its rollback flag is the stored flag: a
    failed build among the others is not reported.  The outage is in the
    diagnostic stream. *)
Theorem jenkins_outage_hides_rollbacks (req : Request) (w : World) (key : string)
    (r : Requirement) (d : string) :
  requirement_repo_up w →
  store_keyed w →
  requirements w !! key = Some r →
  d ∈ default [] (deploymentIds r) →
  build_available (upstream w) d = false →
  reports (fst (traceabilityRouter.get_report req w)) key
    (λ row, row_deploymentStatus row = []
            ∧ row_hasDeploymentRollback row = hasDeploymentRollback r
            ∧ tr_id <$> row_testResults row = default [] (testCaseIds r))
  ∧ error_logged "IntegrationService.getDeploymentStatus error:"
      (snd (traceabilityRouter.get_report req w)).
Proof.
  intros Hup Hkeyed Hfound Hd Hav.
  destruct (get_report_outage req w Hup) as (rows & w' & -> & Hall).
  destruct (report_rows_for_key (λ r row, report_row_at (upstream w) r row w')
              w key r rows Hkeyed Hfound) as [Hex Hrows]; [|done|].
  { by intros r0 row ((-> & _) & _). }
  split.
  - exists rows. split; [done|]. split; [done|].
    intros row Hrow Hrid. destruct (Hrows row Hrow Hrid) as (Hof & Htests & Hout).
    destruct (Hout d Hd Hav) as [Hempty _].
    destruct Hof as (_ & _ & _ & _ & Hflag).
    split_and!; [done| |].
    + rewrite Hflag, Hempty. simpl. by rewrite orb_false_r.
    + rewrite Htests. apply imap_test_result_ids.
  - destruct Hex as (row & Hrow & Hrid). destruct (Hrows row Hrow Hrid) as (_ & _ & Hout).
    by destruct (Hout d Hd Hav).
Qed.

Lemma sample_rollback_store_keyed : store_keyed SampleRollback.world.
Proof.
  intros key r H.
  change (({[ "r1" := SampleRollback.login ]} : gmap string Requirement) !! key = Some r)
    in H.
  apply lookup_singleton_Some in H as [<- <-]. reflexivity.
Defined.

(** The theorem for build [d2], for which Jenkins does not answer, while
    build [d1] of the same requirement has failed. *)
Lemma jenkins_outage_hides_rollbacks_witness :
  reports (fst (traceabilityRouter.get_report Sample.report_request SampleRollback.world))
    "r1"
    (λ row, row_deploymentStatus row = []
            ∧ row_hasDeploymentRollback row = hasDeploymentRollback SampleRollback.login
            ∧ tr_id <$> row_testResults row = default [] (testCaseIds SampleRollback.login))
  ∧ error_logged "IntegrationService.getDeploymentStatus error:"
      (snd (traceabilityRouter.get_report Sample.report_request SampleRollback.world)).
Proof.
  apply (jenkins_outage_hides_rollbacks Sample.report_request SampleRollback.world "r1"
           SampleRollback.login "d2").
  - constructor.
  - exact sample_rollback_store_keyed.
  - reflexivity.
  - vm_compute. apply list_elem_of_In. simpl. tauto.
  - reflexivity.
Defined.

(** ** A write and the next read *)

(** X15.  A write is visible to the next read.  With the repository
    available and the table keyed by id, the single-requirement route that
    follows a link of the same requirement, with a body whose supplied
    fields are iterable, returns the entity that the link sent back as the
    list columns store it, with the same [updatedAt]: for a supplied kind
    that entity has the merged list, and a list whose identifiers are not
    empty and hold no comma is read as it was sent back.  The report that
    follows an update of the flags of the requirement has for it the row of
    the entity that the update sent back: a flag that was set to [true] is
    reported [true], whatever the upstream systems say. *)
Theorem write_is_visible_to_next_read (link flagging read report : Request) (key : string)
    (w : World) (r : Requirement) :
  requirement_repo_up w →
  store_keyed w →
  requirements w !! key = Some r →
  req_params_id link = key →
  req_params_id flagging = key →
  req_params_id read = key →
  first_not_iterable (req_body link) = None →
  (∃ r' e,
     fst (traceabilityRouter.post_requirement_link link w)
     = Normal (json_response 200 (MessageBody "Artifacts linked successfully" r'))
     ∧ fst (traceabilityRouter.get_requirement read
              (snd (traceabilityRouter.post_requirement_link link w)))
       = Normal (json_response 200 (RequirementBody e))
     ∧ base e = Orm.stored r'
     ∧ updatedAt (base e) = updatedAt r'
     ∧ (∀ k ids, submitted k (req_body link) = Some ids →
          identifiers k r'
          = Some (Js.array_from_set (default [] (identifiers k r) ++ ids)))
     ∧ (∀ k, forallb storable (default [] (identifiers k r')) = true →
          identifiers k (base e) = identifiers k r'))
  ∧ (∃ r',
       fst (traceabilityRouter.patch_requirement_flags flagging w)
       = Normal (json_response 200 (MessageBody "Flags updated successfully" r'))
       ∧ reports (fst (traceabilityRouter.get_report report
                         (snd (traceabilityRouter.patch_requirement_flags flagging w))))
           key
           (λ row,
              row_of r' row
              ∧ (body_hasFailedTests (req_body flagging) = Js.Bool true →
                   row_hasFailedTests row = true)
              ∧ (body_hasDeploymentRollback (req_body flagging) = Js.Bool true →
                   row_hasDeploymentRollback row = true))).
Proof.
  intros Hup Hkeyed Hfound Hlink Hflag Hread Hiter.
  pose proof (Hkeyed _ _ Hfound) as Hid. split.
  - rewrite <-Hlink in Hfound.
    destruct (post_requirement_link_found link w r Hup Hfound Hiter)
      as (w1 & -> & Hstore & _ & Hup1). simpl.
    destruct (get_requirement_found read w1
                (Orm.stored
                   (saved_entity w
                      (traceabilityRouter.link_into r (req_body link) (req_user link))))
                Hup1)
      as (e & _ & w3 & _ & _ & Hbase & _ & -> & _).
    { rewrite Hread, Hstore, Hid. apply lookup_insert_eq. }
    eexists _, e. split_and!; [done|done|done|by rewrite Hbase| |].
    + intros k ids Hk. unfold saved_entity.
      by rewrite identifiers_refreshed, identifiers_link_into, Hk.
    + intros k Hk. rewrite Hbase, identifiers_stored.
      destruct (identifiers k (saved_entity w _)) as [l|]; [|done].
      simpl in *. by rewrite round_trip_storable.
  - rewrite <-Hflag in Hfound.
    destruct (patch_requirement_flags_found flagging w r Hup Hfound)
      as (w1 & Hrun & Hstore & _ & Hup1).
    set (saved := saved_entity w
                    (traceabilityRouter.flags_into r (req_body flagging)
                       (req_user flagging))) in *.
    rewrite Hrun. simpl. exists saved. split; [done|].
    assert (store_keyed w1) as Hkeyed1.
    { apply (kept_after_replacement (req_params_id flagging) w w1); [done|].
      right. exists r, saved. by split_and!. }
    destruct (get_report_reports report w1 key (Orm.stored saved)
                Hup1 Hkeyed1) as (w2 & _ & _ & Hreports).
    { rewrite Hstore, Hid. apply lookup_insert_eq. }
    eapply reports_mono; [done|]. intros row Hrow. split; [exact Hrow|].
    destruct Hrow as (_ & _ & _ & -> & ->). unfold saved. simpl.
    split; by intros ->.
Qed.

(** The theorem for the sample link request, which links three stories to
    [r1], the sample flags request for [r1], and a read of [r1]. *)
Lemma write_is_visible_to_next_read_witness :
  let link := Sample.link_request in
  let flagging := Sample.flags_request in
  let read := SampleRead.request in
  let report := Sample.report_request in
  let key := "r1" in
  let w := Sample.world in
  let r := Sample.login in
  (∃ r' e,
     fst (traceabilityRouter.post_requirement_link link w)
     = Normal (json_response 200 (MessageBody "Artifacts linked successfully" r'))
     ∧ fst (traceabilityRouter.get_requirement read
              (snd (traceabilityRouter.post_requirement_link link w)))
       = Normal (json_response 200 (RequirementBody e))
     ∧ base e = Orm.stored r'
     ∧ updatedAt (base e) = updatedAt r'
     ∧ (∀ k ids, submitted k (req_body link) = Some ids →
          identifiers k r'
          = Some (Js.array_from_set (default [] (identifiers k r) ++ ids)))
     ∧ (∀ k, forallb storable (default [] (identifiers k r')) = true →
          identifiers k (base e) = identifiers k r'))
  ∧ (∃ r',
       fst (traceabilityRouter.patch_requirement_flags flagging w)
       = Normal (json_response 200 (MessageBody "Flags updated successfully" r'))
       ∧ reports (fst (traceabilityRouter.get_report report
                         (snd (traceabilityRouter.patch_requirement_flags flagging w))))
           key
           (λ row,
              row_of r' row
              ∧ (body_hasFailedTests (req_body flagging) = Js.Bool true →
                   row_hasFailedTests row = true)
              ∧ (body_hasDeploymentRollback (req_body flagging) = Js.Bool true →
                   row_hasDeploymentRollback row = true))).
Proof.
  apply (write_is_visible_to_next_read Sample.link_request Sample.flags_request
           SampleRead.request Sample.report_request "r1" Sample.world Sample.login).
  - constructor.
  - exact sample_store_keyed.
  - reflexivity.
  - reflexivity.
  - reflexivity.
  - reflexivity.
  - reflexivity.
Defined.

Example sample_read_after_link :
  userStoryIds <$> requirements Sample.world !! "r1" = Some (Some ["s1"; "s2"])
  ∧ submitted UserStoryKind (req_body Sample.link_request) = Some ["s3"; "s1"; "s3"]
  ∧ ∃ e, fst (traceabilityRouter.get_requirement SampleRead.request
                (snd (traceabilityRouter.post_requirement_link Sample.link_request
                        Sample.world)))
         = Normal (json_response 200 (RequirementBody e))
         ∧ userStoryIds (base e) = Some ["s1"; "s2"; "s3"].
Proof. split_and!; [done..|]. eexists. split; vm_compute; reflexivity. Qed.

(** ** The decisions of [authorize] *)

(** X16.  A pass leaves no trace, a denial leaves one.  For a caller whose
    role is a member of the enum, [authorize] either calls [next()] and
    leaves the world exactly as it found it, with no line in the diagnostics
    and no row in the audit table, or answers 403, writes its warning right
    after the diagnostics that were there, touches the audit storage only,
    and with the audit repository available appends exactly one row: an
    [UNAUTHORIZED_ACCESS] row with the name and role of the caller and the
    address and URL of the request. *)
Theorem authorize_pass_leaves_no_trace (r : UserRole) (u : User) (required : list string)
    (req : Request) (w : World) :
  req_user req = Some u →
  role u = role_value r →
  authorize required req w = (Normal Next, w)
  ∨ ∃ w',
      authorize required req w = (Normal Forbidden403, w')
      ∧ audit_only w w'
      ∧ (diagnostics w ++ [denial_warning])%list `prefix_of` diagnostics w'
      ∧ (audit_repo_up w →
           audit_logs w' = (audit_logs w ++ [unauthorized_row w req u])%list
           ∧ log_ip (unauthorized_row w req u) = Some (req_ip req)).
Proof.
  intros Huser Hrole.
  destruct (rolePermissions_entry r) as (perms & _ & Hget). rewrite <-Hrole in Hget.
  unfold authorize, try_catch. rewrite Huser, Hget, bind_ret_l.
  destruct (includes perms "*"); simpl; [by left|].
  destruct (forallb (includes perms) required); simpl; [by left|].
  right. unfold logger_warn. rewrite bind_logger_log.
  destruct (logUnauthorizedAccess_spec (req_ip req) (req_originalUrl req)
    (Some (username u)) (Some (role u))
    (set_diagnostics (λ d, d ++ [denial_warning])%list w))
    as (w' & Hlog & Hao & Hrows).
  change {| level := LWarn; message := "Access denied: Insufficient permissions" |}
    with denial_warning.
  rewrite (bind_returns _ _ _ _ _ Hlog).
  exists w'. split; [done|]. split_and!.
  - eapply audit_only_trans; [|done]. frame.
  - by destruct Hao as (_&_&_&_&_&?).
  - intros Hup. split; [|done]. by rewrite Hrows.
Qed.

(** The theorem for a viewer. *)
Lemma authorize_pass_leaves_no_trace_witness :
  let req := SampleAuth.request_of (Some Sample.victor) in
  authorize ["link"] req Sample.world = (Normal Next, Sample.world)
  ∨ ∃ w',
      authorize ["link"] req Sample.world = (Normal Forbidden403, w')
      ∧ audit_only Sample.world w'
      ∧ (diagnostics Sample.world ++ [denial_warning])%list `prefix_of` diagnostics w'
      ∧ (audit_repo_up Sample.world →
           audit_logs w'
           = (audit_logs Sample.world ++ [unauthorized_row Sample.world req Sample.victor])%list
           ∧ log_ip (unauthorized_row Sample.world req Sample.victor) = Some (req_ip req)).
Proof.
  apply (authorize_pass_leaves_no_trace VIEWER Sample.victor ["link"]
           (SampleAuth.request_of (Some Sample.victor)) Sample.world).
  - reflexivity.
  - reflexivity.
Defined.

Lemma authorize_decision required req w u perms :
  req_user req = Some u →
  rolePermissions_get (role u) = OwnArray perms →
  fst (authorize required req w)
  = Normal (if includes perms "*" || forallb (includes perms) required
            then Next else Forbidden403).
Proof.
  intros Huser Hget.
  destruct (authorize_own_entry required req w u perms Huser Hget)
    as [[-> ->]|[-> (o & w' & -> & -> & _)]]; done.
Qed.

(** X17.  What the permission table gives the roles of the enum.  Every
    role passes a route that requires nothing and a route that requires
    [view].  The administrator passes whatever is required, and is the only
    role that does: every other role is denied some requirement.  No role
    but the administrator holds both [link] and [flag], or both [export]
    and [report]. *)
Theorem role_table_separates_duties (r : UserRole) (u : User) (req : Request) (w : World) :
  req_user req = Some u →
  role u = role_value r →
  fst (authorize [] req w) = Normal Next
  ∧ fst (authorize ["view"] req w) = Normal Next
  ∧ (r = ADMIN ↔ ∀ required, fst (authorize required req w) = Normal Next)
  ∧ (fst (authorize ["link"; "flag"] req w) = Normal Next → r = ADMIN)
  ∧ (fst (authorize ["export"; "report"] req w) = Normal Next → r = ADMIN).
Proof.
  intros Huser Hrole.
  destruct (rolePermissions_entry r) as (perms & Hown & Hget). rewrite <-Hrole in Hget.
  pose proof (λ required, authorize_decision required req w u perms Huser Hget) as Hdec.
  split_and!.
  - rewrite Hdec. by rewrite orb_true_r.
  - rewrite Hdec. by destruct r; simplify_eq/=.
  - split.
    + intros -> required. rewrite Hdec. by simplify_eq/=.
    + intros Hall. specialize (Hall ["view"; "link"; "flag"; "export"]).
      rewrite Hdec in Hall. by destruct r; simplify_eq/=.
  - rewrite Hdec. by destruct r; simplify_eq/=.
  - rewrite Hdec. by destruct r; simplify_eq/=.
Qed.

(** The theorem for a developer. *)
Lemma role_table_separates_duties_witness :
  let req := SampleAuth.request_of (Some SamplePolicy.dana) in
  let w := Sample.world in
  fst (authorize [] req w) = Normal Next
  ∧ fst (authorize ["view"] req w) = Normal Next
  ∧ (DEVELOPER = ADMIN ↔ ∀ required, fst (authorize required req w) = Normal Next)
  ∧ (fst (authorize ["link"; "flag"] req w) = Normal Next → DEVELOPER = ADMIN)
  ∧ (fst (authorize ["export"; "report"] req w) = Normal Next → DEVELOPER = ADMIN).
Proof.
  apply (role_table_separates_duties DEVELOPER SamplePolicy.dana
           (SampleAuth.request_of (Some SamplePolicy.dana)) Sample.world).
  - reflexivity.
  - reflexivity.
Defined.

(** ** The CSV export read back *)

Lemma has_quote_app s t : Csv.has_quote (s ++ t) = Csv.has_quote s || Csv.has_quote t.
Proof.
  induction s as [|c s IH]; [done|].
  rewrite append_cons. cbn [Csv.has_quote]. by rewrite IH, orb_assoc.
Qed.

Lemma double_quotes_without_quote s : Csv.has_quote s = false → Js.double_quotes s = s.
Proof.
  induction s as [|c s IH]; [done|]. cbn [Csv.has_quote Js.double_quotes].
  intros [Hc Hs]%orb_false_elim. by rewrite Hc, IH.
Qed.

Lemma pretty_N_char_no_quote x : Ascii.eqb (pretty_N_char x) Js.dquote = false.
Proof. unfold pretty_N_char. by repeat case_match. Qed.

Lemma has_quote_pretty_N_go x s :
  Csv.has_quote s = false → Csv.has_quote (pretty_N_go x s) = false.
Proof.
  revert s. induction (N.lt_wf_0 x) as [x _ IH]. intros s Hs.
  destruct (decide (0 < x)%N) as [Hpos|Hzero].
  - rewrite pretty_N_go_step by done. apply IH.
    + by apply N.div_lt.
    + cbn [Csv.has_quote]. by rewrite pretty_N_char_no_quote.
  - assert (x = 0%N) as -> by lia. by rewrite pretty_N_go_0.
Qed.

Lemma has_quote_pretty_N (x : N) : Csv.has_quote (pretty x) = false.
Proof.
  unfold pretty, pretty_N. case_decide; [done|]. by apply has_quote_pretty_N_go.
Qed.

Lemma has_quote_pretty_Z (x : Z) : Csv.has_quote (pretty x) = false.
Proof.
  destruct x as [|p|p]; [done|apply (has_quote_pretty_N (Npos p))|].
  change (Csv.has_quote ("-" ++ pretty (Npos p)) = false).
  by rewrite has_quote_app, has_quote_pretty_N.
Qed.

Lemma has_quote_pad width n : Csv.has_quote (Js.pad width n) = false.
Proof.
  unfold Js.pad. cbv zeta. rewrite has_quote_app, has_quote_pretty_Z, orb_false_r.
  induction (width - String.length (pretty n))%nat as [|k IH]; [done|].
  cbn [repeat String.concat]. destruct k; [done|].
  change (repeat "0" (S k)) with ("0" :: repeat "0" k) at 1. cbv iota.
  by rewrite !has_quote_app, IH.
Qed.

Lemma has_quote_toISOString ms iso :
  Js.toISOString ms = Some iso → Csv.has_quote iso = false.
Proof.
  unfold Js.toISOString. case_match; [done|].
  destruct (Js.civil_from_days (ms / 86400000)) as [[y m] d].
  intros [= <-]. rewrite !has_quote_app, !has_quote_pad.
  repeat case_match; by rewrite ?has_quote_app, ?has_quote_pad.
Qed.

Lemma append_nil_r (s : string) : s ++ EmptyString = s.
Proof. induction s as [|c s IH]; [done|]. by rewrite append_cons, IH. Qed.

Lemma length_append (s t : string) :
  String.length (s ++ t) = (String.length s + String.length t)%nat.
Proof. induction s as [|c s IH]; [done|]. rewrite append_cons. simpl. by rewrite IH. Qed.

(** A row whose fields all had their quotes doubled reads back. *)
Lemma read_row_doubled fields fuel :
  fields ≠ [] →
  (length fields ≤ fuel)%nat →
  Csv.read_row fuel
    (Js.join "," ((λ s, AuditLogService.quoted (Js.double_quotes s)) <$> fields))
  = Some fields.
Proof.
  revert fuel. induction fields as [|s fields IH]; intros fuel Hne Hfuel; [done|].
  destruct fuel as [|fuel]; [simpl in Hfuel; lia|].
  destruct fields as [|s' fields].
  - cbn [fmap list_fmap Js.join Csv.read_row].
    rewrite <-(append_nil_r (AuditLogService.quoted (Js.double_quotes s))) at 1.
    by rewrite read_quoted_double_quotes.
  - change (Js.join "," ((λ s, AuditLogService.quoted (Js.double_quotes s))
                            <$> s :: s' :: fields))
      with (AuditLogService.quoted (Js.double_quotes s)
            ++ "," ++ Js.join "," ((λ s, AuditLogService.quoted (Js.double_quotes s))
                                     <$> s' :: fields)).
    cbn [Csv.read_row]. rewrite read_quoted_double_quotes.
    + rewrite append_cons, append_nil_l. change (Ascii.eqb "," ",") with true. cbv iota.
      rewrite IH; [done|done|]. simpl in *. lia.
    + intros c rest'. rewrite append_cons, append_nil_l. by intros [= <- _].
Qed.

Lemma length_join_quoted (f : string → string) fields :
  (length fields
   ≤ String.length (Js.join "," ((λ s, AuditLogService.quoted (f s)) <$> fields)))%nat.
Proof.
  induction fields as [|s fields IH]; [done|].
  destruct fields as [|s' fields].
  - cbn [fmap list_fmap Js.join]. unfold AuditLogService.quoted, Js.dq.
    rewrite append_cons. simpl. lia.
  - change (Js.join "," ((λ s, AuditLogService.quoted (f s)) <$> s :: s' :: fields))
      with (AuditLogService.quoted (f s)
            ++ "," ++ Js.join "," ((λ s, AuditLogService.quoted (f s)) <$> s' :: fields)).
    set (rest := Js.join "," ((λ s, AuditLogService.quoted (f s)) <$> s' :: fields)) in *.
    unfold AuditLogService.quoted, Js.dq.
    rewrite !append_cons, append_nil_l. cbn [String.length].
    rewrite !length_append. cbn [String.length length] in *.
    rewrite append_nil_l. lia.
Qed.

(** X18.  A row of the CSV export reads back when only its details hold
    quotes.  For a stored row whose id, action, user name, role and address
    have no double quote, reading the line of the export as a row of quoted
    fields, a doubled quote standing for one quote, gives the seven stored
    values: the details come back as stored, whatever quotes, commas or line
    breaks they hold, and the timestamp that the export prints never holds
    a quote.  The row has no line exactly when its timestamp has no ISO
    form. *)
Theorem csv_row_reads_back (log : AuditLog) :
  Csv.has_quote (log_id log) = false →
  Csv.has_quote (log_action log) = false →
  Csv.has_quote (Js.str_or (log_username log) "") = false →
  Csv.has_quote (Js.str_or (log_role log) "") = false →
  Csv.has_quote (Js.str_or (log_ip log) "") = false →
  AuditLogService.csv_row log ≫= Csv.parse_row = original_fields log
  ∧ (AuditLogService.csv_row log = None ↔ Js.toISOString (log_timestamp log) = None).
Proof.
  intros Hid Haction Hname Hrole Hip.
  unfold AuditLogService.csv_row, AuditLogService.csv_fields, original_fields.
  destruct (Js.toISOString (log_timestamp log)) as [iso|] eqn:Hiso; [|done].
  split; [|done]. cbn [mbind option_bind].
  pose proof (has_quote_toISOString _ _ Hiso) as Hquote.
  set (fields := [ log_id log; log_action log; Js.str_or (log_username log) "";
                   Js.str_or (log_role log) ""; Js.str_or (log_details log) "";
                   Js.str_or (log_ip log) ""; iso ]).
  assert (AuditLogService.quoted <$>
            [ log_id log; log_action log; Js.str_or (log_username log) "";
              Js.str_or (log_role log) "";
              Js.double_quotes (Js.str_or (log_details log) "");
              Js.str_or (log_ip log) ""; iso ]
          = (λ s, AuditLogService.quoted (Js.double_quotes s)) <$> fields) as ->.
  { unfold fields. cbn [fmap list_fmap].
    by rewrite (double_quotes_without_quote _ Hid), (double_quotes_without_quote _ Haction),
      (double_quotes_without_quote _ Hname), (double_quotes_without_quote _ Hrole),
      (double_quotes_without_quote _ Hip), (double_quotes_without_quote _ Hquote). }
  unfold Csv.parse_row. apply read_row_doubled; [done|].
  pose proof (length_join_quoted Js.double_quotes fields). simpl in *. lia.
Qed.

(** The theorem for the older row of the sample table, whose details hold
    quotes. *)
Lemma csv_row_reads_back_witness :
  AuditLogService.csv_row SampleExport.older ≫= Csv.parse_row
  = original_fields SampleExport.older
  ∧ (AuditLogService.csv_row SampleExport.older = None
     ↔ Js.toISOString (log_timestamp SampleExport.older) = None).
Proof.
  apply (csv_row_reads_back SampleExport.older); reflexivity.
Defined.

(** ** The export and its failures *)

Lemma csv_row_None log :
  AuditLogService.csv_row log = None ↔ Js.toISOString (log_timestamp log) = None.
Proof.
  unfold AuditLogService.csv_row, AuditLogService.csv_fields.
  by destruct (Js.toISOString (log_timestamp log)).
Qed.

Lemma mapM_csv_row_None logs :
  mapM AuditLogService.csv_row logs = None
  ↔ ∃ log, log ∈ logs ∧ Js.toISOString (log_timestamp log) = None.
Proof.
  rewrite eq_None_not_Some, mapM_is_Some, <-Exists_Forall_neg, Exists_exists.
  - split; intros (log & Hin & Hnone); exists log; (split; [done|]).
    + apply csv_row_None. by apply eq_None_not_Some.
    + apply eq_None_not_Some. by apply csv_row_None.
  - intros log. simpl. destruct (AuditLogService.csv_row log); [left; by eexists|right].
    by intros [? ?].
Qed.

Lemma stringify_pretty_array_nonempty items :
  Js.stringify_pretty "  " (Js.Arr items) ≠ "".
Proof.
  unfold Js.stringify_pretty. cbn [Js.stringify_at].
  rewrite bool_decide_false by done.
  by destruct (List.map _ items).
Qed.

Lemma join_header_nonempty rows :
  Js.join Js.nl (AuditLogService.csv_header :: rows) ≠ "".
Proof. by destruct rows. Qed.

(** X19.  The empty string is the mark of a failed export, and of nothing
    else.  [exportLogs] returns the empty string exactly when the read of
    the audit table throws or, in CSV, when a stored row has a timestamp
    without an ISO form; the failure is then in the diagnostic stream.  In
    JSON such a timestamp is no failure.  An empty table is not confused
    with a failure: its export is [[]] in JSON and the header line in
    CSV. *)
Theorem empty_export_means_failure (format : AuditLogService.Format) (w : World) :
  (fst (AuditLogService.exportLogs format w) = Normal "" ↔ export_fails format w)
  ∧ (export_fails format w →
       error_logged "AuditLogService.exportLogs error:"
         (snd (AuditLogService.exportLogs format w)))
  ∧ (audit_logs w = [] → next_audit_op_fails w = false →
       fst (AuditLogService.exportLogs format w)
       = Normal match format with
                | AuditLogService.json => "[]"
                | AuditLogService.csv => AuditLogService.csv_header
                end).
Proof.
  assert (∀ log, log ∈ order_by_timestamp_desc (audit_logs w) ↔ log ∈ audit_logs w)
    as Hperm.
  { intros log. by rewrite (order_by_timestamp_desc_perm (audit_logs w)). }
  split_and!.
  - rewrite exportLogs_result. unfold export_fails. cbv zeta.
    destruct (next_audit_op_fails w); [split; [by left|done]|].
    destruct format.
    + split.
      * intros [= Hempty]. by apply stringify_pretty_array_nonempty in Hempty.
      * by intros [?|[? _]].
    + destruct (mapM _ _) as [rows|] eqn:Hrows.
      * split.
        -- intros [= Hempty]. by apply join_header_nonempty in Hempty.
        -- intros [?|[_ (log & Hin & Hnone)]]; [done|].
           assert (mapM AuditLogService.csv_row (order_by_timestamp_desc (audit_logs w))
                   = None) as Hno; [|congruence].
           apply mapM_csv_row_None. exists log. by rewrite Hperm.
      * split; [|done]. intros _. right. split; [done|].
        apply mapM_csv_row_None in Hrows as (log & Hin & Hnone).
        exists log. by rewrite <-Hperm.
  - unfold export_fails, next_audit_op_fails, AuditLogService.exportLogs, try_catch,
      auditRepo_find_desc, audit_repo_op. unfold bind at 1 2 3.
    intros [Hfail|[-> (log & Hin & Hnone)]].
    + destruct (audit_faults w) as [|[] rest]; [done| |done].
      apply error_logged_logger_error.
    + assert (mapM AuditLogService.csv_row (order_by_timestamp_desc (audit_logs w)) = None)
        as Hno.
      { apply mapM_csv_row_None. exists log. by rewrite Hperm. }
      destruct (audit_faults w) as [|[] rest]; simpl; rewrite ?Hno;
        apply error_logged_logger_error.
  - intros Hempty Hok. rewrite exportLogs_result, Hok, Hempty. by destruct format.
Qed.

(** ** What a [GET] answer depends on *)

(** *** What the matrix reads of the upstream systems *)

Lemma same_sources_draws u1 u2 : same_sources u1 u2 → same_draws u1 u2 → u1 = u2.
Proof. destruct u1, u2. intros (? & ? & ? & ?) (? & ?). simpl in *. by subst. Qed.

Lemma reads_sources_ret {A} (a : A) : reads_sources (ret a).
Proof. by intros w1 w2 Hs. Qed.

Lemma reads_sources_throw {A} e : reads_sources (@throw A e).
Proof. by intros w1 w2 Hs. Qed.

Lemma reads_sources_bind {A B} (m : Eff A) (k : A → Eff B) :
  reads_sources m → (∀ a, reads_sources (k a)) → reads_sources (bind m k).
Proof.
  intros Hm Hk w1 w2 Hs. unfold bind. destruct (Hm w1 w2 Hs) as [Hfst Hsnd].
  destruct (m w1) as [[a1|e1] w1'], (m w2) as [[a2|e2] w2']; simplify_eq/=;
    [by apply Hk|done].
Qed.

Lemma reads_sources_try_catch {A} (m : Eff A) (handler : Exception → Eff A) :
  reads_sources m → (∀ e, reads_sources (handler e)) → reads_sources (try_catch m handler).
Proof.
  intros Hm Hk w1 w2 Hs. unfold try_catch. destruct (Hm w1 w2 Hs) as [Hfst Hsnd].
  destruct (m w1) as [[a1|e1] w1'], (m w2) as [[a2|e2] w2']; simplify_eq/=;
    [done|by apply Hk].
Qed.

Lemma reads_sources_map_eff {A B} (f : A → Eff B) xs :
  (∀ x, reads_sources (f x)) → reads_sources (map_eff f xs).
Proof.
  intros Hf. induction xs as [|x xs IH]; simpl; [apply reads_sources_ret|].
  apply reads_sources_bind; [done|]. intros y.
  apply reads_sources_bind; [done|]. intros ys. apply reads_sources_ret.
Qed.

Lemma reads_sources_logger_error msg : reads_sources (logger_error msg).
Proof. by intros w1 w2 Hs. Qed.

Lemma reads_sources_env name : reads_sources (IntegrationService.env name).
Proof.
  intros w1 w2 Hs. split; [|done]. destruct Hs as (_ & _ & _ & Henv).
  cbv [IntegrationService.env bind get_world ret fst]. by rewrite Henv.
Qed.

Lemma reads_sources_jiraClient_get key :
  reads_sources (IntegrationService.jiraClient_get key).
Proof.
  intros w1 w2 Hs. pose proof Hs as (Hjira & _).
  cbv [IntegrationService.jiraClient_get bind get_world]. rewrite Hjira.
  by destruct (jira_get_issue _ _).
Qed.

Lemma reads_sources_githubClient_get owner repo key :
  reads_sources (IntegrationService.githubClient_get owner repo key).
Proof.
  intros w1 w2 Hs. pose proof Hs as (_ & Hgithub & _).
  cbv [IntegrationService.githubClient_get bind get_world]. rewrite Hgithub.
  by destruct (github_get_commit _ _).
Qed.

Lemma reads_sources_jenkinsClient_get job key :
  reads_sources (IntegrationService.jenkinsClient_get job key).
Proof.
  intros w1 w2 Hs. pose proof Hs as (_ & _ & Hjenkins & _).
  cbv [IntegrationService.jenkinsClient_get bind get_world]. rewrite Hjenkins.
  by destruct (jenkins_get_build _ _).
Qed.

Create HintDb sources discriminated.
#[local] Hint Resolve reads_sources_ret reads_sources_throw reads_sources_env
  reads_sources_logger_error reads_sources_jiraClient_get reads_sources_githubClient_get
  reads_sources_jenkinsClient_get : sources.

Ltac sources_step :=
  first [ solve [auto with sources]
        | apply reads_sources_bind; [|intros ?]
        | apply reads_sources_try_catch; [|intros ?]
        | apply reads_sources_map_eff; intros ?
        | match goal with |- reads_sources (match ?x with _ => _ end) => destruct x end ].

Lemma reads_sources_enrich r : reads_sources (traceabilityRouter.enrich r).
Proof.
  unfold traceabilityRouter.enrich, traceabilityRouter.when_nonempty,
    IntegrationService.getUserStories, IntegrationService.getTasks,
    IntegrationService.getTestCases, IntegrationService.getCodeCommits,
    IntegrationService.getDeployments, IntegrationService.promise_all,
    IntegrationService.fetch_issue, IntegrationService.fetch_commit,
    IntegrationService.fetch_deployment.
  repeat sources_step.
Qed.

Lemma enrich_sources r w1 w2 :
  same_sources (upstream w1) (upstream w2) →
  fst (traceabilityRouter.enrich r w1) = fst (traceabilityRouter.enrich r w2).
Proof. intros Hs. by apply reads_sources_enrich. Qed.

Lemma report_row_upstream r w1 w2 :
  upstream w1 = upstream w2 →
  fst (traceabilityRouter.report_row r w1) = fst (traceabilityRouter.report_row r w2).
Proof.
  intros Hu. unfold traceabilityRouter.report_row.
  rewrite (bind_returns _ _ _ _ _ (getTestResults_returns (testCaseIds r) w1)).
  rewrite (bind_returns _ _ _ _ _ (getTestResults_returns (testCaseIds r) w2)).
  destruct (getDeploymentStatus_spec (deploymentIds r) w1) as (l1 & w1' & Hrun1 & _ & Hl1 & _).
  destruct (getDeploymentStatus_spec (deploymentIds r) w2) as (l2 & w2' & Hrun2 & _).
  pose proof (Hl1 w2 (eq_sym Hu)) as Hsame. rewrite Hrun2 in Hsame. simpl in Hsame.
  injection Hsame as ->.
  rewrite (bind_returns _ _ _ _ _ Hrun1), (bind_returns _ _ _ _ _ Hrun2). simpl.
  by rewrite Hu.
Qed.

Lemma Forall2_functional {A B} (f g : A → Completion B) xs ys zs :
  (∀ x, f x = g x) →
  Forall2 (λ x y, f x = Normal y) xs ys →
  Forall2 (λ x z, g x = Normal z) xs zs →
  ys = zs.
Proof.
  intros Hfg Hys. revert zs. induction Hys as [|x y xs ys Hy Hys IH]; intros zs Hzs.
  - by inversion Hzs.
  - inversion Hzs as [|x' z xs' zs' Hz Hzs']; subst. f_equal; [|by apply IH].
    rewrite Hfg in Hy. congruence.
Qed.

Lemma listing_answer {B} (same : Upstream → Upstream → Prop) (f : Requirement → Eff B)
    (body : list B → ResponseBody) (action msg : string) (a b : Request) (w1 w2 : World) :
  (∀ r, unaffected (f r)) →
  (∀ r w, ∃ y w', f r w = (Normal y, w') ∧ only_logged w w') →
  (∀ r w w', same (upstream w) (upstream w') → fst (f r w) = fst (f r w')) →
  requirement_repo_up w1 → requirement_repo_up w2 →
  requirements w1 = requirements w2 → same (upstream w1) (upstream w2) →
  let route (req : Request) :=
    try_catch
      (do reqs <- requirementRepo_find;
       do ys <- map_eff f reqs;
       run AuditLogService.logAccess (req_user req) action
             (Js.Obj [("count", Js.Num (pretty (Z.of_nat (length reqs))))]) None;
       ret (json_response 200 (body ys)))
      (λ error, run logger_error msg; ret (NextError error)) in
  fst (route a w1) = fst (route b w2).
Proof.
  intros Hun Htotal Hup Hup1 Hup2 Hreqs Hu route. subst route. cbv beta.
  destruct (listing_trace f body action msg a w1 Htotal Hup1)
    as (ys1 & v1 & v1' & Hys1 & _ & _ & -> & _).
  destruct (listing_trace f body action msg b w2 Htotal Hup2)
    as (ys2 & v2 & v2' & Hys2 & _ & _ & -> & _).
  destruct (map_eff_independent f ((map_to_list (requirements w1)).*2)
              (after_requirement_op w1) (after_requirement_op w1) Hun Htotal
              (only_logged_refl _)) as (zs1 & ? & Hzs1 & _ & Hall1).
  destruct (map_eff_independent f ((map_to_list (requirements w2)).*2)
              (after_requirement_op w2) (after_requirement_op w2) Hun Htotal
              (only_logged_refl _)) as (zs2 & ? & Hzs2 & _ & Hall2).
  rewrite Hys1 in Hzs1. rewrite Hys2 in Hzs2. simplify_eq. rewrite <-Hreqs in Hall2.
  simpl. do 3 f_equal.
  eapply Forall2_functional; [|exact Hall1|exact Hall2].
  intros r. by apply Hup.
Qed.



(** On a day with other draws the report is another one, for the same
    table and the same answers of the systems. *)
Example sample_report_differs_with_draws :
  let other := set_upstream Sample.systems_all_pass Sample.world in
  requirements other = requirements Sample.world
  ∧ same_sources (upstream other) (upstream Sample.world)
  ∧ fst (traceabilityRouter.get_matrix Sample.report_request other)
    = fst (traceabilityRouter.get_matrix Sample.report_request Sample.world)
  ∧ fst (traceabilityRouter.get_report Sample.report_request other)
    ≠ fst (traceabilityRouter.get_report Sample.report_request Sample.world).
Proof. split_and!; [done|by split_and!|vm_compute; reflexivity|vm_compute; discriminate]. Qed.

(** ** A link field that cannot be spread *)

(** X21.  A link field that is neither falsy nor iterable stops the link
    before anything is written.  On a stored requirement and with the
    repository available, a body in which a field is a number other than
    zero, [true] or an object makes the spread throw: the route writes its
    error line and hands the error to [next], the table and the clock of
    the database are as before, also for the fields that came earlier in
    the body and were arrays, and no row is added to the audit table. *)
Theorem link_of_non_iterable_field_writes_nothing (req : Request) (w : World)
    (r : Requirement) (name : string) :
  requirement_repo_up w →
  requirements w !! req_params_id req = Some r →
  first_not_iterable (req_body req) = Some name →
  ∃ error w',
    traceabilityRouter.post_requirement_link req w = (Normal (NextError error), w')
    ∧ requirements w' = requirements w
    ∧ database_clock w' = database_clock w
    ∧ audit_logs w' = audit_logs w
    ∧ diagnostics w'
      = (diagnostics w
           ++ [{| level := LError;
                  message := "Error linking artifacts to requirement:" |}])%list.
Proof.
  intros Hup Hfound Hiter. eexists _, _.
  unfold traceabilityRouter.post_requirement_link, try_catch.
  rewrite (bind_returns _ _ _ _ _ (requirementRepo_findOne_up _ w Hup)), Hfound.
  unfold traceabilityRouter.assign_links. rewrite Hiter.
  split; [reflexivity|]. by split_and!.
Qed.

(** The theorem for a body whose [taskIds] is the number 5. *)
Lemma link_of_non_iterable_field_writes_nothing_witness :
  let req := SampleNotIterable.request in
  let w := Sample.world in
  ∃ error w',
    traceabilityRouter.post_requirement_link req w = (Normal (NextError error), w')
    ∧ requirements w' = requirements w
    ∧ database_clock w' = database_clock w
    ∧ audit_logs w' = audit_logs w
    ∧ diagnostics w'
      = (diagnostics w
           ++ [{| level := LError;
                  message := "Error linking artifacts to requirement:" |}])%list.
Proof.
  apply (link_of_non_iterable_field_writes_nothing SampleNotIterable.request Sample.world
           Sample.login "taskIds").
  - constructor.
  - reflexivity.
  - reflexivity.
Defined.

(** A string is iterable: its characters are linked one by one. *)
Example sample_link_of_text :
  userStoryIds <$>
    requirements
      (snd (traceabilityRouter.post_requirement_link SampleNotIterable.text_request
              Sample.world)) !! "r1"
  = Some (Some ["s1"; "s2"; "s"; "9"]).
Proof. vm_compute. reflexivity. Qed.

(** ** The rows that the writing routes leave *)

Lemma sample_table_readable : table_readable Sample.world.
Proof.
  intros key r H.
  change (({[ "r1" := Sample.login ]} : gmap string Requirement) !! key = Some r) in H.
  apply lookup_singleton_Some in H as [<- <-]. reflexivity.
Defined.

(** X22.  The writing routes leave rows as a read returns them.  The list
    columns keep an array as its elements joined by commas, and what is
    read of such a text is written back as the same text: when every row of
    the requirement table is a row as a read returns it, it still is after
    a request to the link route or the flags route as the application
    mounts them, whatever the request and whatever fails on the way. *)
Theorem table_stays_readable (req : Request) (w : World) :
  table_readable w →
  table_readable (snd (app.link_route req w))
  ∧ table_readable (snd (app.flags_route req w)).
Proof.
  intros Hreadable. split.
  - apply (readable_after_replacement (req_params_id req) w); [done|].
    unfold app.link_route.
    destruct (mounted_table traceabilityRouter.post_requirement_link req w) as [?| ->];
      [by left|].
    rewrite post_requirement_link_shape. apply writing_table.
    intros r w0. unfold traceabilityRouter.assign_links.
    destruct (first_not_iterable (req_body req)); [right; by eexists|left; by eexists].
  - apply (readable_after_replacement (req_params_id req) w); [done|].
    unfold app.flags_route.
    destruct (mounted_table traceabilityRouter.patch_requirement_flags req w) as [?| ->];
      [by left|].
    rewrite patch_requirement_flags_shape. apply writing_table.
    intros r w0. left. by eexists.
Qed.

(** The theorem for the request that links the identifier [x,y], which the
    column does not keep as it is. *)
Lemma table_stays_readable_witness :
  table_readable (snd (app.link_route SampleComma.link_request Sample.world))
  ∧ table_readable (snd (app.flags_route SampleComma.link_request Sample.world)).
Proof.
  apply (table_stays_readable SampleComma.link_request Sample.world).
  exact sample_table_readable.
Defined.
